(** * Ink/Stitch clone elements: [lib/elements/clone.py]

    A shallow embedding of the [Clone] element of Ink/Stitch and of the
    part of [inkex] it calls, followed by the verification of the
    behaviours stated for it.

    Conventions.
    - Python floats are idealised: a finite float is a real number
      ([R]), and [math.atan2], [math.degrees], [math.radians], [sin]
      and [cos] are their real counterparts; [nan] and the two
      infinities are kept apart, because [float()] accepts their text.
    - The document is an lxml tree.  A node object is identified by its
      position (the list of child indexes leading to it from the root);
      the only structural changes the code performs are an append of a
      last child and the removal of that same child, which keep the
      positions of all other nodes stable.
    - The [transform] attribute is held as the transform its text
      denotes.  [inkex] keeps it as text: every read of the wrapped
      property writes the text form of the value back, so the text form
      is part of the model ([reparse], [shown]).
    - Python exceptions are values of [exn]; a computation that touches
      the document is a function from the state to a result and a new
      state, so that mutations made before a [raise] stay visible. *)

From Stdlib Require Import Reals Lra Lia.
From stdpp Require Import base option list strings.

(** ** Exceptions and results *)

Inductive exn : Type :=
  | AttributeError
  | ValueError
  | TypeError
  | ZeroDivisionError
  | FragmentError
  | Failure (code : nat).

Inductive result (A : Type) : Type :=
  | Ok (a : A)
  | Raise (e : exn).
Arguments Ok {A} a.
Arguments Raise {A} e.

Definition is_raise {A} (r : result A) : bool :=
  match r with Ok _ => false | Raise _ => true end.

(** ** The [inkex] transform algebra

    [inkex.transforms.Transform] is the class imported at line 11 of
    [clone.py].  It is a 2x3 affine matrix [(a, b, c, d, e, f)] mapping
    [(x, y)] to [(a*x + c*y + e, b*x + d*y + f)]. *)

Module Transform.
Local Open Scope R_scope.

Record t : Type := mk { a : R; b : R; c : R; d : R; e : R; f : R }.

(** [Transform()] and [Transform(None)]. *)
Definition identity : t := mk 1 0 0 1 0 0.

(** [A @ B] ([Transform.__matmul__]): apply [B] first, then [A]. *)
Definition matmul (A B : t) : t :=
  mk (a A * a B + c A * b B)
     (b A * a B + d A * b B)
     (a A * c B + c A * d B)
     (b A * c B + d A * d B)
     (a A * e B + c A * f B + e A)
     (b A * e B + d A * f B + f A).

Definition det (A : t) : R := a A * d A - c A * b A.

(** The matrix that [-A] ([Transform.__neg__], documented as
    "Returns an inverted transformation") builds once the determinant
    is known to be non zero. *)
Definition inverse (A : t) : t :=
  let na := d A / det A in
  let nd := a A / det A in
  let nc := - c A / det A in
  let nb := - b A / det A in
  mk na nb nc nd (- (na * e A + nc * f A)) (- (nb * e A + nd * f A)).

(** [-A]: the division by a zero determinant raises. *)
Definition neg (A : t) : result t :=
  if Req_dec_T (det A) 0 then Raise ZeroDivisionError else Ok (inverse A).

(** [Transform((A.a, A.b, A.c, A.d, 0, 0))]. *)
Definition strip_translation (A : t) : t := mk (a A) (b A) (c A) (d A) 0 0.

Definition radians (x : R) : R := x * PI / 180.
Definition degrees (x : R) : R := x * 180 / PI.

(** [Transform("rotate(x)")] ([Transform.add_rotate] on the identity,
    with no centre). *)
Definition rotate (deg : R) : t :=
  mk (cos (radians deg)) (sin (radians deg))
     (- sin (radians deg)) (cos (radians deg)) 0 0.

(** [Transform("scale(sx, sy)")]. *)
Definition scale (sx sy : R) : t := mk sx 0 0 sy 0 0.

(** [Transform("translate(tx, ty)")]. *)
Definition translate (tx ty : R) : t := mk 1 0 0 1 tx ty.

(** [A.add_scale(sx, sy)] multiplies by a scale on the right. *)
Definition add_scale (A : t) (sx sy : R) : t := matmul A (scale sx sy).

(** [A.apply_to_point((x, y))]. *)
Definition apply_to_point (A : t) (p : R * R) : R * R :=
  (a A * fst p + c A * snd p + e A, b A * fst p + d A * snd p + f A).

(** [math.atan2 y x], by quadrants. *)
Definition atan2 (y x : R) : R :=
  if Rlt_dec 0 x then atan (y / x)
  else if Rlt_dec x 0 then
    if Rle_dec 0 y then atan (y / x) + PI else atan (y / x) - PI
  else if Rlt_dec 0 y then PI / 2
  else if Rlt_dec y 0 then - (PI / 2)
  else 0.

(** [Vector2d.angle]: the polar angle, [None] for the null vector. *)
Definition vector_angle (v : R * R) : option R :=
  if Req_dec_T (fst v) 0 then
    if Req_dec_T (snd v) 0 then None else Some (atan2 (snd v) (fst v))
  else Some (atan2 (snd v) (fst v)).

(** [degrees(v.angle)]: [math.degrees(None)] is a [TypeError]. *)
Definition degrees_of_angle (v : R * R) : result R :=
  match vector_angle v with
  | Some r => Ok (degrees r)
  | None => Raise TypeError
  end.

(** [Transform.absolute_tolerance]. *)
Definition absolute_tolerance : R := 1 / 100000.

Definition within_tolerance (x y : R) : bool :=
  if Rle_dec (Rabs (x - y)) absolute_tolerance then true else false.

(** [A == B] ([Transform.__eq__]): the six coefficients agree within
    the tolerance. *)
Definition equal (A B : t) : bool :=
  within_tolerance (a A) (a B) && within_tolerance (b A) (b B)
  && within_tolerance (c A) (c B) && within_tolerance (d A) (d B)
  && within_tolerance (e A) (e B) && within_tolerance (f A) (f B).

(** [bool(A)] ([Transform.__bool__]): [A] is not the identity. *)
Definition truthy (A : t) : bool := negb (equal A identity).
End Transform.

(** ** [is_transform_flipped] and [angle_for_transform] (lines 181-194) *)

Definition is_transform_flipped (t : Transform.t) : bool :=
  if Rlt_dec (Transform.a t * Transform.d t) (Transform.b t * Transform.c t)
  then true else false.

Definition angle_for_transform (t : Transform.t) : result R :=
  let t := Transform.strip_translation t in
  let t := if is_transform_flipped t then Transform.add_scale t (-1) 1 else t in
  Transform.degrees_of_angle (Transform.apply_to_point t (1%R, 0%R)).

(** ** Floats and the text of a numeric attribute *)

Inductive nonfinite : Type := Nan | Inf | NegInf.

(** A Python float. *)
Inductive pyfloat : Type :=
  | Finite (r : R)
  | NonFinite (x : nonfinite).

(** [-x]. *)
Definition float_neg (x : pyfloat) : pyfloat :=
  match x with
  | Finite r => Finite (- r)
  | NonFinite Nan => NonFinite Nan
  | NonFinite Inf => NonFinite NegInf
  | NonFinite NegInf => NonFinite Inf
  end.

(** The text of a numeric attribute, by what [float(text)] makes of
    it: a finite number, one of [nan], [inf], [-inf] (in any of the
    spellings [float] accepts), or a [ValueError]. *)
Inductive attr_text : Type :=
  | NumText (r : R)
  | NonFiniteText (x : nonfinite)
  | OtherText (s : string).

(** [float(text)]. *)
Definition float_of_text (v : attr_text) : result pyfloat :=
  match v with
  | NumText r => Ok (Finite r)
  | NonFiniteText x => Ok (NonFinite x)
  | OtherText _ => Raise ValueError
  end.

(** [str(x)], the text [node.set(name, x)] stores for a float. *)
Definition text_of_float (x : pyfloat) : attr_text :=
  match x with
  | Finite r => NumText r
  | NonFinite y => NonFiniteText y
  end.

(** ** The document tree

    What the code reads and writes on an lxml node: its tag, four
    attributes and its children. *)

(** A position in the tree: child indexes from the root. *)
Definition path : Type := list nat.

Record Attrib : Type := mkAttrib {
  a_transform : option Transform.t;   (* 'transform' *)
  a_angle : option attr_text;         (* INKSTITCH_ATTRIBS['angle'] *)
  a_flip_angle : option bool;         (* INKSTITCH_ATTRIBS['flip_angle'] *)
  a_href : option path                (* XLINK_HREF, as the node it names *)
}.

#[local] Set Warnings "-register-all".
Inductive Node : Type :=
  mkNode { tag : string; attrib : Attrib; children : list Node }.

Definition with_attrib (g : Attrib → Attrib) (n : Node) : Node :=
  mkNode (tag n) (g (attrib n)) (children n).

Definition with_children (g : list Node → list Node) (n : Node) : Node :=
  mkNode (tag n) (attrib n) (g (children n)).

Definition put_transform (t : option Transform.t) (a : Attrib) : Attrib :=
  mkAttrib t (a_angle a) (a_flip_angle a) (a_href a).

Definition set_angle (v : attr_text) (a : Attrib) : Attrib :=
  mkAttrib (a_transform a) (Some v) (a_flip_angle a) (a_href a).

Definition set_flip_angle (v : option bool) (a : Attrib) : Attrib :=
  mkAttrib (a_transform a) (a_angle a) v (a_href a).

(** The node at a position, if there is one. *)
Fixpoint get_node (p : path) (n : Node) : option Node :=
  match p with
  | [] => Some n
  | i :: p' =>
      match children n !! i with
      | Some c => get_node p' c
      | None => None
      end
  end.

(** In-place update of the node at a position (no effect when the
    position is not in the tree). *)
Fixpoint alter_node (g : Node → Node) (p : path) (n : Node) : Node :=
  match p with
  | [] => g n
  | i :: p' => with_children (alter (alter_node g p') i) n
  end.

(** The transform the [transform] attribute of a node denotes: the
    identity when absent. *)
Definition node_transform (n : Node) : Transform.t :=
  default Transform.identity (a_transform (attrib n)).

(** The product, from the root down, of the transforms of the node's
    ancestors and of the node: the value of
    [node.composed_transform()], which is
    [parent.composed_transform() @ self.transform]. *)
Fixpoint composed_below (acc : Transform.t) (n : Node) (p : path) : Transform.t :=
  match p with
  | [] => acc
  | i :: p' =>
      match children n !! i with
      | Some c => composed_below (Transform.matmul acc (node_transform c)) c p'
      | None => acc
      end
  end.

Definition composed_transform (root : Node) (p : path) : Transform.t :=
  composed_below (node_transform root) root p.

(** [node.iterdescendants()]: every descendant in document order, with
    its position relative to the node. *)
Fixpoint iterdescendants (n : Node) : list (path * Node) :=
  (fix walk (cs : list Node) (i : nat) : list (path * Node) :=
     match cs with
     | [] => []
     | c :: cs' =>
         ((([i] : path), c) :: map (fun qc => ((i :: fst qc : path), snd qc)) (iterdescendants c))
           ++ walk cs' (S i)
     end) (children n) 0.

(** [node.getparent()]. *)
Fixpoint getparent (p : path) : option path :=
  match p with
  | [] => None
  | [i] => Some []
  | i :: p' => (cons i) <$> getparent p'
  end.

(** The positions of a node's ancestors and of the node, from the root
    down: the nodes [composed_transform()] visits, in the order in
    which it reads their transform. *)
Fixpoint lineage_from (done rest : path) : list path :=
  match rest with
  | [] => []
  | i :: rest' => (done ++ [i]) :: lineage_from (done ++ [i]) rest'
  end.

Definition lineage (p : path) : list path := [] :: lineage_from [] p.

(** Modelled from the spec: the tag constants of [lib/svg/tags.py]
    ([EMBROIDERABLE_TAGS], [SVG_GROUP_TAG], [SVG_USE_TAG]), which
    identify the embroiderable shape types, the container and the
    clone reference. *)
Definition svg (name : string) : string := "{http://www.w3.org/2000/svg}" +:+ name.
Definition SVG_PATH_TAG : string := svg "path".
Definition SVG_POLYLINE_TAG : string := svg "polyline".
Definition SVG_POLYGON_TAG : string := svg "polygon".
Definition SVG_RECT_TAG : string := svg "rect".
Definition SVG_ELLIPSE_TAG : string := svg "ellipse".
Definition SVG_CIRCLE_TAG : string := svg "circle".
Definition SVG_GROUP_TAG : string := svg "g".
Definition SVG_USE_TAG : string := svg "use".
Definition SVG_TEXT_TAG : string := svg "text".
Definition EMBROIDERABLE_TAGS : list string :=
  [SVG_PATH_TAG; SVG_POLYLINE_TAG; SVG_POLYGON_TAG;
   SVG_RECT_TAG; SVG_ELLIPSE_TAG; SVG_CIRCLE_TAG].

(** The tag of the document element, the one [inkex] maps to
    [SvgDocumentElement]. *)
Definition SVG_DOCUMENT_TAG : string := svg "svg".

Definition tag_in (t : string) (tags : list string) : bool :=
  existsb (String.eqb t) tags.

(** ** The state: the document and the record of its mutations *)

Inductive Mutation : Type :=
  | MAdd (child : path)                  (* parent.add(child) *)
  | MRemove (child : path)               (* parent.remove(child) *)
  | MSet (node : path) (name : string)   (* node.set(name, value) *)
  | MRewrite (node : path).              (* 'transform' written back by a read *)

Record State : Type := mkState { document : Node; trace : list Mutation }.

Definition M (A : Type) : Type := State → result A * State.

Definition ret {A} (a : A) : M A := fun s => (Ok a, s).

Definition bind {A B} (m : M A) (k : A → M B) : M B :=
  fun s =>
    match m s with
    | (Ok a, s') => k a s'
    | (Raise e, s') => (Raise e, s')
    end.

Definition raise {A} (e : exn) : M A := fun s => (Raise e, s).

(** A read of the document. *)
Definition gets {A} (g : Node → A) : M A := fun s => (Ok (g (document s)), s).

(** A read that may raise. *)
Definition reads {A} (g : Node → result A) : M A := fun s => (g (document s), s).

(** [try: body finally: cleanup]: the cleanup runs on both outcomes of
    the body; its own exception, if any, replaces the body's. *)
Definition try_finally {A} (body : M A) (cleanup : M unit) : M A :=
  fun s =>
    let (r, s1) := body s in
    match cleanup s1 with
    | (Ok _, s2) => (r, s2)
    | (Raise e, s2) => (Raise e, s2)
    end.

Notation "x <- m ;; k" := (bind m (fun x => k))
  (at level 100, m at next level, right associativity).
Notation "m ;;; k" := (bind m (fun _ => k))
  (at level 100, right associativity).

Fixpoint for_each {A} (g : A → M unit) (l : list A) : M unit :=
  match l with
  | [] => ret tt
  | x :: l' => g x ;;; for_each g l'
  end.

(** [node.set(name, value)]. *)
Definition node_set (p : path) (name : string) (g : Attrib → Attrib) : M unit :=
  fun s =>
    (Ok tt, mkState (alter_node (with_attrib g) p (document s))
                    (trace s ++ [MSet p name])).

(** [parent.add(child)]: appends the child; [parent] is [None] when
    the clone is the root, and [None.add] is an [AttributeError]. *)
Definition node_add (parent : option path) (child : Node) : M path :=
  fun s =>
    match parent with
    | None => (Raise AttributeError, s)
    | Some pp =>
        match get_node pp (document s) with
        | None => (Raise AttributeError, s)
        | Some pn =>
            let cp := pp ++ [length (children pn)] in
            (Ok cp, mkState (alter_node (with_children (fun cs => cs ++ [child])) pp (document s))
                            (trace s ++ [MAdd cp]))
        end
    end.

Fixpoint split_last (p : path) : option (path * nat) :=
  match p with
  | [] => None
  | [k] => Some ([], k)
  | i :: p' =>
      match split_last p' with
      | Some (pp, k) => Some (i :: pp, k)
      | None => None
      end
  end.

(** [parent.remove(child)]: a [ValueError] when [child] is not a child
    of [parent]. *)
Definition node_remove (child : path) : M unit :=
  fun s =>
    match split_last child with
    | None => (Raise ValueError, s)
    | Some (pp, k) =>
        match get_node child (document s) with
        | None => (Raise ValueError, s)
        | Some _ =>
            (Ok tt, mkState (alter_node (with_children (delete k)) pp (document s))
                            (trace s ++ [MRemove child]))
        end
    end.

(** ** The collaborators of [Clone]

    [clone.py] consumes, and does not define:
    - the text form [inkex] gives to a transform.  [str(A)] writes a
      transform with six significant digits, as a [translate], a
      [scale], a [rotate] or a [matrix]; [reparse A] is the transform
      that text denotes, [Transform(str(A))];
    - [node_to_elements] ([lib/elements/utils.py]) and the methods
      [to_stitch_groups] and [get_cache_key] of the elements it
      returns.  An element is an object of some class ([Kind]) wrapping
      the node it was made from; several elements may wrap the same
      node.  Its methods read the node they wrap (with its subtree) and
      the node's composed transform; they do not write to the
      document. *)
Class Collaborators : Type := {
  reparse : Transform.t → Transform.t;
  Kind : Type;
  StitchGroup : Type;
  Stitch : Type;
  CacheKey : Type;
  node_to_elements : Node → list Kind;
  element_to_stitch_groups :
    Kind → Node → Transform.t → option StitchGroup → result (list StitchGroup);
  element_get_cache_key : Kind → Node → Transform.t → option Stitch → CacheKey
}.

Record Element `{Collaborators} : Type := mkElement { el_kind : Kind; el_node : path }.

Definition empty_node : Node := mkNode "" (mkAttrib None None None None) [].

Section Clone.
Context `{Collaborators}.

(** *** The wrapped [transform] property of a node *)

(** The attribute once [str(A)] has been assigned to it: a falsy
    transform (the identity, within the tolerance) removes it. *)
Definition shown (A : Transform.t) : option Transform.t :=
  if Transform.truthy A then Some (reparse A) else None.

(** What a read of the property leaves in the attributes. *)
Definition reserialize (a : Attrib) : Attrib :=
  put_transform (shown (default Transform.identity (a_transform a))) a.

(** [node.transform]: the value is built from the text of the
    attribute and assigned to the property, which writes its text form
    back to the attribute. *)
Definition transform_property (node : path) : M Transform.t :=
  fun s =>
    (Ok (node_transform (default empty_node (get_node node (document s)))),
     mkState (alter_node (with_attrib reserialize) node (document s))
             (trace s ++ [MRewrite node])).

(** [Transform(node.get('transform'))]: [get] reads the property and
    returns its text form, or [None] when the value is falsy. *)
Definition get_transform (node : path) : M Transform.t :=
  value <- transform_property node ;;
  ret (default Transform.identity (shown value)).

(** [node.set('transform', T)]. *)
Definition set_transform (node : path) (T : Transform.t) : M unit :=
  node_set node "transform" (put_transform (shown T)).

(** [node.composed_transform()]: the ancestors are read first, from
    the root down, then the node. *)
Fixpoint composed_from (done rest : path) (acc : Transform.t) : M Transform.t :=
  match rest with
  | [] => ret acc
  | i :: rest' =>
      own <- transform_property (done ++ [i]) ;;
      composed_from (done ++ [i]) rest' (Transform.matmul acc own)
  end.

Definition call_composed_transform (node : path) : M Transform.t :=
  own <- transform_property [] ;;
  composed_from [] node own.

(** *** Elements *)

(** The node an element wraps, as it is in the document now. *)
Definition element_node (root : Node) (element : Element) : Node :=
  default empty_node (get_node (el_node element) root).

(** [element.to_stitch_groups(last_patch)]. *)
Definition call_to_stitch_groups (root : Node) (element : Element)
    (last_patch : option StitchGroup) : result (list StitchGroup) :=
  element_to_stitch_groups (el_kind element) (element_node root element)
    (composed_transform root (el_node element)) last_patch.

(** [element.get_cache_key(previous_stitch)]. *)
Definition call_get_cache_key (root : Node) (previous_stitch : option Stitch)
    (element : Element) : CacheKey :=
  element_get_cache_key (el_kind element) (element_node root element)
    (composed_transform root (el_node element)) previous_stitch.

(** [node_to_elements(node, True)] for the node at [p]. *)
Definition elements_of (p : path) (n : Node) : list Element :=
  map (fun k => mkElement _ k p) (node_to_elements n).

(** *** [clone.py] *)

(** [get_clone_source] (lines 177-178): [node.href].  Without a
    reference it is [None]; otherwise the reference is looked up from
    [node.root], which raises [FragmentError] when the topmost ancestor
    is not the document element, and the lookup gives [None] when the
    reference names no node. *)
Definition get_clone_source (root : Node) (node : path) : result (option path) :=
  match get_node node root with
  | Some n =>
      match a_href (attrib n) with
      | Some sp =>
          if String.eqb (tag root) SVG_DOCUMENT_TAG
          then Ok (match get_node sp root with Some _ => Some sp | None => None end)
          else Raise FragmentError
      | None => Ok None
      end
  | None => Ok None
  end.

(** [node.tag]; on [None] an [AttributeError]. *)
Definition node_tag (root : Node) (node : option path) : result string :=
  match node with
  | Some p =>
      match get_node p root with
      | Some n => Ok (tag n)
      | None => Raise AttributeError
      end
  | None => Raise AttributeError
  end.

(** Modelled from the spec: the parameter readers of
    [lib/elements/element.py] ([get_float_param], [get_boolean_param]),
    which source [clone_fill_angle] (optional float, default unset) and
    [flip_angle] (boolean, default false) from the attributes of the
    clone's node; a text that [float] rejects leaves the angle unset. *)
Definition clone_fill_angle (root : Node) (self : path) : option pyfloat :=
  match get_node self root with
  | Some n =>
      match a_angle (attrib n) with
      | Some v =>
          match float_of_text v with
          | Ok x => Some x
          | Raise _ => None
          end
      | None => None
      end
  | None => None
  end.

Definition flip_angle (root : Node) (self : path) : bool :=
  match get_node self root with
  | Some n => default false (a_flip_angle (attrib n))
  | None => false
  end.

(** [clone_to_elements] (lines 72-80). *)
Definition clone_to_elements (root : Node) (node : option path)
    : result (list Element) :=
  match node with
  | None => Raise AttributeError
  | Some p =>
      match get_node p root with
      | None => Raise AttributeError
      | Some n =>
          if tag_in (tag n) EMBROIDERABLE_TAGS then Ok (elements_of p n)
          else if String.eqb (tag n) SVG_GROUP_TAG then
            Ok (flat_map (fun qc => elements_of (p ++ fst qc) (snd qc))
                         (iterdescendants n))
          else Ok []
      end
  end.

(** [get_cache_key_data] (lines 67-70). *)
Definition get_cache_key_data (self : path) (previous_stitch : option Stitch)
    : M (list CacheKey) :=
  source_node <- reads (fun root => get_clone_source root self) ;;
  source_elements <- reads (fun root => clone_to_elements root source_node) ;;
  root <- gets (fun root => root) ;;
  ret (map (call_get_cache_key root previous_stitch) source_elements).

(** Lines 124-125: the angle transform, from the two composed
    transforms. *)
Definition angle_transform_of (source_transform cloned_transform : Transform.t)
    : result Transform.t :=
  match Transform.neg source_transform with
  | Raise e => Raise e
  | Ok minus_source =>
      Ok (Transform.strip_translation (Transform.matmul cloned_transform minus_source))
  end.

(** Lines 122-125: the angle transform of the derived mode. *)
Definition angle_transform (source_node cloned_node : path) : M Transform.t :=
  source_transform <- call_composed_transform source_node ;;
  cloned_transform <- call_composed_transform cloned_node ;;
  reads (fun _ => angle_transform_of source_transform cloned_transform).

(** [float(element.node.get(INKSTITCH_ATTRIBS['angle'], 0))] (line 133). *)
Definition float_of_angle (v : option attr_text) : result pyfloat :=
  match v with
  | None => Ok (Finite 0)
  | Some text => float_of_text text
  end.

(** Lines 135-137 for a finite angle.  The text built at line 135 is
    [rotate($x)] with [x] the negated angle; the number reader of
    [inkex] skips the dollar sign. *)
Definition derived_angle (angle_transform : Transform.t) (element_angle : R)
    : result R :=
  let fill_vector :=
    Transform.apply_to_point
      (Transform.matmul angle_transform (Transform.rotate (- element_angle)))
      (1%R, 0%R) in
  match Transform.degrees_of_angle fill_vector with
  | Ok dg => Ok (- dg)%R
  | Raise e => Raise e
  end.

(** Lines 135-137.  For [nan] and the infinities the text built at
    line 135 holds no number, and [rotate] without its argument is a
    [TypeError]. *)
Definition derived_angle_float (angle_transform : Transform.t) (element_angle : pyfloat)
    : result pyfloat :=
  match element_angle with
  | Finite a =>
      match derived_angle angle_transform a with
      | Ok x => Ok (Finite x)
      | Raise e => Raise e
      end
  | NonFinite _ => Raise TypeError
  end.

(** Lines 132-139: the angle of one element before the flip.  In the
    override mode [angle_transform] is unbound in the source and is
    not read. *)
Definition element_angle_of (root : Node) (clone_fill_angle : option pyfloat)
    (angle_transform : Transform.t) (element : Element) : result pyfloat :=
  match clone_fill_angle with
  | None =>
      match float_of_angle (a_angle (attrib (element_node root element))) with
      | Ok element_angle => derived_angle_float angle_transform element_angle
      | Raise e => Raise e
      end
  | Some v => Ok v
  end.

(** Lines 141-142. *)
Definition apply_flip (flip : bool) (element_angle : pyfloat) : pyfloat :=
  if flip then float_neg element_angle else element_angle.

Definition ANGLE : string := "inkstitch:angle".

(** One turn of the loop of lines 128-144. *)
Definition assign_angle (clone_fill_angle : option pyfloat) (flip : bool)
    (angle_transform : Transform.t) (element : Element) : M unit :=
  element_angle <-
    reads (fun root => element_angle_of root clone_fill_angle angle_transform element) ;;
  node_set (el_node element) ANGLE
    (set_angle (text_of_float (apply_flip flip element_angle))).

(** The caller's block under [with self.clone_elements() as elements]:
    it reads the document and returns or raises. *)
Definition run_body {B} (body : list Element → Node → result B)
    (elements : list Element) : M B :=
  reads (body elements).

(** Lines 118-144: what runs inside the [try] before the [yield]. *)
Definition clone_elements_setup (self source_node cloned_node : path)
    : M (list Element) :=
  own <- get_transform self ;;
  copied <- get_transform cloned_node ;;
  set_transform cloned_node (Transform.matmul own copied) ;;;
  cfa <- gets (fun root => clone_fill_angle root self) ;;
  at_ <- match cfa with
         | None => angle_transform source_node cloned_node
         | Some _ => ret Transform.identity
         end ;;
  elements <- reads (fun root => clone_to_elements root (Some cloned_node)) ;;
  flip <- gets (fun root => flip_angle root self) ;;
  for_each (assign_angle cfa flip at_) elements ;;;
  ret elements.

(** Lines 127-146 on their own: what is left of the setup once the
    mode and the angle transform are known. *)
Definition yield_from (self cloned_node : path) (cfa : option pyfloat)
    (at_ : Transform.t) : M (list Element) :=
  elements <- reads (fun root => clone_to_elements root (Some cloned_node)) ;;
  flip <- gets (fun root => flip_angle root self) ;;
  for_each (assign_angle cfa flip at_) elements ;;;
  ret elements.

(** [clone_elements] (lines 94-149), together with the [with] block
    that consumes it: the context manager yields once, the block runs
    at the [yield], and an exception of the block is raised there. *)
Definition clone_elements {B} (self : path)
    (body : list Element → Node → result B) : M B :=
  source_node <- reads (fun root => get_clone_source root self) ;;
  source_tag <- reads (fun root => node_tag root source_node) ;;
  if negb (tag_in source_tag EMBROIDERABLE_TAGS)
     && negb (String.eqb source_tag SVG_GROUP_TAG)
  then run_body body []
  else
    source_node <- reads (fun root => get_clone_source root self) ;;
    match source_node with
    | None => raise AttributeError
    | Some sp =>
        copy <- gets (fun root => default empty_node (get_node sp root)) ;;
        cloned_node <- node_add (getparent self) copy ;;
        try_finally
          (elements <- clone_elements_setup self sp cloned_node ;;
           run_body body elements)
          (node_remove cloned_node)
    end.

(** The loop of [to_stitch_groups] (lines 84-92). *)
Fixpoint stitch_loop (root : Node) (elements : list Element)
    (last_patch : option StitchGroup) (patches : list StitchGroup)
    : result (list StitchGroup) :=
  match elements with
  | [] => Ok patches
  | element :: rest =>
      match call_to_stitch_groups root element last_patch with
      | Raise e => Raise e
      | Ok stitch_groups =>
          match last stitch_groups with
          | Some g => stitch_loop root rest (Some g) (patches ++ stitch_groups)
          | None => stitch_loop root rest last_patch patches
          end
      end
  end.

(** [to_stitch_groups] (lines 82-92). *)
Definition to_stitch_groups (self : path) (last_patch : option StitchGroup)
    : M (list StitchGroup) :=
  clone_elements self (fun elements root => stitch_loop root elements last_patch []).

(** *** Notions that depend on the text form *)

(** The document after the transforms of the nodes at [qs] have been
    read, in that order. *)
Definition reserialize_at (qs : list path) (d : Node) : Node :=
  foldl (fun d q => alter_node (with_attrib reserialize) q d) d qs.

(** The transform attribute after [n] reads. *)
Definition reread (n : nat) (o : option Transform.t) : option Transform.t :=
  Nat.iter n (fun o => shown (default Transform.identity o)) o.

(** A transform attribute that a read leaves as it is. *)
Definition prints_exactly (o : option Transform.t) : Prop :=
  shown (default Transform.identity o) = o.

(** A document none of whose transform attributes is changed by a read. *)
Definition stable (d : Node) : Prop :=
  ∀ p x, get_node p d = Some x → prints_exactly (a_transform (attrib x)).

(** A transform that is read back as it was set. *)
Definition round_trips (A : Transform.t) : Prop :=
  default Transform.identity (shown A) = A.
End Clone.

(** ** Notions used to state the properties *)

(** The number of nodes of a document. *)
Fixpoint node_count (n : Node) : nat :=
  S (list_sum (map node_count (children n))).

(** The document without its [transform] attributes: its structure,
    its tags and every other attribute. *)
Fixpoint without_transforms (n : Node) : Node :=
  mkNode (tag n) (put_transform None (attrib n)) (map without_transforms (children n)).

Definition is_remove (m : Mutation) : bool :=
  match m with MRemove _ => true | _ => false end.

Definition is_add (m : Mutation) : bool :=
  match m with MAdd _ => true | _ => false end.

(** A mutation that writes an attribute of a node at or below [cp]. *)
Definition sets_below (cp : path) (m : Mutation) : Prop :=
  ∃ q name, m = MSet (cp ++ q) name.

(** The mutations made while a duplicate stands at [cp]: attribute
    writes at or below [cp], and [transform] attributes written back by
    a read. *)
Definition scope_mutation (cp : path) (m : Mutation) : Prop :=
  sets_below cp m ∨ ∃ q, m = MRewrite q.

(** The nodes whose [transform] was read, in the order of the reads. *)
Definition rewritten (ms : list Mutation) : list path :=
  flat_map (fun m => match m with MRewrite q => [q] | _ => [] end) ms.

(** Neither position is at or above the other. *)
Definition incomparable (p q : path) : Prop :=
  ¬ p `prefix_of` q ∧ ¬ q `prefix_of` p.

(** The node reached from [p] after following [k] references. *)
Fixpoint source_after (k : nat) (root : Node) (p : path) : option path :=
  match k with
  | O => Some p
  | S k' =>
      match get_clone_source root p with
      | Ok (Some sp) => source_after k' root sp
      | _ => None
      end
  end.



(** The stitch group pipeline as the specification words it: each
    drawable is invoked with the current context; its groups are
    appended in order and, when there are any, the last one becomes the
    context of the drawables that follow. *)
Fixpoint pipeline_spec {D G : Type} (produce : D → option G → result (list G))
    (drawables : list D) (context : option G) : result (list G) :=
  match drawables with
  | [] => Ok []
  | d :: rest =>
      match produce d context with
      | Raise e => Raise e
      | Ok groups =>
          let context' :=
            match groups with
            | [] => context
            | _ :: _ => last groups
            end in
          match pipeline_spec produce rest context' with
          | Ok out => Ok (groups ++ out)
          | Raise e => Raise e
          end
      end
  end.

(** The document with one more last child under [pp]. *)
Definition append_child (c : Node) : Node → Node :=
  with_children (fun cs => cs ++ [c]).

(** The state at the [try]: the duplicate [copy] has just been added
    under [pp], at the position [cp]. *)
Definition entered (root : Node) (pp cp : path) (copy : Node)
    (t0 : list Mutation) : State :=
  mkState (alter_node (append_child copy) pp root) (t0 ++ [MAdd cp]).

(** While a clone under [pp] is materialized, the duplicate standing
    at [cp], the mutations made since the [try] are those of the scope
    and the document is the original one, with the transforms that were
    read written back, plus a last child of [pp]. *)
Definition in_scope `{Collaborators} (root : Node) (pp cp : path)
    (t1 : list Mutation) (s : State) : Prop :=
  ∃ c sets,
    trace s = t1 ++ sets
    ∧ Forall (scope_mutation cp) sets
    ∧ document s = alter_node (append_child c) pp (reserialize_at (rewritten sets) root).

Definition keeps_scope `{Collaborators} {A} (root : Node) (pp cp : path)
    (t1 : list Mutation) (m : M A) : Prop :=
  ∀ s, in_scope root pp cp t1 s → in_scope root pp cp t1 (snd (m s)).

(** The node at [p] carries the text [v] as its fill angle. *)
Definition carries (v : attr_text) (d : Node) (p : path) : Prop :=
  ∃ x, get_node p d = Some x ∧ a_angle (attrib x) = Some v.

(** The node at [p] carries the fill angle [w]. *)
Definition has_angle (w : R) (d : Node) (p : path) : Prop :=
  carries (NumText w) d p.

(** A source that [clone_elements] materializes. *)
Definition eligible (tg : string) : bool :=
  tag_in tg EMBROIDERABLE_TAGS || String.eqb tg SVG_GROUP_TAG.

(** ** Example documents and collaborators *)

Inductive ElementClass : Type := FillStitch | Stroke.

(** Transforms print exactly, as those with short coefficients do.  A
    path with a fill and a stroke makes two elements on one node; a
    stroke fails to stitch with error 7 and a fill makes one group. *)
Definition example_collaborators : Collaborators := {|
  reparse A := A;
  Kind := ElementClass;
  StitchGroup := nat;
  Stitch := nat;
  CacheKey := ElementClass * option attr_text;
  node_to_elements n :=
    if String.eqb (tag n) SVG_PATH_TAG then [FillStitch; Stroke]
    else if tag_in (tag n) EMBROIDERABLE_TAGS || String.eqb (tag n) SVG_USE_TAG
         then [FillStitch]
         else [];
  element_to_stitch_groups k n t last_patch :=
    match k with
    | FillStitch => Ok [1]
    | Stroke => Raise (Failure 7)
    end;
  element_get_cache_key k n t previous_stitch := (k, a_angle (attrib n))
|}.

Definition no_attrib : Attrib := mkAttrib None None None None.

Definition shape (tag : string) (t : option Transform.t) : Node :=
  mkNode tag (mkAttrib t None None None) [].

Definition use (t : option Transform.t) (href : path) : Node :=
  mkNode SVG_USE_TAG (mkAttrib t None None (Some href)) [].

Definition group (cs : list Node) : Node := mkNode SVG_GROUP_TAG no_attrib cs.

(** The document element. *)
Definition drawing (cs : list Node) : Node := mkNode SVG_DOCUMENT_TAG no_attrib cs.

(** A path scaled by 2 and a clone of it moved by 5 to the right. *)
Definition doc_scaled : Node :=
  drawing [ shape SVG_PATH_TAG (Some (Transform.scale 2 2));
            use (Some (Transform.translate 5 0)) [0] ].

(** The same document while the clone at [[1]] is materialized: the
    duplicate is the last child, with the product of the two transforms. *)
Definition doc_scaled_during : Node :=
  drawing [ shape SVG_PATH_TAG (Some (Transform.scale 2 2));
            use (Some (Transform.translate 5 0)) [0];
            shape SVG_PATH_TAG
              (Some (Transform.matmul (Transform.translate 5 0) (Transform.scale 2 2))) ].

(** A path and a clone of it turned by a quarter of a turn. *)
Definition quarter_turn : Transform.t := Transform.mk 0 1 (-1) 0 0 0.

Definition doc_turned : Node :=
  drawing [ shape SVG_PATH_TAG None; use (Some quarter_turn) [0] ].

(** The same document while the clone at [[1]] is materialized. *)
Definition doc_turned_during : Node :=
  drawing [ shape SVG_PATH_TAG None; use (Some quarter_turn) [0];
            shape SVG_PATH_TAG (Some quarter_turn) ].

(** A block that reports, for every element it is given, the node the
    element wraps and the fill angle that node carries. *)
Definition report_angles `{Collaborators} (elements : list Element) (root : Node)
    : result (list (path * option attr_text)) :=
  Ok (map (fun element => (el_node element, a_angle (attrib (element_node root element))))
          elements).

(** A rectangle, which makes one element, and the same clone. *)
Definition doc_turned_rect : Node :=
  drawing [ shape SVG_RECT_TAG None; use (Some quarter_turn) [0] ].

Definition doc_turned_rect_during : Node :=
  drawing [ shape SVG_RECT_TAG None; use (Some quarter_turn) [0];
            shape SVG_RECT_TAG (Some quarter_turn) ].

(** A rectangle and a clone of it with the angle parameter 45 and the
    flip parameter set. *)
Definition doc_override : Node :=
  drawing [ shape SVG_RECT_TAG None;
            mkNode SVG_USE_TAG
              (mkAttrib None (Some (NumText 45)) (Some true) (Some [0])) [] ].

(** A path with a fill and a stroke, and a clone of it with the angle
    parameter 45 and the flip parameter set. *)
Definition doc_override_path : Node :=
  drawing [ shape SVG_PATH_TAG None;
            mkNode SVG_USE_TAG
              (mkAttrib None (Some (NumText 45)) (Some true) (Some [0])) [] ].

(** Two clones that reference each other. *)
Definition doc_cycle : Node :=
  drawing [ use None [1]; use None [0] ].

(** A clone of a text node. *)
Definition doc_text : Node :=
  drawing [ shape SVG_TEXT_TAG None; use None [0] ].

(** A clone placed inside the group it references. *)
Definition doc_inside : Node :=
  drawing [ group [ shape SVG_RECT_TAG None; use None [0] ] ].

(** The same document with the angle parameter 45 on the clone. *)
Definition doc_inside_angled : Node :=
  alter_node (with_attrib (set_angle (NumText 45))) [0; 1] doc_inside.

(** A clone of a path that lies in another group. *)
Definition doc_apart : Node :=
  drawing [ group [ shape SVG_PATH_TAG None ]; group [ use None [0; 0] ] ].

(** A change of the transform, angle and flip parameters of a clone. *)
Definition change_parameters (a : Attrib) : Attrib :=
  set_flip_angle (Some true)
    (set_angle (NumText 45) (put_transform (Some (Transform.translate 5 0)) a)).

Definition doc_apart_changed : Node :=
  alter_node (with_attrib change_parameters) [1; 0] doc_apart.

(** A clone whose reference names no node of the document. *)
Definition doc_broken : Node := drawing [ use None [5] ].

(** A tree whose topmost node is a clone of its own child. *)
Definition doc_root_clone : Node :=
  mkNode SVG_USE_TAG (mkAttrib None None None (Some [0])) [ shape SVG_PATH_TAG None ].

(** A path whose angle attribute is the text [auto], and a clone of it. *)
Definition doc_junk : Node :=
  drawing [ mkNode SVG_PATH_TAG (mkAttrib None (Some (OtherText "auto")) None None) [];
            use None [0] ].

(** A path whose angle attribute is the text [nan], and a clone of it. *)
Definition doc_nan : Node :=
  drawing [ mkNode SVG_PATH_TAG (mkAttrib None (Some (NonFiniteText Nan)) None None) [];
            use None [0] ].

(** A path squashed by a null scale, and a clone of it. *)
Definition doc_singular : Node :=
  drawing [ shape SVG_PATH_TAG (Some (Transform.scale 0 0)); use None [0] ].

(** A rectangle and a clone of it without a transform. *)
Definition doc_plain : Node :=
  drawing [ shape SVG_RECT_TAG None; use None [0] ].

(** A rectangle and a clone of it that spells the identity out, as in
    [transform="translate(0,0)"], with the angle parameter 45. *)
Definition doc_spelled : Node :=
  drawing [ shape SVG_RECT_TAG None;
            mkNode SVG_USE_TAG
              (mkAttrib (Some Transform.identity) (Some (NumText 45)) None (Some [0])) [] ].

(** The same document without the [transform] attribute of the clone. *)
Definition doc_spelled_after : Node :=
  drawing [ shape SVG_RECT_TAG None;
            mkNode SVG_USE_TAG (mkAttrib None (Some (NumText 45)) None (Some [0])) [] ].

(** ** Verification *)

(** *** The transform algebra *)

Module TransformFacts.
Import Transform.
Local Open Scope R_scope.

Lemma eq_mk (a1 b1 c1 d1 e1 f1 a2 b2 c2 d2 e2 f2 : R) :
  a1 = a2 → b1 = b2 → c1 = c2 → d1 = d2 → e1 = e2 → f1 = f2 →
  mk a1 b1 c1 d1 e1 f1 = mk a2 b2 c2 d2 e2 f2.
Proof. intros; subst; reflexivity. Qed.

Lemma matmul_assoc (A B C : t) :
  matmul (matmul A B) C = matmul A (matmul B C).
Proof. destruct A, B, C; unfold matmul; simpl; apply eq_mk; ring. Qed.

Lemma matmul_identity_l (A : t) : matmul identity A = A.
Proof. destruct A; unfold matmul, identity; simpl; apply eq_mk; ring. Qed.

Lemma matmul_identity_r (A : t) : matmul A identity = A.
Proof. destruct A; unfold matmul, identity; simpl; apply eq_mk; ring. Qed.

Lemma matmul_inverse_r (A : t) : det A ≠ 0 → matmul A (inverse A) = identity.
Proof.
  destruct A as [a0 b0 c0 d0 e0 f0]; unfold matmul, inverse, identity, det; simpl.
  intros Hd; apply eq_mk; field; exact Hd.
Qed.


Lemma neg_ok (A : t) : det A ≠ 0 → neg A = Ok (inverse A).
Proof. intros Hd; unfold neg; destruct (Req_dec_T (det A) 0); [contradiction | reflexivity]. Qed.

Lemma neg_singular (A : t) : det A = 0 → neg A = Raise ZeroDivisionError.
Proof. intros Hd; unfold neg; destruct (Req_dec_T (det A) 0); [reflexivity | contradiction]. Qed.


Lemma radians_degrees (x : R) : degrees (radians x) = x.
Proof. unfold degrees, radians; field; apply PI_neq0. Qed.

Lemma cos_sin_not_both_0 (x : R) : ¬ (cos x = 0 ∧ sin x = 0).
Proof.
  intros [Hc Hs]; generalize (sin2_cos2 x); unfold Rsqr; rewrite Hc, Hs; lra.
Qed.

Lemma cos_pos_range (r : R) :
  - PI < r <= PI → 0 < cos r → - (PI / 2) < r < PI / 2.
Proof.
  intros [Hlo Hhi] Hc; split.
  - destruct (Rlt_dec (- (PI / 2)) r) as [|Hn]; [assumption | exfalso].
    assert (Hle : cos (- r) <= 0) by (apply cos_le_0; lra).
    rewrite cos_neg in Hle; lra.
  - destruct (Rlt_dec r (PI / 2)) as [|Hn]; [assumption | exfalso].
    assert (Hle : cos r <= 0) by (apply cos_le_0; lra).
    lra.
Qed.

Lemma atan_tan_shift (r s : R) :
  - (PI / 2) < s < PI / 2 → sin r / cos r = sin s / cos s → atan (sin r / cos r) = s.
Proof. intros Hs ->; apply (atan_tan s Hs). Qed.

(** [atan2] inverts the polar coordinates on [(-PI, PI]]. *)
Lemma atan2_sin_cos (r : R) : - PI < r <= PI → atan2 (sin r) (cos r) = r.
Proof.
  intros [Hlo Hhi]; pose proof PI_RGT_0 as Hpi; unfold atan2.
  destruct (Rlt_dec 0 (cos r)) as [Hc | Hc].
  - apply atan_tan_shift; [apply cos_pos_range; auto | reflexivity].
  - destruct (Rlt_dec (cos r) 0) as [Hc' | Hc'].
    + assert (Hout : r < - (PI / 2) ∨ PI / 2 < r).
      { destruct (Rlt_dec r (- (PI / 2))); [left; assumption |].
        destruct (Rlt_dec (PI / 2) r); [right; assumption |].
        exfalso; assert (0 <= cos r) by (apply cos_ge_0; lra); lra. }
      destruct (Rle_dec 0 (sin r)) as [Hs | Hs].
      * assert (Hr : PI / 2 < r).
        { destruct Hout as [Hl | Hr]; [exfalso | assumption].
          assert (sin r < 0) by (apply sin_lt_0_var; lra); lra. }
        assert (Heq : atan (sin r / cos r) = r - PI).
        { apply atan_tan_shift; [lra |].
          replace r with ((r - PI) + PI) at 1 2 by ring.
          rewrite neg_sin, neg_cos; field.
          replace r with ((r - PI) + PI) in Hc' by ring.
          rewrite neg_cos in Hc'; lra. }
        rewrite Heq; ring.
      * assert (Hl : r < - (PI / 2)).
        { destruct Hout as [Hl | Hr]; [assumption | exfalso].
          assert (0 <= sin r) by (apply sin_ge_0; lra); lra. }
        assert (Heq : atan (sin r / cos r) = r + PI).
        { apply atan_tan_shift; [lra |].
          rewrite neg_sin, neg_cos; field; lra. }
        rewrite Heq; ring.
    + assert (Hz : cos r = 0) by lra.
      assert (Hr : r = PI / 2 ∨ r = - (PI / 2)).
      { destruct (Rlt_dec r (- (PI / 2))) as [Hl | Hl].
        - exfalso; assert (cos (- r) < 0) by (apply cos_lt_0; lra).
          rewrite cos_neg in *; lra.
        - destruct (Rlt_dec (PI / 2) r) as [Hg | Hg].
          + exfalso; assert (cos r < 0) by (apply cos_lt_0; lra); lra.
          + destruct (Req_dec_T r (PI / 2)); [left; assumption |].
            destruct (Req_dec_T r (- (PI / 2))); [right; assumption |].
            exfalso; assert (0 < cos r) by (apply cos_gt_0; lra); lra. }
      destruct Hr as [-> | ->].
      * rewrite sin_PI2.
        destruct (Rlt_dec 0 1); [reflexivity | lra].
      * rewrite sin_neg, sin_PI2.
        destruct (Rlt_dec 0 _); [lra |].
        destruct (Rlt_dec _ 0); [reflexivity | lra].
Qed.

Lemma sin_cos_period_Z (x : R) (k : Z) :
  sin (x + 2 * IZR k * PI) = sin x ∧ cos (x + 2 * IZR k * PI) = cos x.
Proof.
  destruct (Z_le_gt_dec 0 k) as [Hk | Hk].
  - rewrite <- (Z2Nat.id k Hk), <- INR_IZR_INZ.
    split; [apply sin_period | apply cos_period].
  - assert (Hn : (0 <= - k)%Z) by lia.
    pose proof (sin_period (x + 2 * IZR k * PI) (Z.to_nat (- k))) as Hs.
    pose proof (cos_period (x + 2 * IZR k * PI) (Z.to_nat (- k))) as Hc.
    rewrite INR_IZR_INZ, (Z2Nat.id _ Hn), opp_IZR in Hs, Hc.
    replace (x + 2 * IZR k * PI + 2 * - IZR k * PI) with x in Hs, Hc by ring.
    split; symmetry; assumption.
Qed.

Lemma normalise_exists (θ : R) : ∃ k : Z, -180 < θ + 360 * IZR k <= 180.
Proof.
  exists (up ((-180 - θ) / 360)).
  destruct (archimed ((-180 - θ) / 360)) as [H1 H2]; lra.
Qed.

Lemma apply_rotate (θ : R) :
  apply_to_point (strip_translation (rotate θ)) (1, 0)
  = (cos (radians θ), sin (radians θ)).
Proof. unfold apply_to_point, strip_translation, rotate; simpl; f_equal; ring. Qed.

Lemma vector_angle_unit (r : R) :
  vector_angle (cos r, sin r) = Some (atan2 (sin r) (cos r)).
Proof.
  unfold vector_angle; simpl.
  destruct (Req_dec_T (cos r) 0) as [Hc |]; [| reflexivity].
  destruct (Req_dec_T (sin r) 0) as [Hs |]; [| reflexivity].
  exfalso; apply (cos_sin_not_both_0 r); auto.
Qed.

Lemma rotate_not_flipped (θ : R) :
  is_transform_flipped (strip_translation (rotate θ)) = false.
Proof.
  unfold is_transform_flipped, strip_translation, rotate; simpl.
  destruct (Rlt_dec _ _) as [Hlt |]; [exfalso | reflexivity].
  generalize (sin2_cos2 (radians θ)); unfold Rsqr; nra.
Qed.

Lemma angle_of_rotation (θ : R) (k : Z) :
  -180 < θ + 360 * IZR k <= 180 →
  angle_for_transform (rotate θ) = Ok (θ + 360 * IZR k).
Proof.
  intros Hrange; pose proof PI_RGT_0 as Hpi.
  unfold angle_for_transform; rewrite rotate_not_flipped, apply_rotate.
  unfold degrees_of_angle; rewrite vector_angle_unit.
  destruct (sin_cos_period_Z (radians θ) k) as [Hs Hc].
  rewrite <- Hs, <- Hc.
  replace (radians θ + 2 * IZR k * PI) with (radians (θ + 360 * IZR k))
    by (unfold radians; field).
  rewrite atan2_sin_cos, radians_degrees; [reflexivity |].
  unfold radians; destruct Hrange; split; nra.
Qed.
End TransformFacts.

(** *** [angle_for_transform] *)

Lemma angle_for_transform_identity :
  angle_for_transform Transform.identity = Ok 0%R.
Proof.
  unfold angle_for_transform, is_transform_flipped, Transform.strip_translation,
    Transform.identity; simpl.
  destruct (Rlt_dec _ _) as [Hlt |]; [exfalso; lra |].
  unfold Transform.degrees_of_angle, Transform.vector_angle, Transform.apply_to_point; simpl.
  destruct (Req_dec_T _ 0) as [Hz |]; [exfalso; lra |].
  unfold Transform.atan2.
  destruct (Rlt_dec 0 _) as [| Hn]; [| exfalso; lra].
  replace ((0 * 1 + 1 * 0 + 0) / (1 * 1 + 0 * 0 + 0))%R with 0%R by (field; lra).
  rewrite atan_0; unfold Transform.degrees; f_equal; field; apply PI_neq0.
Qed.

(** C9: [angle_for_transform] returns 0 for the identity transform, and
    for the rotation by any angle θ (in degrees) it returns θ brought
    into the range (-180, 180] by a whole number of turns. *)
Theorem angle_for_transform_rotation :
  angle_for_transform Transform.identity = Ok 0%R ∧
  ∀ θ : R, ∃ k : Z,
    (-180 < θ + 360 * IZR k <= 180)%R ∧
    angle_for_transform (Transform.rotate θ) = Ok (θ + 360 * IZR k)%R.
Proof.
  split; [apply angle_for_transform_identity |].
  intros θ; destruct (TransformFacts.normalise_exists θ) as [k Hk].
  exists k; split; [exact Hk | apply TransformFacts.angle_of_rotation; exact Hk].
Qed.

(** *** The text form of a transform *)

Lemma within_tolerance_refl (x : R) : Transform.within_tolerance x x = true.
Proof.
  unfold Transform.within_tolerance, Transform.absolute_tolerance.
  destruct (Rle_dec _ _) as [| Hn]; [reflexivity | exfalso; apply Hn].
  replace (x - x)%R with 0%R by ring; rewrite Rabs_R0; lra.
Qed.

Lemma within_tolerance_far (x y : R) :
  (1 / 100000 < x - y ∨ 1 / 100000 < y - x)%R →
  Transform.within_tolerance x y = false.
Proof.
  intros Hfar; unfold Transform.within_tolerance, Transform.absolute_tolerance.
  destruct (Rle_dec _ _) as [Hle |]; [exfalso | reflexivity].
  revert Hle; unfold Rabs; destruct (Rcase_abs _); lra.
Qed.

Lemma truthy_identity : Transform.truthy Transform.identity = false.
Proof.
  unfold Transform.truthy, Transform.equal; rewrite !within_tolerance_refl; reflexivity.
Qed.

(** A transform one of whose linear coefficients is far from the
    identity's is truthy. *)
Lemma truthy_far_a (A : Transform.t) :
  (1 / 100000 < Transform.a A - 1 ∨ 1 / 100000 < 1 - Transform.a A)%R →
  Transform.truthy A = true.
Proof.
  intros Hfar; unfold Transform.truthy, Transform.equal.
  rewrite (within_tolerance_far (Transform.a A) (Transform.a Transform.identity)) by exact Hfar.
  reflexivity.
Qed.

Lemma truthy_far_e (A : Transform.t) :
  (1 / 100000 < Transform.e A ∨ 1 / 100000 < - Transform.e A)%R →
  Transform.truthy A = true.
Proof.
  intros Hfar; unfold Transform.truthy, Transform.equal.
  rewrite (within_tolerance_far (Transform.e A) (Transform.e Transform.identity))
    by (simpl; lra).
  repeat (destruct (Transform.within_tolerance _ _); try reflexivity).
Qed.

Section TextForm.
Context `{Collaborators}.

Lemma shown_identity : shown Transform.identity = None.
Proof. unfold shown; rewrite truthy_identity; reflexivity. Qed.

Lemma prints_exactly_None : prints_exactly None.
Proof. exact shown_identity. Qed.

(** An attribute that prints exactly is read back as it is, by
    [node.transform] and by [node.get('transform')] alike. *)
Lemma prints_exactly_got (o : option Transform.t) :
  prints_exactly o →
  default Transform.identity (shown (default Transform.identity o))
  = default Transform.identity o.
Proof. intros Ho; rewrite Ho; reflexivity. Qed.

Lemma reserialize_exact (a : Attrib) :
  prints_exactly (a_transform a) → reserialize a = a.
Proof. intros Ha; destruct a; unfold reserialize, put_transform; simpl in *; rewrite Ha; reflexivity. Qed.
End TextForm.

(** *** Reading and updating the tree *)

Lemma Node_forall_ind (P : Node → Prop) :
  (∀ t a cs, Forall P cs → P (mkNode t a cs)) → ∀ n, P n.
Proof.
  intros step; fix rec 1; intros [t a cs]; apply step.
  induction cs as [| c cs IH]; constructor; [apply rec | exact IH].
Qed.

Lemma get_node_app (p q : path) (n : Node) :
  get_node (p ++ q) n
  = match get_node p n with Some x => get_node q x | None => None end.
Proof.
  revert n; induction p as [| i p IH]; intros n; simpl; [reflexivity |].
  destruct (children n !! i); [apply IH | reflexivity].
Qed.

Lemma alter_node_app (g : Node → Node) (p q : path) (n : Node) :
  alter_node g (p ++ q) n = alter_node (alter_node g q) p n.
Proof.
  revert n; induction p as [| i p IH]; intros n; simpl; [reflexivity |].
  unfold with_children; f_equal; apply list_alter_ext; auto.
Qed.

Lemma alter_node_ext_at (g h : Node → Node) (p : path) (n x : Node) :
  get_node p n = Some x → g x = h x → alter_node g p n = alter_node h p n.
Proof.
  revert n; induction p as [| i p IH]; intros n; simpl.
  - intros [= ->]; auto.
  - destruct (children n !! i) as [c |] eqn:Hc; [| discriminate].
    intros Hx Hg; unfold with_children; f_equal.
    apply list_alter_ext; [| reflexivity].
    intros y Hy; rewrite Hc in Hy; injection Hy as <-; auto.
Qed.

Lemma alter_node_compose (g h : Node → Node) (p : path) (n : Node) :
  alter_node g p (alter_node h p n) = alter_node (fun x => g (h x)) p n.
Proof.
  revert n; induction p as [| i p IH]; intros n; simpl; [reflexivity |].
  unfold with_children; simpl; f_equal.
  rewrite list_alter_alter_eq; apply list_alter_ext; [| reflexivity].
  intros x _; apply IH.
Qed.

Lemma alter_node_id_at (g : Node → Node) (p : path) (n x : Node) :
  get_node p n = Some x → g x = x → alter_node g p n = n.
Proof.
  revert n; induction p as [| i p IH]; intros n; simpl.
  - intros [= ->]; auto.
  - destruct (children n !! i) as [c |] eqn:Hc; [| discriminate].
    intros Hx Hg; destruct n as [t a cs]; unfold with_children; simpl in *; f_equal.
    transitivity (alter (fun y => y) i cs); [| apply list_alter_id; auto].
    apply list_alter_ext; [| reflexivity].
    intros y Hy; rewrite Hc in Hy; injection Hy as <-; eauto.
Qed.

Lemma get_node_alter_same (g : Node → Node) (p : path) (n : Node) :
  get_node p (alter_node g p n) = g <$> get_node p n.
Proof.
  revert n; induction p as [| i p IH]; intros n; simpl; [reflexivity |].
  rewrite list_lookup_alter_eq.
  destruct (children n !! i); simpl; [apply IH | reflexivity].
Qed.

Lemma split_last_snoc (pp : path) (k : nat) : split_last (pp ++ [k]) = Some (pp, k).
Proof.
  induction pp as [| i pp IH]; simpl; [reflexivity |].
  rewrite IH; destruct (pp ++ [k]) eqn:Hp; [destruct pp; discriminate | reflexivity].
Qed.

Lemma getparent_valid (self pp : path) (root x : Node) :
  get_node self root = Some x → getparent self = Some pp →
  ∃ pn, get_node pp root = Some pn.
Proof.
  revert pp root; induction self as [| i self IH]; intros pp root; simpl; [discriminate |].
  destruct (children root !! i) as [c |] eqn:Hc; [| discriminate].
  intros Hx; destruct self as [| j self'].
  - intros [= <-]; simpl; eauto.
  - destruct (getparent (j :: self')) as [pp' |] eqn:Hp; [| discriminate].
    intros [= <-]; simpl; rewrite Hc; eapply IH; eauto.
Qed.

(** Every position produced by [iterdescendants] is the position of
    the node it comes with. *)
Lemma iterdescendants_valid (n : Node) :
  Forall (fun qc => get_node (fst qc) n = Some (snd qc)) (iterdescendants n).
Proof.
  induction n as [t a cs IH] using Node_forall_ind.
  cut (∀ pre : list Node, Forall (fun qc => ∃ j q, fst qc = (length pre + j) :: q
                                  ∧ match cs !! j with
                                    | Some c => get_node q c = Some (snd qc)
                                    | None => False
                                    end)
          ((fix walk (cs : list Node) (i : nat) : list (path * Node) :=
              match cs with
              | [] => []
              | c :: cs' =>
                  ((([i] : path), c)
                     :: map (fun qc => ((i :: fst qc : path), snd qc)) (iterdescendants c))
                    ++ walk cs' (S i)
              end) cs (length pre))).
  { intros Hcut; specialize (Hcut []); simpl in Hcut; simpl.
    eapply Forall_impl; [exact Hcut |].
    intros [q c] (j & q' & Hq & Hc); simpl in *; subst q; simpl.
    destruct (cs !! j); [exact Hc | contradiction]. }
  induction IH as [| c cs Hc HIH IHcs]; intros pre; [constructor |].
  apply Forall_app; split.
  - constructor.
    + exists 0, []; simpl; split; [f_equal; lia | reflexivity].
    + apply Forall_map; eapply Forall_impl; [exact Hc |].
      intros [q d] Hq; simpl in *; exists 0, q; simpl; split; [f_equal; lia | exact Hq].
  - specialize (IHcs (pre ++ [c])); rewrite length_app in IHcs; simpl in IHcs.
    replace (length pre + 1) with (S (length pre)) in IHcs by lia.
    eapply Forall_impl; [exact IHcs |].
    intros [q d] (j & q' & Hq & Hd); simpl in *.
    exists (S j), q'; simpl; split; [rewrite Hq; f_equal; lia | exact Hd].
Qed.

(** The effect of one attribute write on the nodes of the document. *)
Lemma get_node_alter_attrib (g : Attrib → Attrib) (q p : path) (d y : Node) :
  get_node q d = Some y →
  ∃ y', get_node q (alter_node (with_attrib g) p d) = Some y'
        ∧ attrib y' = (if decide (q = p) then g (attrib y) else attrib y)
        ∧ tag y' = tag y
        ∧ length (children y') = length (children y).
Proof.
  revert p d; induction q as [| i q IH]; intros p d; simpl.
  - intros [= <-]; destruct p as [| j p]; simpl; eexists; (split; [reflexivity |]);
      repeat split; simpl; apply length_alter.
  - destruct (children d !! i) as [ci |] eqn:Hci; [| discriminate].
    intros Hy; destruct p as [| j p]; simpl.
    + rewrite Hci; eauto.
    + destruct (decide (j = i)) as [-> | Hne].
      * rewrite list_lookup_alter_eq, Hci; simpl.
        destruct (IH p ci Hy) as (y' & Hy' & Ha & Ht); exists y'; split; [exact Hy' |].
        split; [| exact Ht].
        rewrite Ha; destruct (decide (q = p)) as [-> | Hqp].
        -- rewrite !decide_True by reflexivity; reflexivity.
        -- rewrite !decide_False by congruence; reflexivity.
      * rewrite list_lookup_alter_ne, Hci by exact Hne.
        exists y; split; [exact Hy |].
        rewrite decide_False by congruence; auto.
Qed.

Lemma get_node_with_attrib (g : Attrib → Attrib) (q : path) (n : Node) :
  q ≠ [] → get_node q (with_attrib g n) = get_node q n.
Proof. destruct q; [congruence | reflexivity]. Qed.

Lemma composed_below_with_attrib (g : Attrib → Attrib) (q : path)
    (acc : Transform.t) (n : Node) :
  composed_below acc (with_attrib g n) q = composed_below acc n q.
Proof. destruct q; reflexivity. Qed.

(** A write that touches the [transform] attribute only leaves the
    rest of the document as it is. *)
Lemma without_transforms_alter (g : Attrib → Attrib) (p : path) (d : Node) :
  (∀ a, put_transform None (g a) = put_transform None a) →
  without_transforms (alter_node (with_attrib g) p d) = without_transforms d.
Proof.
  intros Hg; revert d; induction p as [| i p IH]; intros [t a cs]; simpl.
  - rewrite Hg; reflexivity.
  - f_equal.
    change (map without_transforms (alter (alter_node (with_attrib g) p) i cs))
      with (without_transforms <$> alter (alter_node (with_attrib g) p) i cs).
    rewrite (list_fmap_alter without_transforms _ (fun x => x)).
    + rewrite list_alter_id by reflexivity; reflexivity.
    + apply Forall_true; intros x; apply IH.
Qed.

(** *** Reading the transforms of the document *)

Section Reads.
Context `{Collaborators}.

Lemma reserialize_at_snoc (qs : list path) (q : path) (d : Node) :
  reserialize_at (qs ++ [q]) d
  = alter_node (with_attrib reserialize) q (reserialize_at qs d).
Proof. unfold reserialize_at; rewrite foldl_app; reflexivity. Qed.

Lemma reserialize_at_app (qs1 qs2 : list path) (d : Node) :
  reserialize_at (qs1 ++ qs2) d = reserialize_at qs2 (reserialize_at qs1 d).
Proof. unfold reserialize_at; apply foldl_app. Qed.

(** Reads keep every node where it is, with its tag, the number of its
    children and its attributes other than [transform]; the
    [transform] attribute is the one the node had, read some number of
    times. *)
Lemma reserialize_at_node (qs : list path) (p : path) (d x : Node) :
  get_node p d = Some x →
  ∃ x', get_node p (reserialize_at qs d) = Some x'
        ∧ tag x' = tag x
        ∧ length (children x') = length (children x)
        ∧ put_transform None (attrib x') = put_transform None (attrib x)
        ∧ a_transform (attrib x')
          = reread (length (List.filter (fun q => bool_decide (q = p)) qs))
                   (a_transform (attrib x)).
Proof.
  revert p x; induction qs as [| q qs IH] using rev_ind; intros p x Hx.
  - exists x; simpl; auto.
  - destruct (IH p x Hx) as (x1 & Hx1 & Ht & Hl & Ha & Hr).
    rewrite reserialize_at_snoc.
    destruct (get_node_alter_attrib reserialize p q _ x1 Hx1) as (x' & Hx' & Ha' & Ht' & Hl').
    exists x'; split; [exact Hx' |].
    split; [congruence |]; split; [congruence |].
    rewrite List.filter_app, length_app; simpl.
    destruct (decide (p = q)) as [-> | Hne].
    + rewrite bool_decide_eq_true_2 by reflexivity; simpl.
      rewrite Ha'; split.
      * rewrite <- Ha; destruct (attrib x1); reflexivity.
      * replace (length (List.filter _ qs) + 1) with (S (length (List.filter (fun q0 => bool_decide (q0 = q)) qs))) by lia.
        simpl; rewrite <- Hr; reflexivity.
    + rewrite bool_decide_eq_false_2 by congruence; simpl.
      rewrite Ha', Nat.add_0_r; auto.
Qed.

Lemma without_transforms_reserialize_at (qs : list path) (d : Node) :
  without_transforms (reserialize_at qs d) = without_transforms d.
Proof.
  induction qs as [| q qs IH] using rev_ind; [reflexivity |].
  rewrite reserialize_at_snoc, without_transforms_alter; [exact IH |].
  intros a; reflexivity.
Qed.

(** Reads leave a stable document as it is. *)
Lemma reserialize_at_stable (qs : list path) (d : Node) :
  stable d → reserialize_at qs d = d.
Proof.
  intros Hd; induction qs as [| q qs IH] using rev_ind; [reflexivity |].
  rewrite reserialize_at_snoc, IH.
  destruct (get_node q d) as [x |] eqn:Hx.
  - apply alter_node_id_at with x; [exact Hx |].
    destruct x as [t a cs]; unfold with_attrib; simpl.
    rewrite reserialize_exact; [reflexivity | exact (Hd q _ Hx)].
  - clear -Hx; revert d Hx; induction q as [| i q IH]; intros d; simpl; [discriminate |].
    destruct d as [t a cs]; unfold with_children; simpl.
    destruct (cs !! i) as [ci |] eqn:Hci.
    + intros Hq; f_equal.
      rewrite <- (list_alter_id (fun y => y) cs i) at 2 by reflexivity.
      apply list_alter_ext; [| reflexivity].
      intros y Hy; rewrite Hci in Hy; injection Hy as <-; apply IH; exact Hq.
    + intros _; f_equal.
      apply list_eq; intros j; destruct (decide (i = j)) as [<- | Hne].
      * rewrite list_lookup_alter_eq, Hci; reflexivity.
      * rewrite list_lookup_alter_ne by exact Hne; reflexivity.
Qed.

Lemma composed_from_run (rest : path) :
  ∀ (done : path) (acc : Transform.t) (s : State),
    composed_from done rest acc s
    = (Ok (match get_node done (document s) with
           | Some n => composed_below acc n rest
           | None => acc
           end),
       mkState (reserialize_at (lineage_from done rest) (document s))
               (trace s ++ map MRewrite (lineage_from done rest))).
Proof.
  induction rest as [| i rest IH]; intros done acc s; simpl.
  - unfold ret; destruct (get_node done (document s)), s; simpl;
      rewrite app_nil_r; reflexivity.
  - unfold bind at 1, transform_property at 1; rewrite IH.
    cbn [document trace]; rewrite get_node_alter_same, get_node_app, <- app_assoc.
    destruct (get_node done (document s)) as [n |]; simpl.
    + destruct (children n !! i) as [ci |]; simpl.
      * rewrite composed_below_with_attrib; reflexivity.
      * change (node_transform empty_node) with Transform.identity.
        rewrite TransformFacts.matmul_identity_r; reflexivity.
    + change (node_transform empty_node) with Transform.identity.
      rewrite TransformFacts.matmul_identity_r; reflexivity.
Qed.

(** [composed_transform()] returns the product of the transforms the
    document holds when it is called, and leaves the document with the
    transform of every node of the lineage read once. *)
Lemma call_composed_transform_run (p : path) (s : State) :
  call_composed_transform p s
  = (Ok (composed_transform (document s) p),
     mkState (reserialize_at (lineage p) (document s))
             (trace s ++ map MRewrite (lineage p))).
Proof.
  unfold call_composed_transform, bind, transform_property at 1.
  cbn [get_node]; change (default empty_node (Some (document s))) with (document s).
  rewrite composed_from_run; cbn [document trace get_node alter_node].
  rewrite composed_below_with_attrib, <- app_assoc; reflexivity.
Qed.

(** Lines 122-125. *)
Lemma angle_transform_run (sp cp : path) (s : State) :
  let d1 := reserialize_at (lineage sp) (document s) in
  angle_transform sp cp s
  = (angle_transform_of (composed_transform (document s) sp) (composed_transform d1 cp),
     mkState (reserialize_at (lineage cp) d1)
             (trace s ++ map MRewrite (lineage sp) ++ map MRewrite (lineage cp))).
Proof.
  intros d1; unfold angle_transform, bind.
  rewrite !call_composed_transform_run.
  unfold reads; cbn [document trace]; rewrite <- app_assoc; reflexivity.
Qed.
End Reads.

(** *** The angle transform of the derived mode *)

Lemma angle_transform_of_ok (S C : Transform.t) :
  Transform.det S ≠ 0%R →
  angle_transform_of S C
  = Ok (Transform.strip_translation (Transform.matmul C (Transform.inverse S))).
Proof.
  intros Hd; unfold angle_transform_of; rewrite (TransformFacts.neg_ok _ Hd); reflexivity.
Qed.

Lemma angle_transform_of_singular (S C : Transform.t) :
  Transform.det S = 0%R → angle_transform_of S C = Raise ZeroDivisionError.
Proof.
  intros Hd; unfold angle_transform_of; rewrite (TransformFacts.neg_singular _ Hd); reflexivity.
Qed.


(** With the example collaborators a truthy transform is stored as it
    is. *)
Lemma shown_exact (A : Transform.t) :
  Transform.truthy A = true → shown (H := example_collaborators) A = Some A.
Proof. intros HA; unfold shown; rewrite HA; reflexivity. Qed.

Lemma truthy_scale_2 : Transform.truthy (Transform.scale 2 2) = true.
Proof. apply truthy_far_a; simpl; lra. Qed.

Lemma truthy_translate_5 : Transform.truthy (Transform.translate 5 0) = true.
Proof. apply truthy_far_e; simpl; lra. Qed.

Lemma truthy_moved_scale :
  Transform.truthy (Transform.matmul (Transform.translate 5 0) (Transform.scale 2 2)) = true.
Proof. apply truthy_far_a; simpl; lra. Qed.

Lemma truthy_quarter_turn : Transform.truthy quarter_turn = true.
Proof. apply truthy_far_a; simpl; lra. Qed.

(** [doc_scaled_during] is the document after lines 112-118 have run
    for the clone of [doc_scaled]. *)
Lemma doc_scaled_during_reached :
  document
    (snd ((own <- get_transform (H := example_collaborators) [1] ;;
           copied <- get_transform (H := example_collaborators) [2] ;;
           set_transform (H := example_collaborators) [2] (Transform.matmul own copied))
            (entered doc_scaled [] [2]
               (shape SVG_PATH_TAG (Some (Transform.scale 2 2))) [])))
  = doc_scaled_during.
Proof.
  unfold bind, get_transform, transform_property, set_transform, node_set, ret, bind.
  cbn -[shown Transform.matmul Transform.scale Transform.translate].
  rewrite !(shown_exact _ truthy_scale_2), !(shown_exact _ truthy_translate_5).
  cbn -[shown Transform.matmul Transform.scale Transform.translate].
  unfold doc_scaled_during, doc_scaled, drawing, shape, use, append_child,
    with_children, with_attrib, reserialize, put_transform.
  cbn -[shown Transform.matmul Transform.scale Transform.translate].
  rewrite ?(shown_exact _ truthy_scale_2), ?(shown_exact _ truthy_translate_5),
    ?(shown_exact _ truthy_moved_scale).
  reflexivity.
Qed.




(** *** The materialization scope *)

Lemma scope_attrib (c : Node) (p pp : path) (root x : Node) :
  get_node p root = Some x →
  ∃ x', get_node p (alter_node (append_child c) pp root) = Some x'
        ∧ attrib x' = attrib x ∧ tag x' = tag x.
Proof.
  revert pp root; induction p as [| i p IH]; intros pp root; simpl.
  - intros [= <-]; eexists; split; [reflexivity |].
    destruct pp; simpl; auto.
  - destruct (children root !! i) as [ci |] eqn:Hci; [| discriminate].
    intros Hx; destruct pp as [| j pp]; simpl.
    + rewrite (lookup_app_l_Some _ _ _ _ Hci); eauto.
    + destruct (decide (j = i)) as [-> | Hne].
      * rewrite list_lookup_alter_eq, Hci; simpl; apply IH; exact Hx.
      * rewrite list_lookup_alter_ne, Hci by exact Hne; eauto.
Qed.

Lemma alter_out_of_range {A} (g : A → A) (i : nat) (l : list A) :
  length l <= i → alter g i l = l.
Proof.
  intros Hi; apply list_eq; intros j; destruct (decide (i = j)) as [<- | Hne].
  - rewrite list_lookup_alter_eq, (lookup_ge_None_2 l i Hi); reflexivity.
  - rewrite list_lookup_alter_ne by exact Hne; reflexivity.
Qed.

(** An attribute write and the append of a last child can be done in
    either order; when the write goes to the appended child or below,
    it changes that child only. *)
Lemma alter_attrib_scope (g : Attrib → Attrib) (c : Node) (pp : path) :
  ∀ (q : path) (root pn : Node),
    get_node pp root = Some pn →
    ∃ c', alter_node (with_attrib g) q (alter_node (append_child c) pp root)
          = alter_node (append_child c') pp (alter_node (with_attrib g) q root).
Proof.
  induction pp as [| j pp IH]; intros q root pn Hpn.
  - destruct q as [| i q]; [exists c; reflexivity |].
    destruct root as [t a cs]; simpl.
    destruct (decide (i < length cs)) as [Hlt | Hge].
    + exists c; unfold with_children, append_child; simpl.
      rewrite alter_app_l by exact Hlt; reflexivity.
    + exists (default c (head (alter (alter_node (with_attrib g) q) (i - length cs) [c]))).
      unfold with_children, append_child; simpl; f_equal.
      replace i with (length cs + (i - length cs)) at 1 by lia.
      rewrite alter_app_r, (alter_out_of_range _ i cs) by lia.
      destruct (i - length cs); reflexivity.
  - simpl in Hpn.
    destruct (children root !! j) as [cj |] eqn:Hcj; [| discriminate].
    destruct q as [| i q]; [exists c; reflexivity |].
    destruct (decide (i = j)) as [-> | Hne].
    + destruct (IH q cj pn Hpn) as [c' Hc'].
      exists c'; destruct root as [t a cs]; simpl in *; unfold with_children; simpl.
      rewrite !list_alter_alter_eq; f_equal.
      apply list_alter_ext; [| reflexivity].
      intros y Hy; rewrite Hcj in Hy; injection Hy as <-; exact Hc'.
    + exists c; destruct root as [t a cs]; simpl; unfold with_children; simpl.
      rewrite list_alter_alter_ne by exact Hne; reflexivity.
Qed.

Lemma rewritten_app (ms1 ms2 : list Mutation) :
  rewritten (ms1 ++ ms2) = rewritten ms1 ++ rewritten ms2.
Proof. unfold rewritten; apply flat_map_app. Qed.

Lemma rewritten_map (qs : list path) : rewritten (map MRewrite qs) = qs.
Proof. induction qs as [| q qs IH]; simpl; [| rewrite IH]; reflexivity. Qed.

Section Scope.
Context `{Collaborators}.
Variables (root : Node) (pp : path) (pn : Node).
Hypothesis Hpn : get_node pp root = Some pn.

Let k : nat := length (children pn).
Let cp : path := pp ++ [k].

Lemma scope_fresh : get_node cp root = None.
Proof.
  unfold cp; rewrite get_node_app, Hpn; simpl.
  rewrite (lookup_ge_None_2 (children pn) k); [reflexivity | unfold k; lia].
Qed.

Lemma scope_lookup (c : Node) :
  get_node cp (alter_node (append_child c) pp root) = Some c.
Proof.
  unfold cp; rewrite get_node_app, get_node_alter_same, Hpn; simpl.
  unfold k; rewrite list_lookup_middle; reflexivity.
Qed.

Lemma scope_set (g : Node → Node) (q : path) (c : Node) :
  alter_node g (cp ++ q) (alter_node (append_child c) pp root)
  = alter_node (append_child (alter_node g q c)) pp root.
Proof.
  unfold cp; rewrite <- app_assoc; simpl.
  rewrite alter_node_app, alter_node_compose.
  apply alter_node_ext_at with pn; [exact Hpn |].
  unfold append_child; simpl; unfold with_children at 1; simpl; f_equal.
  replace k with (length (children pn) + 0) by (unfold k; lia).
  rewrite alter_app_r; reflexivity.
Qed.

Lemma scope_remove (c : Node) :
  alter_node (with_children (delete k)) pp (alter_node (append_child c) pp root) = root.
Proof.
  rewrite alter_node_compose; apply alter_node_id_at with pn; [exact Hpn |].
  destruct pn as [t a cs]; unfold append_child, with_children; simpl; f_equal.
  unfold k; simpl; rewrite delete_middle, app_nil_r; reflexivity.
Qed.
End Scope.

Section Keeps.
Context `{Collaborators}.
Variables (root : Node) (pp : path) (pn : Node) (t1 : list Mutation).
Hypothesis Hpn : get_node pp root = Some pn.

Let cp : path := pp ++ [length (children pn)].

Notation "'keeps'" := (keeps_scope root pp cp t1).

(** The parent of the duplicate keeps its place and the number of its
    children, whatever was read. *)
Lemma scope_parent (qs : list path) :
  ∃ pn', get_node pp (reserialize_at qs root) = Some pn'
         ∧ length (children pn') = length (children pn).
Proof.
  destruct (reserialize_at_node qs pp root pn Hpn) as (pn' & Hpn' & _ & Hl & _).
  exists pn'; split; [exact Hpn' | exact Hl].
Qed.

Lemma keeps_ret {A} (a : A) : keeps (ret a).
Proof. intros s Hs; exact Hs. Qed.

Lemma keeps_bind {A B} (m : M A) (f : A → M B) :
  keeps m → (∀ a, keeps (f a)) → keeps (bind m f).
Proof.
  intros Hm Hf s Hs; unfold bind.
  pose proof (Hm s Hs) as Hi; destruct (m s) as [[a | e] s1]; simpl in *.
  - apply Hf; exact Hi.
  - exact Hi.
Qed.

Lemma keeps_gets_bind {A B} (g : Node → A) (f : A → M B) :
  (∀ a, keeps (f a)) → keeps (bind (gets g) f).
Proof. intros Hf s Hs; unfold bind, gets; apply Hf; exact Hs. Qed.

Lemma keeps_reads {A} (g : Node → result A) : keeps (reads g).
Proof. intros s Hs; exact Hs. Qed.

Lemma keeps_reads_bind {A B} (g : Node → result A) (f : A → M B) :
  (∀ d a, g d = Ok a → keeps (f a)) → keeps (bind (reads g) f).
Proof.
  intros Hf s Hs; unfold bind, reads.
  destruct (g (document s)) as [a | e] eqn:Hg; simpl.
  - eapply Hf; eauto.
  - exact Hs.
Qed.

Lemma keeps_node_set (q : path) (name : string) (g : Attrib → Attrib) :
  keeps (node_set (cp ++ q) name g).
Proof.
  intros s (c & sets & Htr & Hsets & Hdoc); unfold node_set; simpl.
  exists (alter_node (with_attrib g) q c), (sets ++ [MSet (cp ++ q) name]).
  split; [rewrite Htr, app_assoc; reflexivity |].
  split.
  { apply Forall_app; split; [exact Hsets |].
    constructor; [left; exists q, name; reflexivity | constructor]. }
  rewrite rewritten_app; simpl; rewrite app_nil_r, Hdoc.
  destruct (scope_parent (rewritten sets)) as (pn' & Hpn' & Hl).
  unfold cp; rewrite <- Hl; apply (scope_set _ pp pn' Hpn').
Qed.

Lemma keeps_transform_property (q : path) : keeps (transform_property q).
Proof.
  intros s (c & sets & Htr & Hsets & Hdoc); unfold transform_property; simpl.
  destruct (scope_parent (rewritten sets)) as (pn' & Hpn' & _).
  destruct (alter_attrib_scope reserialize c pp q _ pn' Hpn') as [c' Hc'].
  exists c', (sets ++ [MRewrite q]).
  split; [rewrite Htr, app_assoc; reflexivity |].
  split.
  { apply Forall_app; split; [exact Hsets |].
    constructor; [right; exists q; reflexivity | constructor]. }
  rewrite rewritten_app; simpl; rewrite reserialize_at_snoc, Hdoc; exact Hc'.
Qed.

Lemma keeps_get_transform (q : path) : keeps (get_transform q).
Proof.
  unfold get_transform; apply keeps_bind;
    [apply keeps_transform_property | intros; apply keeps_ret].
Qed.

Lemma keeps_composed_from (rest done : path) (acc : Transform.t) :
  keeps (composed_from done rest acc).
Proof.
  revert done acc; induction rest as [| i rest IH]; intros done acc; simpl.
  - apply keeps_ret.
  - apply keeps_bind; [apply keeps_transform_property | intros; apply IH].
Qed.

Lemma keeps_call_composed_transform (q : path) : keeps (call_composed_transform q).
Proof.
  unfold call_composed_transform; apply keeps_bind;
    [apply keeps_transform_property | intros; apply keeps_composed_from].
Qed.

Lemma keeps_angle_transform (sp q : path) : keeps (angle_transform sp q).
Proof.
  unfold angle_transform.
  apply keeps_bind; [apply keeps_call_composed_transform | intros S].
  apply keeps_bind; [apply keeps_call_composed_transform | intros C].
  apply keeps_reads.
Qed.

Lemma keeps_for_each {A} (g : A → M unit) (l : list A) :
  Forall (fun x => keeps (g x)) l → keeps (for_each g l).
Proof.
  induction 1 as [| x l Hx Hl IH]; simpl; [apply keeps_ret |].
  apply keeps_bind; [exact Hx | intros _; exact IH].
Qed.

Lemma keeps_assign_angle (cfa : option pyfloat) (flip : bool) (at_ : Transform.t)
    (element : Element) (q : path) :
  el_node element = cp ++ q → keeps (assign_angle cfa flip at_ element).
Proof.
  intros Hq; unfold assign_angle; apply keeps_reads_bind; intros d a _.
  rewrite Hq; apply keeps_node_set.
Qed.

Lemma clone_to_elements_below (d : Node) (p : path) (els : list Element) :
  clone_to_elements d (Some p) = Ok els →
  Forall (fun element => ∃ q, el_node element = p ++ q) els.
Proof.
  unfold clone_to_elements; destruct (get_node p d) as [n |]; [| discriminate].
  destruct (tag_in _ _).
  - intros [= <-]; unfold elements_of; apply Forall_map, Forall_true.
    intros kd; exists []; simpl; rewrite app_nil_r; reflexivity.
  - destruct (String.eqb _ _); intros [= <-]; [| constructor].
    apply Forall_forall; intros element Hin.
    apply list_elem_of_In, in_flat_map in Hin; destruct Hin as ([q c] & _ & Hin).
    unfold elements_of in Hin; apply in_map_iff in Hin.
    destruct Hin as (kd & <- & _); exists q; reflexivity.
Qed.

Lemma keeps_setup (self sp : path) : keeps (clone_elements_setup self sp cp).
Proof.
  unfold clone_elements_setup.
  apply keeps_bind; [apply keeps_get_transform | intros own].
  apply keeps_bind; [apply keeps_get_transform | intros copied].
  apply keeps_bind.
  { unfold set_transform.
    replace cp with (cp ++ []) at 2 by apply app_nil_r; apply keeps_node_set. }
  intros _; apply keeps_gets_bind; intros cfa.
  apply keeps_bind.
  { destruct cfa; [apply keeps_ret | apply keeps_angle_transform]. }
  intros at_; apply keeps_reads_bind; intros d els Hels.
  apply keeps_gets_bind; intros flip.
  apply keeps_bind; [| intros _; apply keeps_ret].
  apply keeps_for_each.
  eapply Forall_impl; [exact (clone_to_elements_below _ _ _ Hels) |].
  intros element [q Hq]; apply keeps_assign_angle with q; exact Hq.
Qed.

Lemma in_scope_entered (copy : Node) (t0 : list Mutation) :
  t1 = t0 ++ [MAdd cp] → in_scope root pp cp t1 (entered root pp cp copy t0).
Proof.
  intros ->; exists copy, []; split; [simpl; rewrite app_nil_r; reflexivity |].
  split; [constructor | reflexivity].
Qed.

Lemma node_remove_in_scope (s : State) :
  in_scope root pp cp t1 s →
  ∃ sets,
    trace s = t1 ++ sets
    ∧ Forall (scope_mutation cp) sets
    ∧ (∃ c, document s
            = alter_node (append_child c) pp (reserialize_at (rewritten sets) root))
    ∧ node_remove cp s
      = (Ok tt, mkState (reserialize_at (rewritten sets) root) (trace s ++ [MRemove cp])).
Proof.
  intros (c & sets & Htr & Hsets & Hdoc); exists sets.
  split; [exact Htr |]; split; [exact Hsets |]; split; [exists c; exact Hdoc |].
  destruct (scope_parent (rewritten sets)) as (pn' & Hpn' & Hl).
  unfold node_remove, cp; rewrite split_last_snoc, Hdoc, <- Hl.
  rewrite (scope_lookup _ pp pn' Hpn'), (scope_remove _ pp pn' Hpn').
  reflexivity.
Qed.
End Keeps.

Lemma alter_attrib_append (g : Attrib → Attrib) (c : Node) (pp : path) :
  ∀ (q : path) (root x : Node),
    get_node q root = Some x →
    alter_node (with_attrib g) q (alter_node (append_child c) pp root)
    = alter_node (append_child c) pp (alter_node (with_attrib g) q root).
Proof.
  induction pp as [| j pp IH]; intros q root x Hx.
  - destruct q as [| i q]; [reflexivity |].
    destruct root as [t a cs]; simpl in *; unfold with_children, append_child; simpl.
    destruct (cs !! i) as [ci |] eqn:Hci; [| discriminate].
    rewrite alter_app_l by (eapply lookup_lt_Some; exact Hci); reflexivity.
  - destruct q as [| i q]; [reflexivity |].
    destruct root as [t a cs]; simpl in *; unfold with_children; simpl.
    destruct (cs !! i) as [ci |] eqn:Hci; [| discriminate].
    destruct (decide (i = j)) as [-> | Hne].
    + rewrite !list_alter_alter_eq; f_equal.
      apply list_alter_ext; [| reflexivity].
      intros y Hy; rewrite Hci in Hy; injection Hy as <-; apply (IH q ci x Hx).
    + rewrite list_alter_alter_ne by exact Hne; reflexivity.
Qed.

Section Materialize.
Context `{Collaborators}.

Lemma get_clone_source_valid (root : Node) (self sp : path) :
  get_clone_source root self = Ok (Some sp) →
  (∃ x, get_node self root = Some x ∧ a_href (attrib x) = Some sp)
  ∧ (∃ y, get_node sp root = Some y)
  ∧ String.eqb (tag root) SVG_DOCUMENT_TAG = true.
Proof.
  unfold get_clone_source.
  destruct (get_node self root) as [x |]; [| discriminate].
  destruct (a_href (attrib x)) as [sp' |] eqn:Hh; [| discriminate].
  destruct (String.eqb _ _); [| discriminate].
  destruct (get_node sp' root) as [y |] eqn:Hy; [| discriminate].
  intros [= <-]; split; [exists x; auto | split; [exists y; exact Hy | reflexivity]].
Qed.

Lemma eligible_branch (tg : string) :
  negb (tag_in tg EMBROIDERABLE_TAGS) && negb (String.eqb tg SVG_GROUP_TAG)
  = negb (eligible tg).
Proof. unfold eligible; destruct (tag_in _ _), (String.eqb _ _); reflexivity. Qed.

(** What [clone_elements] does on an eligible source, for any block
    run under it. *)
Lemma clone_elements_scope {B} (root : Node) (self sp pp : path) (tg : string)
    (body : list Element → Node → result B) (t0 : list Mutation) :
  get_clone_source root self = Ok (Some sp) →
  node_tag root (Some sp) = Ok tg →
  eligible tg = true →
  getparent self = Some pp →
  ∃ pn sets,
    get_node pp root = Some pn ∧
    let cp := pp ++ [length (children pn)] in
    let copy := default empty_node (get_node sp root) in
    let at_yield := clone_elements_setup self sp cp (entered root pp cp copy t0) in
    let root' := reserialize_at (rewritten sets) root in
    (∃ c, document (snd at_yield) = alter_node (append_child c) pp root') ∧
    trace (snd at_yield) = (t0 ++ [MAdd cp]) ++ sets ∧
    Forall (scope_mutation cp) sets ∧
    clone_elements self body (mkState root t0)
    = (match fst at_yield with
       | Ok elements => body elements (document (snd at_yield))
       | Raise e => Raise e
       end,
       mkState root' (t0 ++ MAdd cp :: sets ++ [MRemove cp])).
Proof.
  intros Hsrc Htag Hel Hpar.
  destruct (get_clone_source_valid _ _ _ Hsrc) as [(x & Hx & _) _].
  destruct (getparent_valid _ _ _ _ Hx Hpar) as [pn Hpn].
  set (cp := pp ++ [length (children pn)]).
  set (copy := default empty_node (get_node sp root)).
  pose proof (keeps_setup root pp pn (t0 ++ [MAdd cp]) Hpn self sp _
                (in_scope_entered root pp pn (t0 ++ [MAdd cp]) copy t0 eq_refl)) as Hin.
  fold cp in Hin.
  destruct (node_remove_in_scope root pp pn (t0 ++ [MAdd cp]) Hpn _ Hin)
    as (sets & Htr & Hsets & Hdoc & Hrm).
  fold cp in Htr, Hsets, Hdoc, Hrm.
  exists pn, sets; split; [exact Hpn |]; cbv zeta; fold cp copy.
  split; [exact Hdoc |]; split; [exact Htr |]; split; [exact Hsets |].
  unfold clone_elements, bind, reads, gets; cbn [document trace].
  rewrite Hsrc, Htag, eligible_branch, Hel; cbn [negb andb document].
  rewrite Hsrc; cbn [document].
  unfold node_add; rewrite Hpar; cbn [document trace]; rewrite Hpn; fold cp copy.
  unfold try_finally, bind.
  change (mkState (alter_node (with_children (fun cs => cs ++ [copy])) pp root)
                  (t0 ++ [MAdd cp])) with (entered root pp cp copy t0).
  destruct (clone_elements_setup self sp cp (entered root pp cp copy t0))
    as [[elements | e] s2] eqn:Hsetup; cbn [fst snd] in *.
  - unfold run_body, reads.
    rewrite Hrm, Htr, <- !app_assoc; reflexivity.
  - rewrite Hrm, Htr, <- !app_assoc; reflexivity.
Qed.

(** The parameters of the clone read the same while its source is
    materialized. *)
Lemma in_scope_params (root : Node) (pp cp self : path) (t1 : list Mutation)
    (x : Node) (s : State) :
  in_scope root pp cp t1 s → get_node self root = Some x →
  clone_fill_angle (document s) self = clone_fill_angle root self
  ∧ flip_angle (document s) self = flip_angle root self.
Proof.
  intros (c & sets & _ & _ & Hdoc) Hx; rewrite Hdoc.
  destruct (reserialize_at_node (rewritten sets) self root x Hx)
    as (x1 & Hx1 & _ & _ & Ha1 & _).
  destruct (scope_attrib c self pp _ x1 Hx1) as (x' & Hx' & Ha & _).
  unfold clone_fill_angle, flip_angle; rewrite Hx', Hx, Ha.
  assert (Hang : a_angle (attrib x1) = a_angle (attrib x))
    by (destruct (attrib x1), (attrib x); injection Ha1; auto).
  assert (Hfl : a_flip_angle (attrib x1) = a_flip_angle (attrib x))
    by (destruct (attrib x1), (attrib x); injection Ha1; auto).
  rewrite Hang, Hfl; auto.
Qed.
End Materialize.

Lemma filter_scope_mutations (cp : path) (g : Mutation → bool) (sets : list Mutation)
    (Hset : ∀ p name, g (MSet p name) = false) (Hrw : ∀ p, g (MRewrite p) = false) :
  Forall (scope_mutation cp) sets → List.filter g sets = [].
Proof.
  induction 1 as [| m sets [(q & name & ->) | (q & ->)] _ IH]; simpl;
    [reflexivity | rewrite Hset | rewrite Hrw]; exact IH.
Qed.

Lemma rewritten_scope (cp : path) (sets : list Mutation) :
  rewritten (MAdd cp :: sets ++ [MRemove cp]) = rewritten sets.
Proof. simpl; rewrite rewritten_app; simpl; apply app_nil_r. Qed.

(** C3: on an eligible source, whatever the block run under
    [clone_elements] does, the new mutations contain exactly one
    insertion and exactly one removal, both of the duplicate, the
    removal coming last; the result is the block's own result, so a
    failure raised by the block (or before the yield) is the failure
    the caller sees.  The document left behind is the original one with
    the transforms that were read written back in their text form: it
    has the structure and, but for [transform], the attributes of the
    original, and is the original when its transforms print exactly. *)
Theorem duplicate_removed_exactly_once `{Collaborators} {B}
    (root : Node) (self sp pp : path) (tg : string)
    (body : list Element → Node → result B) (t0 : list Mutation) :
  get_clone_source root self = Ok (Some sp) →
  node_tag root (Some sp) = Ok tg →
  eligible tg = true →
  getparent self = Some pp →
  ∃ pn new r,
    get_node pp root = Some pn ∧
    let cp := pp ++ [length (children pn)] in
    let copy := default empty_node (get_node sp root) in
    let at_yield := clone_elements_setup self sp cp (entered root pp cp copy t0) in
    let root' := reserialize_at (rewritten new) root in
    clone_elements self body (mkState root t0) = (r, mkState root' (t0 ++ new))
    ∧ without_transforms root' = without_transforms root
    ∧ (stable root → root' = root)
    ∧ List.filter is_add new = [MAdd cp]
    ∧ List.filter is_remove new = [MRemove cp]
    ∧ last new = Some (MRemove cp)
    ∧ (∀ elements e, fst at_yield = Ok elements →
         body elements (document (snd at_yield)) = Raise e → r = Raise e)
    ∧ (∀ elements v, fst at_yield = Ok elements →
         body elements (document (snd at_yield)) = Ok v → r = Ok v)
    ∧ (∀ e, fst at_yield = Raise e → r = Raise e).
Proof.
  intros Hsrc Htag Hel Hpar.
  destruct (clone_elements_scope root self sp pp tg body t0 Hsrc Htag Hel Hpar)
    as (pn & sets & Hpn & _ & _ & Hsets & Hrun).
  cbv zeta in Hrun.
  eexists pn, _, _; split; [exact Hpn |]; cbv zeta.
  rewrite rewritten_scope.
  split; [exact Hrun |].
  split; [apply without_transforms_reserialize_at |].
  split; [apply reserialize_at_stable |].
  split.
  { simpl; rewrite List.filter_app,
      (filter_scope_mutations _ is_add sets (fun _ _ => eq_refl) (fun _ => eq_refl) Hsets).
    reflexivity. }
  split.
  { simpl; rewrite List.filter_app,
      (filter_scope_mutations _ is_remove sets (fun _ _ => eq_refl) (fun _ => eq_refl) Hsets).
    reflexivity. }
  split.
  { rewrite app_comm_cons, last_snoc; reflexivity. }
  split; [| split].
  - intros elements e -> ->; reflexivity.
  - intros elements v -> ->; reflexivity.
  - intros e ->; reflexivity.
Qed.

Lemma svg_is_document : String.eqb SVG_DOCUMENT_TAG SVG_DOCUMENT_TAG = true.
Proof. apply String.eqb_refl. Qed.

Lemma duplicate_removed_exactly_once_witness :
  ∃ pn new r,
    get_node [] doc_turned = Some pn ∧
    let cp := [] ++ [length (children pn)] in
    let copy := default empty_node (get_node [0] doc_turned) in
    let at_yield :=
      clone_elements_setup (H := example_collaborators) [1] [0] cp
        (entered doc_turned [] cp copy []) in
    let body := fun elements root =>
      stitch_loop (H := example_collaborators) root elements None [] in
    let root' := reserialize_at (H := example_collaborators) (rewritten new) doc_turned in
    clone_elements (H := example_collaborators) [1] body (mkState doc_turned [])
    = (r, mkState root' ([] ++ new))
    ∧ without_transforms root' = without_transforms doc_turned
    ∧ (stable (H := example_collaborators) doc_turned → root' = doc_turned)
    ∧ List.filter is_add new = [MAdd cp]
    ∧ List.filter is_remove new = [MRemove cp]
    ∧ last new = Some (MRemove cp)
    ∧ (∀ elements e, fst at_yield = Ok elements →
         body elements (document (snd at_yield)) = Raise e → r = Raise e)
    ∧ (∀ elements v, fst at_yield = Ok elements →
         body elements (document (snd at_yield)) = Ok v → r = Ok v)
    ∧ (∀ e, fst at_yield = Raise e → r = Raise e).
Proof.
  apply (duplicate_removed_exactly_once (H := example_collaborators)
           doc_turned [1] [0] [] SVG_PATH_TAG);
    reflexivity.
Defined.

Lemma alter_node_absent (g : Node → Node) (q : path) (d : Node) :
  get_node q d = None → alter_node g q d = d.
Proof.
  revert d; induction q as [| i q IH]; intros d; simpl; [discriminate |].
  destruct d as [t a cs]; unfold with_children; simpl.
  destruct (cs !! i) as [ci |] eqn:Hci.
  - intros Hq; f_equal.
    rewrite <- (list_alter_id (fun y => y) cs i) at 2 by reflexivity.
    apply list_alter_ext; [| reflexivity].
    intros y Hy; rewrite Hci in Hy; injection Hy as <-; apply IH; exact Hq.
  - intros _; f_equal; apply alter_out_of_range.
    apply lookup_ge_None_1; exact Hci.
Qed.

Section Setup.
Context `{Collaborators}.
Variables (root : Node) (self sp pp : path) (x y pn : Node) (t0 : list Mutation).
Hypothesis Hx : get_node self root = Some x.
Hypothesis Hpn : get_node pp root = Some pn.

Let cp : path := pp ++ [length (children pn)].

(** The product stored on the duplicate at line 118. *)
Let T : Transform.t :=
  Transform.matmul (default Transform.identity (shown (node_transform x)))
                   (default Transform.identity (shown (node_transform y))).

Let c2 : Node := with_attrib (put_transform (shown T)) y.
Let r1 : Node := reserialize_at [self] root.
Let s2 : State :=
  mkState (alter_node (append_child c2) pp r1)
          ((t0 ++ [MAdd cp]) ++ [MRewrite self; MRewrite cp; MSet cp "transform"]).

Lemma setup_parent : ∃ pn1, get_node pp r1 = Some pn1
                            ∧ length (children pn1) = length (children pn).
Proof.
  destruct (reserialize_at_node [self] pp root pn Hpn) as (pn1 & Hpn1 & _ & Hl1 & _).
  exists pn1; auto.
Qed.

Lemma setup_duplicate : get_node cp (document s2) = Some c2.
Proof.
  destruct setup_parent as (pn1 & Hpn1 & Hl1).
  unfold cp; rewrite <- Hl1; apply (scope_lookup r1 pp pn1 Hpn1).
Qed.

Lemma setup_in_scope : in_scope root pp cp (t0 ++ [MAdd cp]) s2.
Proof.
  exists c2, [MRewrite self; MRewrite cp; MSet cp "transform"].
  split; [reflexivity |]; split.
  - constructor; [right; eexists; reflexivity |].
    constructor; [right; eexists; reflexivity |].
    constructor; [| constructor].
    left; exists [], "transform"; rewrite app_nil_r; reflexivity.
  - cbn [document s2 rewritten flat_map app].
    change (reserialize_at [self; cp] root)
      with (alter_node (with_attrib reserialize) cp r1).
    destruct setup_parent as (pn1 & Hpn1 & Hl1).
    rewrite (alter_node_absent (with_attrib reserialize) cp r1); [reflexivity |].
    unfold cp; rewrite <- Hl1; apply (scope_fresh r1 pp pn1 Hpn1).
Qed.

(** Lines 118-120 run from the state at the [try]: the clone's
    transform is read and written back, the duplicate's is read and
    replaced by the text form of the product, and the clone's angle
    parameter is what it was. *)
Lemma setup_unfold :
  clone_elements_setup self sp cp (entered root pp cp y t0)
  = (at_ <- match clone_fill_angle root self with
            | None => angle_transform sp cp
            | Some _ => ret Transform.identity
            end ;;
     elements <- reads (fun d => clone_to_elements d (Some cp)) ;;
     flip <- gets (fun d => flip_angle d self) ;;
     for_each (assign_angle (clone_fill_angle root self) flip at_) elements ;;;
     ret elements) s2.
Proof.
  destruct setup_parent as (pn1 & Hpn1 & Hl1).
  destruct (scope_attrib y self pp root x Hx) as (x' & Hx' & Hax & _).
  assert (Hnt : node_transform x' = node_transform x)
    by (unfold node_transform; rewrite Hax; reflexivity).
  assert (H1 : alter_node (with_attrib reserialize) self (alter_node (append_child y) pp root)
               = alter_node (append_child y) pp r1)
    by (apply alter_attrib_append with x; exact Hx).
  assert (Hcp1 : get_node cp (alter_node (append_child y) pp r1) = Some y)
    by (unfold cp; rewrite <- Hl1; apply (scope_lookup r1 pp pn1 Hpn1)).
  assert (H2 : ∀ g c, alter_node (with_attrib g) cp (alter_node (append_child c) pp r1)
                      = alter_node (append_child (with_attrib g c)) pp r1).
  { intros g c.
    pose proof (scope_set r1 pp pn1 Hpn1 (with_attrib g) [] c) as Hs.
    rewrite Hl1, app_nil_r in Hs; exact Hs. }
  assert (Hc2 : with_attrib (put_transform (shown T)) (with_attrib reserialize y) = c2)
    by (destruct y; reflexivity).
  assert (Hcfa : clone_fill_angle (document s2) self = clone_fill_angle root self)
    by (apply (in_scope_params root pp cp self _ x s2 setup_in_scope Hx)).
  unfold clone_elements_setup, get_transform, set_transform, node_set, entered.
  unfold bind at 1 2, transform_property at 1, ret at 1; cbn [document trace].
  rewrite Hx', H1; change (default empty_node (Some x')) with x'; rewrite Hnt.
  unfold bind at 1 2, transform_property at 1, ret at 1; cbn [document trace].
  rewrite Hcp1, H2; change (default empty_node (Some y)) with y.
  unfold bind at 1; cbv beta; cbn [document trace]; fold T; rewrite H2, Hc2.
  unfold bind at 1, gets at 1; cbv beta; cbn [document trace].
  rewrite <- !app_assoc; cbn [app].
  change (alter_node (append_child c2) pp r1) with (document s2).
  rewrite Hcfa.
  replace (mkState (document s2)
             (t0 ++ [MAdd cp; MRewrite self; MRewrite cp; MSet cp "transform"]))
    with s2 by (unfold s2; cbn [document]; rewrite <- app_assoc; reflexivity).
  reflexivity.
Qed.
End Setup.

Section Yield.
Context `{Collaborators}.

(** The loop of lines 128-144 writes angles only. *)
Lemma for_each_trace (cfa : option pyfloat) (flip : bool) (at_ : Transform.t)
    (l : list Element) (s : State) :
  ∃ more, trace (snd (for_each (assign_angle cfa flip at_) l s)) = trace s ++ more
          ∧ rewritten more = [].
Proof.
  revert s; induction l as [| element l IH]; intros s; simpl.
  - exists []; rewrite app_nil_r; auto.
  - unfold bind at 1, assign_angle at 1, bind at 1, reads at 1, node_set.
    destruct (element_angle_of _ _ _ _) as [w | e]; cbn [snd].
    + destruct (IH (mkState
                      (alter_node
                         (with_attrib (set_angle (text_of_float (apply_flip flip w))))
                         (el_node element) (document s))
                      (trace s ++ [MSet (el_node element) ANGLE])))
        as (more & Hmore & Hrw).
      exists (MSet (el_node element) ANGLE :: more); split; [| exact Hrw].
      rewrite Hmore; cbn [trace]; rewrite <- app_assoc; reflexivity.
    + exists []; rewrite app_nil_r; auto.
Qed.

Lemma in_scope_valid (root : Node) (pp cp : path) (t1 : list Mutation)
    (s : State) (p : path) (z : Node) :
  in_scope root pp cp t1 s → get_node p root = Some z →
  is_Some (get_node p (document s)).
Proof.
  intros (c & sets & _ & _ & Hdoc) Hz; rewrite Hdoc.
  destruct (reserialize_at_node (rewritten sets) p root z Hz) as (z1 & Hz1 & _).
  destruct (scope_attrib c p pp _ z1 Hz1) as (z' & Hz' & _).
  rewrite Hz'; eexists; reflexivity.
Qed.

(** The transforms read before the yield: those of the clone and of
    the duplicate at line 118 and, in the derived mode, those of the
    lineage of the source and of the lineage of the duplicate at lines
    122 and 123. *)
Lemma setup_reads (root : Node) (self sp pp : path) (x y pn : Node)
    (t0 : list Mutation) :
  get_node self root = Some x →
  get_node sp root = Some y →
  get_node pp root = Some pn →
  let cp := pp ++ [length (children pn)] in
  let at_yield := clone_elements_setup self sp cp (entered root pp cp y t0) in
  ∃ sets,
    trace (snd at_yield) = (t0 ++ [MAdd cp]) ++ sets
    ∧ rewritten sets
      = self :: cp :: match clone_fill_angle root self with
                      | None => lineage sp ++ lineage cp
                      | Some _ => []
                      end.
Proof.
  intros Hx Hy Hpn cp at_yield; unfold at_yield, cp.
  rewrite (setup_unfold root self sp pp x y pn t0 Hx Hpn); fold cp.
  pose proof (setup_in_scope root self pp x y pn t0 Hpn) as Hin; fold cp in Hin.
  pose proof (setup_duplicate root self pp x y pn t0 Hpn) as Hdup; fold cp in Hdup.
  set (s2 := mkState _ _) in *.
  assert (Hdone : ∀ cfa at_ (s : State) (pre : list Mutation),
            trace s = trace s2 ++ pre →
            ∃ sets,
              trace (snd ((elements <- reads (fun d => clone_to_elements d (Some cp)) ;;
                           flip <- gets (fun d => flip_angle d self) ;;
                           for_each (assign_angle cfa flip at_) elements ;;;
                           ret elements) s))
              = (t0 ++ [MAdd cp]) ++ sets
              ∧ rewritten sets = self :: cp :: rewritten pre).
  { intros cfa at_ s pre Hs; unfold bind, reads, gets, ret.
    destruct (clone_to_elements (document s) (Some cp)) as [els | e]; cbn [snd].
    - destruct (for_each_trace cfa (flip_angle (document s) self) at_ els s)
        as (more & Hmore & Hrw).
      exists ([MRewrite self; MRewrite cp; MSet cp "transform"] ++ pre ++ more).
      split.
      + destruct (for_each _ els s) as [[[] | e] s']; cbn [snd fst] in *;
          rewrite Hmore, Hs; unfold s2; cbn [trace]; rewrite <- !app_assoc; reflexivity.
      + simpl; rewrite rewritten_app, Hrw, app_nil_r; reflexivity.
    - exists ([MRewrite self; MRewrite cp; MSet cp "transform"] ++ pre).
      split; [rewrite Hs; unfold s2; cbn [trace]; rewrite <- !app_assoc; reflexivity |].
      reflexivity. }
  unfold bind at 1.
  destruct (clone_fill_angle root self) as [v |].
  - unfold ret at 1.
    destruct (Hdone (Some v) Transform.identity s2 []) as (sets & Htr & Hrw);
      [rewrite app_nil_r; reflexivity |].
    exists sets; auto.
  - rewrite angle_transform_run.
    destruct (angle_transform_of _ _) as [at_ | e].
    + match goal with
      | |- context [bind _ _ ?s] =>
          destruct (Hdone None at_ s (map MRewrite (lineage sp) ++ map MRewrite (lineage cp)))
            as (sets & Htr & Hrw); [reflexivity |]
      end.
      exists sets; split; [exact Htr |].
      rewrite Hrw, rewritten_app, !rewritten_map; reflexivity.
    + exists ([MRewrite self; MRewrite cp; MSet cp "transform"]
              ++ map MRewrite (lineage sp) ++ map MRewrite (lineage cp)).
      split; [unfold s2; cbn [snd trace]; rewrite <- !app_assoc; reflexivity |].
      rewrite !rewritten_app, !rewritten_map; reflexivity.
Qed.
End Yield.

(** C8 (amended): on an eligible source the duplicate takes a position
    that no node of the document has; between its insertion and its
    removal the only mutations are attribute writes at or below that
    position and the writing back of the [transform] attribute of the
    nodes whose transform is read: the clone and the duplicate and, in
    the derived mode, the lineages of the source and of the duplicate.
    At the yield and when the scope is left, with a result or a
    failure, every node the document had is where it was, with its tag
    and its attributes other than [transform]; its [transform]
    attribute is the one it had, read some number of times.  The
    document left behind has the structure of the original and is the
    original when its transforms print exactly. *)
Theorem materialization_frame `{Collaborators} {B}
    (root : Node) (self sp pp : path) (tg : string)
    (body : list Element → Node → result B) (t0 : list Mutation) :
  get_clone_source root self = Ok (Some sp) →
  node_tag root (Some sp) = Ok tg →
  eligible tg = true →
  getparent self = Some pp →
  ∃ pn sets r,
    get_node pp root = Some pn ∧
    let cp := pp ++ [length (children pn)] in
    let copy := default empty_node (get_node sp root) in
    let at_yield := clone_elements_setup self sp cp (entered root pp cp copy t0) in
    let root' := reserialize_at (rewritten sets) root in
    get_node cp root = None
    ∧ clone_elements self body (mkState root t0)
      = (r, mkState root' (t0 ++ MAdd cp :: sets ++ [MRemove cp]))
    ∧ Forall (scope_mutation cp) sets
    ∧ trace (snd at_yield) = t0 ++ MAdd cp :: sets
    ∧ rewritten sets
      = self :: cp :: match clone_fill_angle root self with
                      | None => lineage sp ++ lineage cp
                      | Some _ => []
                      end
    ∧ without_transforms root' = without_transforms root
    ∧ (stable root → root' = root)
    ∧ (∀ p x, get_node p root = Some x →
         ∃ x' x'' n,
           get_node p (document (snd at_yield)) = Some x'
           ∧ get_node p root' = Some x''
           ∧ attrib x' = attrib x'' ∧ tag x' = tag x ∧ tag x'' = tag x
           ∧ put_transform None (attrib x'') = put_transform None (attrib x)
           ∧ a_transform (attrib x'') = reread n (a_transform (attrib x))).
Proof.
  intros Hsrc Htag Hel Hpar.
  destruct (clone_elements_scope root self sp pp tg body t0 Hsrc Htag Hel Hpar)
    as (pn & sets & Hpn & Hin & Htr & Hsets & Hrun).
  cbv zeta in Hin, Htr, Hrun.
  destruct (get_clone_source_valid _ _ _ Hsrc) as ((x & Hx & _) & (y & Hy) & _).
  destruct (setup_reads root self sp pp x y pn t0 Hx Hy Hpn) as (sets' & Htr' & Hrw).
  cbv zeta in Htr'; rewrite Hy in Htr; change (default empty_node (Some y)) with y in Htr.
  rewrite Htr in Htr'; apply app_inv_head in Htr'; subst sets'.
  eexists pn, sets, _; split; [exact Hpn |]; cbv zeta.
  split; [exact (scope_fresh root pp pn Hpn) |].
  split; [exact Hrun |].
  split; [exact Hsets |].
  split; [rewrite Hy; change (default empty_node (Some y)) with y;
          rewrite Htr, <- app_assoc; reflexivity |].
  split; [exact Hrw |].
  split; [apply without_transforms_reserialize_at |].
  split; [apply reserialize_at_stable |].
  intros p z Hz; destruct Hin as [c Hc]; rewrite Hc.
  destruct (reserialize_at_node (rewritten sets) p root z Hz)
    as (z1 & Hz1 & Ht1 & _ & Ha1 & Hr1).
  destruct (scope_attrib c p pp _ z1 Hz1) as (z' & Hz' & Ha' & Ht').
  exists z', z1; eexists; repeat split;
    [exact Hz' | exact Hz1 | exact Ha' | congruence | exact Ht1 | exact Ha1 | exact Hr1].
Qed.

Lemma materialization_frame_witness :
  ∃ pn sets r,
    get_node [] doc_turned = Some pn ∧
    let cp := [] ++ [length (children pn)] in
    let copy := default empty_node (get_node [0] doc_turned) in
    let at_yield :=
      clone_elements_setup (H := example_collaborators) [1] [0] cp
        (entered doc_turned [] cp copy []) in
    let root' := reserialize_at (H := example_collaborators) (rewritten sets) doc_turned in
    get_node cp doc_turned = None
    ∧ to_stitch_groups (H := example_collaborators) [1] None (mkState doc_turned [])
      = (r, mkState root' ([] ++ MAdd cp :: sets ++ [MRemove cp]))
    ∧ Forall (scope_mutation cp) sets
    ∧ trace (snd at_yield) = [] ++ MAdd cp :: sets
    ∧ rewritten sets
      = [1] :: cp :: match clone_fill_angle doc_turned [1] with
                     | None => lineage [0] ++ lineage cp
                     | Some _ => []
                     end
    ∧ without_transforms root' = without_transforms doc_turned
    ∧ (stable (H := example_collaborators) doc_turned → root' = doc_turned)
    ∧ (∀ p x, get_node p doc_turned = Some x →
         ∃ x' x'' n,
           get_node p (document (snd at_yield)) = Some x'
           ∧ get_node p root' = Some x''
           ∧ attrib x' = attrib x'' ∧ tag x' = tag x ∧ tag x'' = tag x
           ∧ put_transform None (attrib x'') = put_transform None (attrib x)
           ∧ a_transform (attrib x'')
             = reread (H := example_collaborators) n (a_transform (attrib x))).
Proof.
  apply (materialization_frame (H := example_collaborators)
           doc_turned [1] [0] [] SVG_PATH_TAG);
    reflexivity.
Defined.

Lemma path_embroiderable : tag_in SVG_PATH_TAG EMBROIDERABLE_TAGS = true.
Proof. reflexivity. Qed.

Lemma rect_embroiderable : tag_in SVG_RECT_TAG EMBROIDERABLE_TAGS = true.
Proof. reflexivity. Qed.

Lemma rect_not_path : String.eqb SVG_RECT_TAG SVG_PATH_TAG = false.
Proof. reflexivity. Qed.

Lemma matmul_identity_identity :
  Transform.matmul Transform.identity Transform.identity = Transform.identity.
Proof. apply TransformFacts.matmul_identity_l. Qed.

(** Running the example documents: the reference is resolved, the
    duplicate is inserted and the steps of the setup are taken one by
    one, the text forms being those of the example collaborators. *)
Ltac run_enter :=
  unfold to_stitch_groups, clone_elements, bind, reads, gets;
  cbn -[tag_in String.eqb clone_elements_setup node_remove try_finally];
  rewrite ?svg_is_document;
  cbn -[tag_in String.eqb clone_elements_setup node_remove try_finally];
  rewrite ?path_embroiderable, ?rect_embroiderable;
  cbn -[tag_in String.eqb clone_elements_setup node_remove try_finally];
  rewrite ?svg_is_document;
  cbn -[tag_in String.eqb clone_elements_setup node_remove try_finally];
  unfold try_finally.

Ltac run_setup :=
  unfold clone_elements_setup, get_transform, set_transform, transform_property,
    bind, gets, reads, ret, node_set;
  cbn -[shown Transform.matmul tag_in String.eqb node_remove for_each
        angle_transform derived_angle reserialize].

Ltac run_text :=
  unfold reserialize, put_transform;
  cbn -[shown Transform.matmul tag_in String.eqb node_remove for_each
        angle_transform derived_angle];
  rewrite ?shown_identity;
  cbn -[shown Transform.matmul tag_in String.eqb node_remove for_each
        angle_transform derived_angle];
  rewrite ?matmul_identity_identity, ?TransformFacts.matmul_identity_r,
    ?TransformFacts.matmul_identity_l, ?shown_identity;
  cbn -[shown Transform.matmul tag_in String.eqb node_remove for_each
        angle_transform derived_angle].

Ltac run_assign :=
  unfold assign_angle, bind, reads, element_angle_of, node_set;
  cbn -[derived_angle Transform.matmul node_remove shown].

(** C8 (as stated) fails: a clone that spells the identity out as its
    transform loses the attribute when line 118 reads it, and does not
    get it back when the scope is left: the document after
    [to_stitch_groups] is not the document before, although the
    duplicate is gone and the stitch groups are returned. *)
Lemma materialization_rewrites_transform :
  to_stitch_groups (H := example_collaborators) [1] None (mkState doc_spelled [])
  = (Ok [1],
     mkState doc_spelled_after
       [MAdd [2]; MRewrite [1]; MRewrite [2]; MSet [2] "transform";
        MSet [2] ANGLE; MRemove [2]])
  ∧ doc_spelled_after ≠ doc_spelled.
Proof.
  split; [| intros Heq; discriminate Heq].
  run_enter; run_setup; run_text.
  rewrite ?rect_embroiderable, ?rect_not_path.
  cbn -[derived_angle Transform.matmul node_remove shown].
  run_assign.
  unfold node_remove; cbn -[shown].
  unfold doc_spelled, doc_spelled_after, drawing, shape, with_children, with_attrib;
    cbn -[shown]; rewrite ?shown_identity; reflexivity.
Qed.

Lemma clone_elements_ineligible `{Collaborators} {B}
    (s : State) (self sp : path) (tg : string)
    (body : list Element → Node → result B) :
  get_clone_source (document s) self = Ok (Some sp) →
  node_tag (document s) (Some sp) = Ok tg →
  eligible tg = false →
  clone_elements self body s = (body [] (document s), s).
Proof.
  intros Hsrc Htag Hel; unfold clone_elements, bind, gets, reads.
  rewrite Hsrc, Htag, eligible_branch, Hel; reflexivity.
Qed.

(** C6: when the resolved source is neither an embroiderable shape nor
    a group, the block runs on the empty list, [to_stitch_groups]
    returns no stitch group, and the state (the document, hence its
    node count, and the record of mutations) is unchanged. *)
Theorem ineligible_source_is_empty `{Collaborators} {B}
    (s : State) (self sp : path) (tg : string)
    (body : list Element → Node → result B) (last_patch : option StitchGroup) :
  get_clone_source (document s) self = Ok (Some sp) →
  node_tag (document s) (Some sp) = Ok tg →
  eligible tg = false →
  clone_elements self body s = (body [] (document s), s)
  ∧ to_stitch_groups self last_patch s = (Ok [], s)
  ∧ node_count (document (snd (to_stitch_groups self last_patch s)))
    = node_count (document s)
  ∧ trace (snd (to_stitch_groups self last_patch s)) = trace s.
Proof.
  intros Hsrc Htag Hel.
  split; [apply (clone_elements_ineligible s self sp tg); assumption |].
  unfold to_stitch_groups.
  rewrite (clone_elements_ineligible s self sp tg) by assumption; simpl; auto.
Qed.

Lemma ineligible_source_is_empty_witness :
  clone_elements (H := example_collaborators) [1]
    (fun elements root => stitch_loop (H := example_collaborators) root elements None [])
    (mkState doc_text [])
  = (Ok [], mkState doc_text [])
  ∧ to_stitch_groups (H := example_collaborators) [1] None (mkState doc_text [])
    = (Ok [], mkState doc_text [])
  ∧ node_count (document (snd (to_stitch_groups (H := example_collaborators) [1] None
                                 (mkState doc_text []))))
    = node_count doc_text
  ∧ trace (snd (to_stitch_groups (H := example_collaborators) [1] None
                  (mkState doc_text []))) = [].
Proof.
  apply (ineligible_source_is_empty (H := example_collaborators)
           (mkState doc_text []) [1] [0] SVG_TEXT_TAG);
    reflexivity.
Defined.

(** *** The stitch group pipeline *)

Lemma stitch_loop_spec `{Collaborators} (root : Node) (elements : list Element)
    (last_patch : option StitchGroup) (patches : list StitchGroup) :
  stitch_loop root elements last_patch patches
  = match pipeline_spec (call_to_stitch_groups root) elements last_patch with
    | Ok out => Ok (patches ++ out)
    | Raise e => Raise e
    end.
Proof.
  revert last_patch patches; induction elements as [| element rest IH];
    intros last_patch patches; simpl.
  - rewrite app_nil_r; reflexivity.
  - destruct (call_to_stitch_groups root element last_patch) as [groups | e];
      [| reflexivity].
    destruct groups as [| g gs].
    + simpl; rewrite IH; destruct (pipeline_spec _ rest _); reflexivity.
    + destruct (last (g :: gs)) as [g' |] eqn:Hlast;
        [| apply last_None in Hlast; discriminate].
      rewrite IH.
      destruct (pipeline_spec _ rest _) as [out | e]; [| reflexivity].
      rewrite <- app_assoc; reflexivity.
Qed.



(** The scenario of three drawables: the first yields two groups, the
    second none; the third is invoked with the first's second group. *)
Lemma pipeline_skips_empty_producer `{Collaborators} (root : Node)
    (d1 d2 d3 : Element) (last_patch : option StitchGroup) (g1 g2 : StitchGroup) :
  call_to_stitch_groups root d1 last_patch = Ok [g1; g2] →
  call_to_stitch_groups root d2 (Some g2) = Ok [] →
  stitch_loop root [d1; d2; d3] last_patch []
  = match call_to_stitch_groups root d3 (Some g2) with
    | Ok groups => Ok (g1 :: g2 :: groups)
    | Raise e => Raise e
    end.
Proof.
  intros H1 H2; simpl; rewrite H1; simpl; rewrite H2; simpl.
  destruct (call_to_stitch_groups root d3 (Some g2)) as [groups |]; [| reflexivity].
  destruct (last groups) eqn:Hlast; [reflexivity |].
  apply last_None in Hlast; subst groups; reflexivity.
Qed.

(** *** Clones of clones *)

(** C5 (amended): when the resolved source of a clone is itself a clone
    (a [use] node), as in every cycle of clones, the materialization
    does not follow the source's reference: the source is ineligible,
    [to_stitch_groups] returns no stitch group, raises nothing and
    leaves the state unchanged. *)
Theorem clone_of_clone_is_empty `{Collaborators}
    (s : State) (self sp : path) (last_patch : option StitchGroup) :
  get_clone_source (document s) self = Ok (Some sp) →
  node_tag (document s) (Some sp) = Ok SVG_USE_TAG →
  to_stitch_groups self last_patch s = (Ok [], s)
  ∧ is_raise (fst (to_stitch_groups self last_patch s)) = false.
Proof.
  intros Hsrc Htag; unfold to_stitch_groups.
  rewrite (clone_elements_ineligible s self sp SVG_USE_TAG) by (auto; reflexivity).
  split; reflexivity.
Qed.

Lemma clone_of_clone_is_empty_witness :
  to_stitch_groups (H := example_collaborators) [0] None (mkState doc_cycle [])
  = (Ok [], mkState doc_cycle [])
  ∧ is_raise (fst (to_stitch_groups (H := example_collaborators) [0] None
                     (mkState doc_cycle []))) = false.
Proof.
  apply (clone_of_clone_is_empty (H := example_collaborators)
           (mkState doc_cycle []) [0] [1] None); reflexivity.
Defined.

(** C5 (as stated) fails: the clone at [[0]] references the clone at
    [[1]], which references it back; its materialization returns the
    empty list and raises no failure. *)
Lemma cycle_raises_nothing :
  source_after 2 doc_cycle [0] = Some [0]
  ∧ to_stitch_groups (H := example_collaborators) [0] None (mkState doc_cycle [])
    = (Ok [], mkState doc_cycle [])
  ∧ ¬ (∃ e, fst (to_stitch_groups (H := example_collaborators) [0] None
                   (mkState doc_cycle [])) = Raise e).
Proof.
  split; [reflexivity |]; split; [reflexivity |].
  intros [e He]; discriminate He.
Qed.

(** *** The cache key *)

Lemma get_node_alter_off (g : Attrib → Attrib) (p cp : path) (d : Node) :
  ¬ p `prefix_of` cp →
  get_node p (alter_node (with_attrib g) cp d) = get_node p d.
Proof.
  revert cp d; induction p as [| i p IH]; intros cp d Hp.
  - exfalso; apply Hp, prefix_nil.
  - destruct cp as [| j cp]; simpl; [reflexivity |].
    destruct (decide (j = i)) as [-> | Hne].
    + rewrite list_lookup_alter_eq; destruct (children d !! i) as [ci |]; simpl;
        [| reflexivity].
      apply IH; intros Hpre; apply Hp, prefix_cons, Hpre.
    + rewrite list_lookup_alter_ne by exact Hne; reflexivity.
Qed.

Lemma node_transform_alter_below (g : Attrib → Attrib) (cp : path) (d : Node) :
  cp ≠ [] → node_transform (alter_node (with_attrib g) cp d) = node_transform d.
Proof. destruct cp; [congruence | reflexivity]. Qed.

Lemma composed_below_alter_off (g : Attrib → Attrib) (p cp : path)
    (acc : Transform.t) (d : Node) :
  ¬ cp `prefix_of` p →
  composed_below acc (alter_node (with_attrib g) cp d) p = composed_below acc d p.
Proof.
  revert cp acc d; induction p as [| i p IH]; intros cp acc d Hcp; [reflexivity |].
  destruct cp as [| j cp]; [exfalso; apply Hcp, prefix_nil |]; simpl.
  destruct (decide (j = i)) as [-> | Hne].
  - rewrite list_lookup_alter_eq; destruct (children d !! i) as [ci |]; simpl;
      [| reflexivity].
    assert (Hne : cp ≠ []).
    { intros ->; apply Hcp; exists p; reflexivity. }
    rewrite (node_transform_alter_below g cp ci Hne).
    apply IH; intros Hpre; apply Hcp, prefix_cons, Hpre.
  - rewrite list_lookup_alter_ne by exact Hne; reflexivity.
Qed.

Lemma composed_transform_alter_off (g : Attrib → Attrib) (p cp : path) (d : Node) :
  ¬ cp `prefix_of` p →
  composed_transform (alter_node (with_attrib g) cp d) p = composed_transform d p.
Proof.
  intros Hcp; unfold composed_transform.
  rewrite node_transform_alter_below
    by (intros ->; apply Hcp, prefix_nil).
  apply composed_below_alter_off; exact Hcp.
Qed.

Lemma incomparable_below (self sp q : path) :
  incomparable self sp →
  ¬ (sp ++ q) `prefix_of` self ∧ ¬ self `prefix_of` (sp ++ q).
Proof.
  intros [H1 H2]; split.
  - intros Hpre; apply H2; eapply prefix_app_l; exact Hpre.
  - intros Hpre.
    destruct (prefix_weak_total self sp (sp ++ q) Hpre) as [? | ?]; auto.
    exists q; reflexivity.
Qed.

Lemma tag_alter_attrib (g : Attrib → Attrib) (p : path) (d : Node) :
  tag (alter_node (with_attrib g) p d) = tag d.
Proof. destruct p; reflexivity. Qed.

Section CacheKey.
Context `{Collaborators}.
Variables (d : Node) (self sp : path) (g : Attrib → Attrib).
Hypothesis Hsrc : get_clone_source d self = Ok (Some sp).
Hypothesis Hapart : incomparable self sp.
Hypothesis Hhref : ∀ a, a_href (g a) = a_href a.

Let d' : Node := alter_node (with_attrib g) self d.

Lemma source_unchanged : get_clone_source d' self = Ok (Some sp).
Proof.
  revert Hsrc; unfold get_clone_source, d'.
  rewrite get_node_alter_same, tag_alter_attrib.
  destruct (get_node self d) as [x |]; simpl; [| discriminate].
  rewrite Hhref; destruct (a_href (attrib x)) as [sp' |]; [| discriminate].
  destruct (String.eqb _ _); [| discriminate].
  destruct (get_node sp' d) as [y |] eqn:Hy; [| discriminate].
  intros [= ->]; rewrite get_node_alter_off, Hy by apply Hapart; reflexivity.
Qed.

Lemma source_elements_unchanged :
  clone_to_elements d' (Some sp) = clone_to_elements d (Some sp).
Proof.
  unfold clone_to_elements, d'; rewrite get_node_alter_off by apply Hapart.
  reflexivity.
Qed.

Lemma cache_key_unchanged (previous_stitch : option Stitch) (q : path) (kd : Kind) :
  call_get_cache_key d' previous_stitch (mkElement _ kd (sp ++ q))
  = call_get_cache_key d previous_stitch (mkElement _ kd (sp ++ q)).
Proof.
  destruct (incomparable_below self sp q Hapart) as [H1 H2].
  unfold call_get_cache_key, element_node, d'; simpl.
  rewrite get_node_alter_off, composed_transform_alter_off by assumption.
  reflexivity.
Qed.

Lemma get_cache_key_data_unchanged (previous_stitch : option Stitch)
    (t : list Mutation) :
  get_cache_key_data self previous_stitch (mkState d' t)
  = (fst (get_cache_key_data self previous_stitch (mkState d t)), mkState d' t).
Proof.
  unfold get_cache_key_data, bind, gets, reads, ret; cbn [document].
  rewrite source_unchanged, Hsrc, source_elements_unchanged.
  destruct (clone_to_elements d (Some sp)) as [els |] eqn:Hels; [| reflexivity].
  simpl; f_equal; f_equal.
  pose proof (clone_to_elements_below _ _ _ Hels) as Hbelow.
  clear Hels; induction Hbelow as [| [kd p] els [q Hq] _ IH]; [reflexivity |].
  simpl in *; subst p; rewrite cache_key_unchanged, IH; reflexivity.
Qed.
End CacheKey.

(** C10 (amended): [get_cache_key_data] mutates nothing (no copy is
    materialized), and when the clone's node is neither at or below nor
    above its source, any change of the clone's own attributes that
    keeps its reference (its transform, its angle parameter, its flip
    parameter) leaves the returned list of cache keys unchanged. *)
Theorem cache_key_ignores_clone_parameters `{Collaborators}
    (d : Node) (self sp : path) (g : Attrib → Attrib)
    (previous_stitch : option Stitch) (t : list Mutation) :
  get_clone_source d self = Ok (Some sp) →
  incomparable self sp →
  (∀ a, a_href (g a) = a_href a) →
  let d' := alter_node (with_attrib g) self d in
  fst (get_cache_key_data self previous_stitch (mkState d' t))
  = fst (get_cache_key_data self previous_stitch (mkState d t))
  ∧ snd (get_cache_key_data self previous_stitch (mkState d' t)) = mkState d' t
  ∧ snd (get_cache_key_data self previous_stitch (mkState d t)) = mkState d t.
Proof.
  intros Hsrc Hapart Hhref d'; unfold d'.
  rewrite (get_cache_key_data_unchanged d self sp g Hsrc Hapart Hhref).
  split; [reflexivity |]; split; [reflexivity |].
  unfold get_cache_key_data, bind, gets, reads, ret; cbn [document].
  rewrite Hsrc; destruct (clone_to_elements d (Some sp)); reflexivity.
Qed.

Lemma incomparable_apart : incomparable [1; 0] [0; 0].
Proof.
  split; intros [k Hk]; discriminate Hk.
Qed.

Lemma cache_key_ignores_clone_parameters_witness :
  fst (get_cache_key_data (H := example_collaborators) [1; 0] None
         (mkState doc_apart_changed []))
  = fst (get_cache_key_data (H := example_collaborators) [1; 0] None
           (mkState doc_apart []))
  ∧ snd (get_cache_key_data (H := example_collaborators) [1; 0] None
           (mkState doc_apart_changed []))
    = mkState doc_apart_changed []
  ∧ snd (get_cache_key_data (H := example_collaborators) [1; 0] None
           (mkState doc_apart []))
    = mkState doc_apart [].
Proof.
  apply (cache_key_ignores_clone_parameters (H := example_collaborators)
           doc_apart [1; 0] [0; 0] change_parameters None []).
  - reflexivity.
  - exact incomparable_apart.
  - intros a; reflexivity.
Defined.

(** C10 (as stated) fails: for a clone placed inside the group it
    references, the clone's node is one of the source's descendants, so
    its angle parameter is read into the cache key. *)
Lemma cache_key_reads_clone_inside_source :
  get_clone_source doc_inside_angled [0; 1] = get_clone_source doc_inside [0; 1]
  ∧ fst (get_cache_key_data (H := example_collaborators) [0; 1] None
           (mkState doc_inside_angled []))
    = Ok [(FillStitch, None); (FillStitch, Some (NumText 45))]
  ∧ fst (get_cache_key_data (H := example_collaborators) [0; 1] None
           (mkState doc_inside []))
    = Ok [(FillStitch, None); (FillStitch, None)]
  ∧ fst (get_cache_key_data (H := example_collaborators) [0; 1] None
           (mkState doc_inside_angled []))
    ≠ fst (get_cache_key_data (H := example_collaborators) [0; 1] None
             (mkState doc_inside [])).
Proof.
  split; [reflexivity |]; split; [reflexivity |]; split; [reflexivity |].
  intros Heq; discriminate Heq.
Qed.

(** *** The angles written on the duplicate *)

Section Angles.
Context `{Collaborators}.

Lemma clone_to_elements_valid (d : Node) (p : path) (els : list Element) :
  clone_to_elements d (Some p) = Ok els →
  Forall (fun element => ∃ x, get_node (el_node element) d = Some x) els.
Proof.
  unfold clone_to_elements; destruct (get_node p d) as [n |] eqn:Hn; [| discriminate].
  destruct (tag_in _ _).
  - intros [= <-]; unfold elements_of; apply Forall_map, Forall_true.
    intros kd; simpl; eauto.
  - destruct (String.eqb _ _); intros [= <-]; [| constructor].
    apply Forall_forall; intros element Hin.
    apply list_elem_of_In, in_flat_map in Hin; destruct Hin as ([q c] & Hqc & Hin).
    unfold elements_of in Hin; apply in_map_iff in Hin.
    destruct Hin as (kd & <- & _); simpl.
    pose proof (iterdescendants_valid n) as Hv.
    rewrite Forall_forall in Hv.
    specialize (Hv (q, c) (proj2 (list_elem_of_In _ _) Hqc)); simpl in Hv.
    rewrite get_node_app, Hn, Hv; eauto.
Qed.

Lemma clone_to_elements_total (d : Node) (p : path) (n : Node) :
  get_node p d = Some n → ∃ els, clone_to_elements d (Some p) = Ok els.
Proof.
  intros Hn; unfold clone_to_elements; rewrite Hn.
  destruct (tag_in _ _); [eauto |]; destruct (String.eqb _ _); eauto.
Qed.

(** One turn of the loop: the element's node gets the element's angle,
    negated under the flip, and no other node changes. *)
Lemma assign_angle_turn (cfa : option pyfloat) (flip : bool) (at_ : Transform.t)
    (element : Element) (s : State) (w : pyfloat) (y : Node) :
  get_node (el_node element) (document s) = Some y →
  element_angle_of (document s) cfa at_ element = Ok w →
  fst (assign_angle cfa flip at_ element s) = Ok tt
  ∧ carries (text_of_float (if flip then float_neg w else w))
            (document (snd (assign_angle cfa flip at_ element s))) (el_node element)
  ∧ (∀ p z, p ≠ el_node element → get_node p (document s) = Some z →
       ∃ z', get_node p (document (snd (assign_angle cfa flip at_ element s))) = Some z'
             ∧ attrib z' = attrib z).
Proof.
  intros Hy Hw; unfold assign_angle, bind, reads; rewrite Hw; unfold node_set; simpl.
  split; [reflexivity |]; split.
  - destruct (get_node_alter_attrib (set_angle (text_of_float (apply_flip flip w)))
                (el_node element) (el_node element) _ y Hy) as (y' & Hy' & Ha & _).
    rewrite decide_True in Ha by reflexivity.
    exists y'; split; [exact Hy' | rewrite Ha; reflexivity].
  - intros p z Hne Hz.
    destruct (get_node_alter_attrib (set_angle (text_of_float (apply_flip flip w)))
                p (el_node element) _ z Hz) as (z' & Hz' & Ha & _).
    rewrite decide_False in Ha by exact Hne; eauto.
Qed.

Lemma override_loop (v : pyfloat) (flip : bool) (at_ : Transform.t)
    (els : list Element) (s : State) :
  Forall (fun element => ∃ x, get_node (el_node element) (document s) = Some x) els →
  ∃ s', for_each (assign_angle (Some v) flip at_) els s = (Ok tt, s')
        ∧ Forall (fun element =>
                    carries (text_of_float (apply_flip flip v)) (document s')
                            (el_node element)) els
        ∧ (∀ p, carries (text_of_float (apply_flip flip v)) (document s) p →
                carries (text_of_float (apply_flip flip v)) (document s') p)
        ∧ (∀ p x, get_node p (document s) = Some x →
                  ∃ x', get_node p (document s') = Some x').
Proof.
  revert s; induction els as [| element els IH]; intros s Hv; simpl.
  - exists s; repeat split; eauto.
  - inversion Hv as [| ? ? [x Hx] Hrest]; subst.
    unfold bind at 1; unfold assign_angle at 1.
    unfold bind, reads, element_angle_of, node_set; cbn [document trace].
    set (w := text_of_float (apply_flip flip v)).
    set (s1 := mkState _ _).
    assert (Hstep : ∀ p y, get_node p (document s) = Some y →
              ∃ y', get_node p (document s1) = Some y'
                    ∧ (a_angle (attrib y) = Some w → a_angle (attrib y') = Some w)
                    ∧ (p = el_node element → a_angle (attrib y') = Some w)).
    { intros p y Hy; unfold s1; cbn [document].
      destruct (get_node_alter_attrib (set_angle w) p (el_node element) _ y Hy)
        as (y' & Hy' & Ha & _).
      exists y'; split; [exact Hy' |]; rewrite Ha.
      destruct (decide (p = el_node element)); split; simpl; auto; contradiction. }
    destruct (IH s1) as (s' & Hrun & Hall & Hkeep & Hvalid).
    { eapply Forall_impl; [exact Hrest |].
      intros e' [y Hy]; destruct (Hstep _ _ Hy) as (y' & Hy' & _); eauto. }
    exists s'; split; [exact Hrun |]; split; [| split].
    + constructor; [| exact Hall].
      apply Hkeep; destruct (Hstep _ _ Hx) as (y' & Hy' & _ & Hset).
      exists y'; split; [exact Hy' | apply Hset; reflexivity].
    + intros p (y & Hy & Ha); apply Hkeep.
      destruct (Hstep _ _ Hy) as (y' & Hy' & Hpres & _); exists y'; auto.
    + intros p y Hy; destruct (Hstep _ _ Hy) as (y' & Hy' & _); eapply Hvalid; eauto.
Qed.

Lemma for_each_app {A} (g : A → M unit) (l1 l2 : list A) (s : State) :
  for_each g (l1 ++ l2) s
  = match for_each g l1 s with
    | (Ok _, s1) => for_each g l2 s1
    | (Raise e, s1) => (Raise e, s1)
    end.
Proof.
  revert s; induction l1 as [| x l1 IH]; intros s; simpl; [reflexivity |].
  unfold bind; destruct (g x s) as [[[] | e] s1]; [apply IH | reflexivity].
Qed.

(** A turn of the loop leaves the attributes of the other nodes as
    they are. *)
Lemma assign_angle_frame (cfa : option pyfloat) (flip : bool) (at_ : Transform.t)
    (element : Element) (s : State) (p : path) (y : Node) :
  p ≠ el_node element → get_node p (document s) = Some y →
  ∃ y', get_node p (document (snd (assign_angle cfa flip at_ element s))) = Some y'
        ∧ attrib y' = attrib y.
Proof.
  intros Hne Hy; unfold assign_angle, bind, reads.
  destruct (element_angle_of _ _ _ _) as [x |]; simpl; [| eauto].
  destruct (get_node_alter_attrib (set_angle (text_of_float (apply_flip flip x)))
              p (el_node element) _ y Hy) as (y' & Hy' & Ha & _).
  rewrite decide_False in Ha by exact Hne; eauto.
Qed.

Lemma loop_frame (cfa : option pyfloat) (flip : bool) (at_ : Transform.t)
    (l : list Element) (s : State) (p : path) (y : Node) :
  p ∉ map el_node l → get_node p (document s) = Some y →
  ∃ y', get_node p (document (snd (for_each (assign_angle cfa flip at_) l s))) = Some y'
        ∧ attrib y' = attrib y.
Proof.
  revert s y; induction l as [| element l IH]; intros s y Hp Hy; simpl; [eauto |].
  assert (Hne : p ≠ el_node element) by (intros ->; apply Hp; simpl; left).
  assert (Hrest : p ∉ map el_node l) by (intros Hin; apply Hp; simpl; right; exact Hin).
  destruct (assign_angle_frame cfa flip at_ element s p y Hne Hy) as (y1 & Hy1 & Ha1).
  unfold bind; destruct (assign_angle cfa flip at_ element s) as [[[] | e] s1];
    simpl in *; [| eauto].
  destruct (IH s1 y1 Hrest Hy1) as (y' & Hy' & Ha'); exists y'; split; [exact Hy' |].
  congruence.
Qed.

(** In either mode, when the loop completes, an element whose node no
    other element wraps carries its angle, as lines 132-139 compute it
    from the node before the loop, negated under the flip. *)
Lemma loop_unshared (cfa : option pyfloat) (flip : bool) (at_ : Transform.t)
    (l1 l2 : list Element) (element : Element) (s s' : State) (y : Node) :
  for_each (assign_angle cfa flip at_) (l1 ++ element :: l2) s = (Ok tt, s') →
  el_node element ∉ map el_node l1 →
  el_node element ∉ map el_node l2 →
  get_node (el_node element) (document s) = Some y →
  ∃ w, element_angle_of (document s) cfa at_ element = Ok w
       ∧ carries (text_of_float (apply_flip flip w)) (document s') (el_node element).
Proof.
  intros Hrun H1 H2 Hy; rewrite for_each_app in Hrun.
  destruct (loop_frame cfa flip at_ l1 s _ y H1 Hy) as (ya & Hya & Haa).
  destruct (for_each (assign_angle cfa flip at_) l1 s) as [[[] | e] sa];
    [| discriminate]; simpl in Hya, Hrun.
  unfold bind in Hrun.
  destruct (assign_angle cfa flip at_ element sa) as [[[] | e] sb] eqn:Hassign;
    [| discriminate].
  assert (Hsame : element_angle_of (document sa) cfa at_ element
                  = element_angle_of (document s) cfa at_ element).
  { unfold element_angle_of, element_node; rewrite Hya, Hy; simpl; rewrite Haa.
    reflexivity. }
  revert Hassign; unfold assign_angle, bind, reads; rewrite Hsame.
  destruct (element_angle_of (document s) cfa at_ element) as [w |]; [| discriminate].
  unfold node_set; intros [= <-].
  exists w; split; [reflexivity |].
  destruct (get_node_alter_attrib (set_angle (text_of_float (apply_flip flip w)))
              (el_node element) (el_node element) _ ya Hya) as (yb & Hyb & Hab & _).
  rewrite decide_True in Hab by reflexivity.
  set (sb := mkState _ _) in Hrun.
  destruct (loop_frame cfa flip at_ l2 sb _ yb H2 Hyb) as (y' & Hy' & Ha').
  rewrite Hrun in Hy'; simpl in Hy'.
  exists y'; split; [exact Hy' |]; rewrite Ha', Hab; reflexivity.
Qed.
End Angles.

(** C4: when [clone_fill_angle] is set, the elements yielded are those
    [clone_to_elements] makes of the duplicate as line 118 leaves it,
    the block runs on them, and the node of every one of them carries
    [clone_fill_angle], negated when [flip_angle] is true, whatever its
    own angle and the transforms.  In both modes a turn of the loop
    leaves on the element's node the element's angle negated when
    [flip_angle] is true, and when the loop completes an element whose
    node no other element wraps still carries it. *)
Theorem override_angle_assigned `{Collaborators}
    (root : Node) (self sp pp : path) (tg : string) (v : pyfloat)
    (t0 : list Mutation) :
  get_clone_source root self = Ok (Some sp) →
  node_tag root (Some sp) = Ok tg →
  eligible tg = true →
  getparent self = Some pp →
  clone_fill_angle root self = Some v →
  ∃ pn x y elements s,
    get_node pp root = Some pn ∧ get_node self root = Some x
    ∧ get_node sp root = Some y ∧
    let cp := pp ++ [length (children pn)] in
    let product :=
      Transform.matmul (default Transform.identity (shown (node_transform x)))
                       (default Transform.identity (shown (node_transform y))) in
    let duplicate := with_attrib (put_transform (shown product)) y in
    let placed := alter_node (append_child duplicate) pp (reserialize_at [self] root) in
    get_node cp placed = Some duplicate
    ∧ clone_to_elements placed (Some cp) = Ok elements
    ∧ clone_elements_setup self sp cp (entered root pp cp y t0) = (Ok elements, s)
    ∧ Forall (fun element =>
                carries (text_of_float (if flip_angle root self then float_neg v else v))
                        (document s) (el_node element)) elements
    ∧ (∀ B (body : list Element → Node → result B),
         fst (clone_elements self body (mkState root t0)) = body elements (document s))
    ∧ (∀ cfa flip at_ element s0 w y0,
         get_node (el_node element) (document s0) = Some y0 →
         element_angle_of (document s0) cfa at_ element = Ok w →
         fst (assign_angle cfa flip at_ element s0) = Ok tt
         ∧ carries (text_of_float (if flip then float_neg w else w))
                   (document (snd (assign_angle cfa flip at_ element s0)))
                   (el_node element))
    ∧ (∀ cfa flip at_ l1 element l2 s0 s' y0,
         for_each (assign_angle cfa flip at_) (l1 ++ element :: l2) s0 = (Ok tt, s') →
         el_node element ∉ map el_node l1 →
         el_node element ∉ map el_node l2 →
         get_node (el_node element) (document s0) = Some y0 →
         ∃ w, element_angle_of (document s0) cfa at_ element = Ok w
              ∧ carries (text_of_float (if flip then float_neg w else w))
                        (document s') (el_node element)).
Proof.
  intros Hsrc Htag Hel Hpar Hcfa.
  destruct (get_clone_source_valid _ _ _ Hsrc) as ((x & Hx & _) & (y & Hy) & _).
  destruct (getparent_valid _ _ _ _ Hx Hpar) as [pn Hpn].
  pose proof (setup_duplicate root self pp x y pn t0 Hpn) as Hdup.
  pose proof (setup_in_scope root self pp x y pn t0 Hpn) as Hin.
  pose proof (setup_unfold root self sp pp x y pn t0 Hx Hpn) as Hsetup.
  cbv zeta in Hdup, Hin, Hsetup.
  set (cp := pp ++ [length (children pn)]) in *.
  set (s2 := mkState _ _) in *.
  destruct (clone_to_elements_total _ _ _ Hdup) as [els Hels].
  destruct (in_scope_params root pp cp self _ x s2 Hin Hx) as [_ Hf].
  destruct (override_loop v (flip_angle root self) Transform.identity els s2
              (clone_to_elements_valid _ _ _ Hels)) as (s' & Hrun & Hall & _).
  assert (Hyield : clone_elements_setup self sp cp (entered root pp cp y t0) = (Ok els, s')).
  { rewrite Hsetup, Hcfa; unfold bind, ret, reads, gets.
    rewrite Hels, Hf, Hrun; reflexivity. }
  exists pn, x, y, els, s'.
  split; [exact Hpn |]; split; [exact Hx |]; split; [exact Hy |]; cbv zeta; fold cp.
  split; [exact Hdup |]; split; [exact Hels |]; split; [exact Hyield |].
  split; [exact Hall |]; split; [| split].
  - intros B body.
    destruct (clone_elements_scope root self sp pp tg body t0 Hsrc Htag Hel Hpar)
      as (pn' & sets & Hpn' & _ & _ & _ & Hbody).
    rewrite Hpn in Hpn'; injection Hpn' as <-.
    cbv zeta in Hbody; rewrite Hy in Hbody.
    change (default empty_node (Some y)) with y in Hbody; fold cp in Hbody.
    rewrite Hbody, Hyield; reflexivity.
  - intros cfa flip at_ element s0 w y0 Hy0 Hw.
    destruct (assign_angle_turn cfa flip at_ element s0 w y0 Hy0 Hw) as (Hok & Hc & _).
    auto.
  - intros cfa flip at_ l1 element l2 s0 s1 y0 Hloop H1 H2 Hy0.
    exact (loop_unshared cfa flip at_ l1 l2 element s0 s1 y0 Hloop H1 H2 Hy0).
Qed.

Lemma override_angle_assigned_witness :
  ∃ pn x y elements s,
    get_node [] doc_override_path = Some pn ∧ get_node [1] doc_override_path = Some x
    ∧ get_node [0] doc_override_path = Some y ∧
    let cp := [] ++ [length (children pn)] in
    let product :=
      Transform.matmul
        (default Transform.identity (shown (H := example_collaborators) (node_transform x)))
        (default Transform.identity (shown (H := example_collaborators) (node_transform y))) in
    let duplicate :=
      with_attrib (put_transform (shown (H := example_collaborators) product)) y in
    let placed :=
      alter_node (append_child duplicate) []
        (reserialize_at (H := example_collaborators) [[1]] doc_override_path) in
    get_node cp placed = Some duplicate
    ∧ clone_to_elements (H := example_collaborators) placed (Some cp) = Ok elements
    ∧ clone_elements_setup (H := example_collaborators) [1] [0] cp
        (entered doc_override_path [] cp y [])
      = (Ok elements, s)
    ∧ Forall (fun element =>
                carries (NumText (- (45))) (document s) (el_node element)) elements.
Proof.
  destruct (override_angle_assigned (H := example_collaborators)
              doc_override_path [1] [0] [] SVG_PATH_TAG (Finite 45) []
              eq_refl eq_refl eq_refl eq_refl eq_refl)
    as (pn & x & y & elements & s & Hpn & Hx & Hy & Hrest).
  exists pn, x, y, elements, s.
  split; [exact Hpn |]; split; [exact Hx |]; split; [exact Hy |].
  cbv zeta in Hrest |- *.
  destruct Hrest as (H1 & H2 & H3 & H4 & _).
  split; [exact H1 |]; split; [exact H2 |]; split; [exact H3 |exact H4].
Defined.

(** With the angle 45 and the flip set, the elements of the duplicate
    are yielded carrying -45; the stroke then fails to stitch, the
    failure reaches the caller and the duplicate is gone. *)
Lemma to_stitch_groups_failure_partway :
  to_stitch_groups (H := example_collaborators) [1] None (mkState doc_override_path [])
  = (Raise (Failure 7),
     mkState doc_override_path
       [MAdd [2]; MRewrite [1]; MRewrite [2]; MSet [2] "transform";
        MSet [2] ANGLE; MSet [2] ANGLE; MRemove [2]]).
Proof.
  run_enter; run_setup; run_text.
  rewrite ?path_embroiderable.
  cbn -[derived_angle Transform.matmul node_remove shown].
  run_assign.
  unfold node_remove; cbn -[shown].
  unfold doc_override_path, drawing, shape, with_children, with_attrib;
    cbn -[shown]; rewrite ?shown_identity; reflexivity.
Qed.

Lemma clone_elements_override_yield :
  clone_elements (H := example_collaborators) [1] report_angles
    (mkState doc_override_path [])
  = (Ok [([2], Some (NumText (- (45)))); ([2], Some (NumText (- (45))))],
     mkState doc_override_path
       [MAdd [2]; MRewrite [1]; MRewrite [2]; MSet [2] "transform";
        MSet [2] ANGLE; MSet [2] ANGLE; MRemove [2]]).
Proof.
  run_enter; run_setup; run_text.
  rewrite ?path_embroiderable.
  cbn -[derived_angle Transform.matmul node_remove shown].
  run_assign.
  unfold node_remove; cbn -[shown].
  unfold doc_override_path, drawing, shape, with_children, with_attrib;
    cbn -[shown]; rewrite ?shown_identity; reflexivity.
Qed.

(** *** The derived mode on a node that makes two elements *)

Lemma degrees_of_angle_polar (v : R * R) (ρ : R) :
  (- PI < ρ <= PI)%R → fst v = cos ρ → snd v = sin ρ →
  Transform.degrees_of_angle v = Ok (Transform.degrees ρ).
Proof.
  destruct v as [x y]; simpl; intros Hρ -> ->.
  unfold Transform.degrees_of_angle.
  rewrite TransformFacts.vector_angle_unit, TransformFacts.atan2_sin_cos by exact Hρ.
  reflexivity.
Qed.

Lemma derived_quarter_turn_0 : derived_angle quarter_turn 0 = Ok (-90)%R.
Proof.
  pose proof PI_RGT_0 as Hpi.
  unfold derived_angle.
  rewrite (degrees_of_angle_polar _ (PI / 2)).
  - f_equal; unfold Transform.degrees; field; lra.
  - lra.
  - unfold quarter_turn, Transform.rotate, Transform.radians; simpl.
    replace (- 0 * PI / 180)%R with 0%R by field.
    rewrite sin_0, cos_0, cos_PI2; ring.
  - unfold quarter_turn, Transform.rotate, Transform.radians; simpl.
    replace (- 0 * PI / 180)%R with 0%R by field.
    rewrite sin_0, cos_0, sin_PI2; ring.
Qed.

Lemma derived_quarter_turn_90 : derived_angle quarter_turn (-90) = Ok (-180)%R.
Proof.
  pose proof PI_RGT_0 as Hpi.
  unfold derived_angle.
  rewrite (degrees_of_angle_polar _ PI).
  - f_equal; unfold Transform.degrees; field; lra.
  - lra.
  - unfold quarter_turn, Transform.rotate, Transform.radians; simpl.
    replace (- -90 * PI / 180)%R with (PI / 2)%R by field.
    rewrite sin_PI2, cos_PI2, cos_PI; ring.
  - unfold quarter_turn, Transform.rotate, Transform.radians; simpl.
    replace (- -90 * PI / 180)%R with (PI / 2)%R by field.
    rewrite sin_PI2, cos_PI2, sin_PI; ring.
Qed.

Lemma shown_quarter_turn : shown (H := example_collaborators) quarter_turn = Some quarter_turn.
Proof. exact (shown_exact _ truthy_quarter_turn). Qed.

Ltac solve_stable :=
  let p := fresh "p" in
  let x := fresh "x" in
  let Hp := fresh "Hp" in
  intros p x Hp;
  repeat (destruct p as [| [| [| [| ?]]] p]; simpl in Hp; try discriminate Hp);
  injection Hp as <-;
  first [ exact shown_identity | exact shown_quarter_turn ].

Lemma stable_doc_turned_during : stable (H := example_collaborators) doc_turned_during.
Proof. solve_stable. Qed.

Lemma stable_doc_turned_rect_during :
  stable (H := example_collaborators) doc_turned_rect_during.
Proof. solve_stable. Qed.

Lemma turned_angle_transform_of :
  angle_transform_of (composed_transform doc_turned_during [0])
                     (composed_transform doc_turned_during [2])
  = Ok quarter_turn.
Proof.
  unfold angle_transform_of, Transform.neg.
  destruct (Req_dec_T _ 0) as [Hz | Hnz].
  - exfalso; revert Hz.
    unfold composed_transform, node_transform, Transform.det; simpl; lra.
  - f_equal; clear Hnz.
    unfold composed_transform, node_transform, Transform.inverse, Transform.det,
      Transform.strip_translation, Transform.matmul, Transform.identity,
      quarter_turn; simpl.
    apply TransformFacts.eq_mk; field; lra.
Qed.

(** Lines 122-125 on [doc_turned_during]: the angle transform is the
    quarter turn, and the reads leave the document as it is. *)
Lemma turned_angle_transform (t : list Mutation) :
  angle_transform (H := example_collaborators) [0] [2] (mkState doc_turned_during t)
  = (Ok quarter_turn,
     mkState doc_turned_during
       (t ++ [MRewrite []; MRewrite [0]; MRewrite []; MRewrite [2]])).
Proof.
  rewrite angle_transform_run; cbv zeta; cbn [document trace].
  rewrite !(reserialize_at_stable _ _ stable_doc_turned_during).
  rewrite turned_angle_transform_of; reflexivity.
Qed.

Lemma turned_rect_angle_transform (t : list Mutation) :
  angle_transform (H := example_collaborators) [0] [2] (mkState doc_turned_rect_during t)
  = (Ok quarter_turn,
     mkState doc_turned_rect_during
       (t ++ [MRewrite []; MRewrite [0]; MRewrite []; MRewrite [2]])).
Proof.
  rewrite angle_transform_run; cbv zeta; cbn [document trace].
  rewrite !(reserialize_at_stable _ _ stable_doc_turned_rect_during).
  change (composed_transform doc_turned_rect_during [0])
    with (composed_transform doc_turned_during [0]).
  change (composed_transform doc_turned_rect_during [2])
    with (composed_transform doc_turned_during [2]).
  rewrite turned_angle_transform_of; reflexivity.
Qed.

(** The document after line 118 has run for the clone of a document of
    the examples. *)
Ltac placed_is d :=
  match goal with
  | |- context [angle_transform [0] [2] (mkState ?placed ?t)] =>
      replace placed with d
        by (symmetry;
            unfold d, doc_turned, doc_turned_rect, drawing, shape, use,
              with_children, with_attrib;
            cbn -[shown]; rewrite ?shown_quarter_turn, ?shown_identity; reflexivity)
  end.

Ltac run_exit d :=
  unfold node_remove; cbn -[shown];
  unfold d, doc_turned_during, doc_turned_rect_during, drawing, shape, use,
    with_children, with_attrib;
  cbn -[shown]; rewrite ?shown_quarter_turn, ?shown_identity; reflexivity.

(** A node that makes one element: the element is yielded with the
    derived angle of its declared angle. *)
Lemma derived_angle_single_element :
  clone_elements (H := example_collaborators) [1] report_angles
    (mkState doc_turned_rect [])
  = (Ok [([2], Some (NumText (-90)))],
     mkState doc_turned_rect
       [MAdd [2]; MRewrite [1]; MRewrite [2]; MSet [2] "transform";
        MRewrite []; MRewrite [0]; MRewrite []; MRewrite [2];
        MSet [2] ANGLE; MRemove [2]]).
Proof.
  run_enter; run_setup; run_text.
  rewrite ?shown_quarter_turn.
  cbn -[shown Transform.matmul tag_in String.eqb node_remove for_each
        angle_transform derived_angle].
  rewrite ?TransformFacts.matmul_identity_r, ?shown_quarter_turn.
  placed_is doc_turned_rect_during.
  rewrite turned_rect_angle_transform.
  cbn -[derived_angle Transform.matmul node_remove shown tag_in String.eqb].
  rewrite rect_embroiderable, rect_not_path.
  cbn -[derived_angle Transform.matmul node_remove shown].
  run_assign.
  rewrite derived_quarter_turn_0.
  cbn -[derived_angle Transform.matmul node_remove shown].
  run_exit doc_turned_rect.
Qed.

(** C2 (the code at the failing input): a path with a fill and a stroke
    makes two elements on one node.  For a clone turned by a quarter of
    a turn and a declared angle of 0 the angle transform is the quarter
    turn and the derived angle is -90, but the loop runs once per
    element on the shared node: the second turn reads the -90 written
    by the first and both elements are yielded carrying -180. *)
Theorem derived_angle_applied_twice :
  fst (angle_transform (H := example_collaborators) [0] [2] (mkState doc_turned_during []))
  = Ok quarter_turn
  ∧ float_of_angle (a_angle (attrib (shape SVG_PATH_TAG None))) = Ok (Finite 0)
  ∧ derived_angle quarter_turn 0 = Ok (-90)%R
  ∧ clone_elements (H := example_collaborators) [1] report_angles
      (mkState doc_turned [])
    = (Ok [([2], Some (NumText (-180))); ([2], Some (NumText (-180)))],
       mkState doc_turned
         [MAdd [2]; MRewrite [1]; MRewrite [2]; MSet [2] "transform";
          MRewrite []; MRewrite [0]; MRewrite []; MRewrite [2];
          MSet [2] ANGLE; MSet [2] ANGLE; MRemove [2]]).
Proof.
  split; [rewrite turned_angle_transform; reflexivity |].
  split; [reflexivity |].
  split; [exact derived_quarter_turn_0 |].
  run_enter; run_setup; run_text.
  rewrite ?shown_quarter_turn.
  cbn -[shown Transform.matmul tag_in String.eqb node_remove for_each
        angle_transform derived_angle].
  rewrite ?TransformFacts.matmul_identity_r, ?shown_quarter_turn.
  placed_is doc_turned_during.
  rewrite turned_angle_transform.
  cbn -[derived_angle Transform.matmul node_remove shown tag_in String.eqb].
  rewrite path_embroiderable, String.eqb_refl.
  cbn -[derived_angle Transform.matmul node_remove shown].
  run_assign.
  rewrite derived_quarter_turn_0.
  cbn -[derived_angle Transform.matmul node_remove shown].
  rewrite derived_quarter_turn_90.
  cbn -[derived_angle Transform.matmul node_remove shown].
  run_exit doc_turned.
Qed.

(** ** Further properties of the transform helpers *)

Module AngleFacts.
Import Transform.
Local Open Scope R_scope.

Lemma det_matmul (A B : t) : det (matmul A B) = det A * det B.
Proof. destruct A, B; unfold det, matmul; simpl; ring. Qed.

Lemma inverse_matmul (A B : t) :
  det A ≠ 0 → det B ≠ 0 →
  inverse (matmul A B) = matmul (inverse B) (inverse A).
Proof.
  destruct A as [a1 b1 c1 d1 e1 f1], B as [a2 b2 c2 d2 e2 f2].
  unfold inverse, matmul, det; simpl; intros HA HB.
  assert (HAB : (a1 * a2 + c1 * b2) * (b1 * c2 + d1 * d2)
                - (a1 * c2 + c1 * d2) * (b1 * a2 + d1 * b2) ≠ 0).
  { replace ((a1 * a2 + c1 * b2) * (b1 * c2 + d1 * d2)
             - (a1 * c2 + c1 * d2) * (b1 * a2 + d1 * b2))
      with ((a1 * d1 - c1 * b1) * (a2 * d2 - c2 * b2)) by ring.
    apply Rmult_integral_contrapositive; split; assumption. }
  apply TransformFacts.eq_mk; field; repeat split; assumption.
Qed.

Lemma flipped_iff_det (A : t) : is_transform_flipped A = true ↔ det A < 0.
Proof.
  unfold is_transform_flipped, det.
  destruct (Rlt_dec _ _) as [Hlt | Hge]; split; intros Hx;
    try reflexivity; try discriminate; lra.
Qed.

Lemma flipped_false_iff_det (A : t) : is_transform_flipped A = false ↔ 0 <= det A.
Proof.
  unfold is_transform_flipped, det.
  destruct (Rlt_dec _ _) as [Hlt | Hge]; split; intros Hx;
    try reflexivity; try discriminate; lra.
Qed.

Lemma atan_range (x : R) : - (PI / 2) < atan x < PI / 2.
Proof. pose proof (atan_bound x); lra. Qed.

Lemma atan_sign_neg (x : R) : x <= 0 → atan x <= 0.
Proof.
  intros [Hlt | ->]; [| rewrite atan_0; lra].
  left; rewrite <- atan_0; apply atan_increasing; exact Hlt.
Qed.

Lemma atan_sign_pos (x : R) : 0 < x → 0 < atan x.
Proof. intros Hx; rewrite <- atan_0; apply atan_increasing; exact Hx. Qed.

(** [atan2] of a vector that is not null lies in [(-PI, PI]]. *)
Lemma atan2_range (y x : R) : - PI < atan2 y x <= PI.
Proof.
  pose proof PI_RGT_0 as Hpi; unfold atan2.
  destruct (Rlt_dec 0 x) as [Hx | Hx].
  - pose proof (atan_range (y / x)); lra.
  - destruct (Rlt_dec x 0) as [Hx' | Hx'].
    + destruct (Rle_dec 0 y) as [Hy | Hy].
      * assert (atan (y / x) <= 0).
        { apply atan_sign_neg; unfold Rdiv.
          assert (/ x < 0) by (apply Rinv_lt_0_compat; exact Hx'); nra. }
        pose proof (atan_range (y / x)); lra.
      * assert (0 < atan (y / x)).
        { apply atan_sign_pos; unfold Rdiv.
          assert (/ x < 0) by (apply Rinv_lt_0_compat; exact Hx'); nra. }
        pose proof (atan_range (y / x)); lra.
    + destruct (Rlt_dec 0 y); [lra |]; destruct (Rlt_dec y 0); lra.
Qed.

(** [atan2] does not change when both coordinates are multiplied by
    the same positive number. *)
Lemma atan2_scale (s y x : R) : 0 < s → atan2 (s * y) (s * x) = atan2 y x.
Proof.
  intros Hs; unfold atan2.
  destruct (Rlt_dec 0 x) as [Hx | Hx].
  - destruct (Rlt_dec 0 (s * x)) as [| Hn]; [| exfalso; nra].
    f_equal; field; lra.
  - destruct (Rlt_dec 0 (s * x)) as [Hp |]; [exfalso; nra |].
    destruct (Rlt_dec x 0) as [Hx' | Hx'].
    + destruct (Rlt_dec (s * x) 0) as [| Hn]; [| exfalso; nra].
      replace (s * y / (s * x)) with (y / x) by (field; lra).
      destruct (Rle_dec 0 y), (Rle_dec 0 (s * y)); try reflexivity; exfalso; nra.
    + destruct (Rlt_dec (s * x) 0) as [Hp |]; [exfalso; nra |].
      destruct (Rlt_dec 0 y), (Rlt_dec 0 (s * y)); try reflexivity; try (exfalso; nra).
      destruct (Rlt_dec y 0), (Rlt_dec (s * y) 0); try reflexivity; exfalso; nra.
Qed.

Lemma degrees_of_angle_scale (s : R) (v w : R * R) :
  0 < s → fst v = s * fst w → snd v = s * snd w →
  degrees_of_angle v = degrees_of_angle w.
Proof.
  destruct v as [vx vy], w as [wx wy]; simpl; intros Hs -> ->.
  unfold degrees_of_angle, vector_angle; simpl.
  destruct (Req_dec_T wx 0) as [Hx | Hx], (Req_dec_T (s * wx) 0) as [Hsx | Hsx];
    try (exfalso; nra).
  - destruct (Req_dec_T wy 0) as [Hy | Hy], (Req_dec_T (s * wy) 0) as [Hsy | Hsy];
      try (exfalso; nra); [reflexivity |].
    rewrite atan2_scale by exact Hs; reflexivity.
  - rewrite atan2_scale by exact Hs; reflexivity.
Qed.

Lemma degrees_of_angle_ext (v w : R * R) :
  fst v = fst w → snd v = snd w → degrees_of_angle v = degrees_of_angle w.
Proof. destruct v, w; simpl; intros -> ->; reflexivity. Qed.

(** The polar angle, in degrees, of the unit vector at [θ] degrees. *)
Lemma degrees_of_angle_unit (v : R * R) (θ : R) (k : Z) :
  fst v = cos (radians θ) → snd v = sin (radians θ) →
  -180 < θ + 360 * IZR k <= 180 →
  degrees_of_angle v = Ok (θ + 360 * IZR k).
Proof.
  intros Hx Hy Hrange; pose proof PI_RGT_0 as Hpi.
  destruct (TransformFacts.sin_cos_period_Z (radians θ) k) as [Hs Hc].
  replace (radians θ + 2 * IZR k * PI) with (radians (θ + 360 * IZR k)) in Hs, Hc
    by (unfold radians; field).
  rewrite <- Hc in Hx; rewrite <- Hs in Hy.
  rewrite (degrees_of_angle_polar v (radians (θ + 360 * IZR k))); auto.
  - rewrite TransformFacts.radians_degrees; reflexivity.
  - unfold radians; destruct Hrange; split; nra.
Qed.

Lemma degrees_of_angle_range (v : R * R) :
  match degrees_of_angle v with
  | Ok x => -180 < x <= 180 ∧ ¬ (fst v = 0 ∧ snd v = 0)
  | Raise e => e = TypeError ∧ fst v = 0 ∧ snd v = 0
  end.
Proof.
  pose proof PI_RGT_0 as Hpi.
  assert (Hdeg : ∀ y x, -180 < degrees (atan2 y x) <= 180).
  { intros y x; pose proof (atan2_range y x) as [Hlo Hhi]; unfold degrees; split.
    - apply Rmult_lt_reg_r with (PI / 180); [lra |].
      replace (atan2 y x * 180 / PI * (PI / 180)) with (atan2 y x) by (field; lra).
      lra.
    - apply Rmult_le_reg_r with (PI / 180); [lra |].
      replace (atan2 y x * 180 / PI * (PI / 180)) with (atan2 y x) by (field; lra).
      lra. }
  destruct v as [x y]; unfold degrees_of_angle, vector_angle; simpl.
  destruct (Req_dec_T x 0) as [Hx | Hx].
  - destruct (Req_dec_T y 0) as [Hy | Hy]; [auto |].
    split; [apply Hdeg | intros [_ ?]; contradiction].
  - split; [apply Hdeg | intros [? _]; contradiction].
Qed.

Lemma rotate_compose (α β : R) :
  matmul (rotate α) (rotate β) = rotate (α + β).
Proof.
  unfold matmul, rotate; simpl.
  replace (radians (α + β)) with (radians α + radians β) by (unfold radians; field).
  rewrite cos_plus, sin_plus; apply TransformFacts.eq_mk; ring.
Qed.

Lemma degrees_radians (x : R) : radians (degrees x) = x.
Proof. unfold degrees, radians; field; apply PI_neq0. Qed.

Lemma cos_atan_pos (z : R) : 0 < cos (atan z).
Proof. apply cos_gt_0; pose proof (atan_bound z); lra. Qed.

Lemma sin_atan_ratio (y x : R) :
  x ≠ 0 → x * sin (atan (y / x)) = y * cos (atan (y / x)).
Proof.
  intros Hx; pose proof (cos_atan_pos (y / x)) as Hc.
  pose proof (tan_atan (y / x)) as Ht; unfold tan in Ht.
  apply (Rmult_eq_compat_r (x * cos (atan (y / x)))) in Ht.
  field_simplify in Ht; lra.
Qed.

(** A vector that is not null is a positive multiple of the unit
    vector at its polar angle. *)
Lemma atan2_polar (y x : R) :
  ¬ (x = 0 ∧ y = 0) →
  ∃ ρ, 0 < ρ ∧ x = ρ * cos (atan2 y x) ∧ y = ρ * sin (atan2 y x).
Proof.
  intros Hnz; unfold atan2.
  pose proof (cos_atan_pos (y / x)) as Hc.
  destruct (Rlt_dec 0 x) as [Hx | Hx].
  - pose proof (sin_atan_ratio y x ltac:(lra)) as Hs.
    exists (x / cos (atan (y / x))); split; [| split].
    + apply Rdiv_lt_0_compat; assumption.
    + field; lra.
    + replace (x / cos (atan (y / x)) * sin (atan (y / x)))
        with (x * sin (atan (y / x)) / cos (atan (y / x))) by (field; lra).
      rewrite Hs; field; lra.
  - destruct (Rlt_dec x 0) as [Hx' | Hx'].
    + pose proof (sin_atan_ratio y x ltac:(lra)) as Hs.
      assert (Hρ : 0 < - x / cos (atan (y / x)))
        by (apply Rdiv_lt_0_compat; lra).
      assert (Hy : y = - x / cos (atan (y / x)) * - sin (atan (y / x))).
      { replace (- x / cos (atan (y / x)) * - sin (atan (y / x)))
          with (x * sin (atan (y / x)) / cos (atan (y / x))) by (field; lra).
        rewrite Hs; field; lra. }
      exists (- x / cos (atan (y / x))); split; [exact Hρ |].
      destruct (Rle_dec 0 y).
      * rewrite neg_cos, neg_sin; split; [field; lra | exact Hy].
      * replace (atan (y / x) - PI) with (- (PI - atan (y / x))) by ring.
        rewrite cos_neg, sin_neg.
        replace (PI - atan (y / x)) with (- atan (y / x) + PI) by ring.
        rewrite neg_cos, neg_sin, cos_neg, sin_neg.
        split; [field; lra |].
        rewrite Hy at 1; ring.
    + assert (Hx0 : x = 0) by lra.
      destruct (Rlt_dec 0 y) as [Hy | Hy].
      * exists y; rewrite cos_PI2, sin_PI2; split; [exact Hy | split; lra].
      * destruct (Rlt_dec y 0) as [Hy' | Hy'].
        -- exists (- y); rewrite cos_neg, sin_neg, cos_PI2, sin_PI2.
           split; [lra | split; lra].
        -- exfalso; apply Hnz; split; lra.
Qed.

(** The polar angle in degrees: it lies in (-180, 180] and the vector
    points in its direction. *)
Lemma degrees_of_angle_polar_form (v : R * R) :
  match degrees_of_angle v with
  | Ok x => -180 < x <= 180
            ∧ ∃ ρ, 0 < ρ ∧ fst v = ρ * cos (radians x) ∧ snd v = ρ * sin (radians x)
  | Raise e => e = TypeError ∧ fst v = 0 ∧ snd v = 0
  end.
Proof.
  pose proof (degrees_of_angle_range v) as Hr.
  destruct v as [x y]; unfold degrees_of_angle, vector_angle in *; simpl in *.
  destruct (Req_dec_T x 0) as [Hx | Hx].
  - destruct (Req_dec_T y 0) as [Hy | Hy]; [exact Hr |].
    destruct Hr as [Hr Hnz]; split; [exact Hr |].
    rewrite degrees_radians; apply atan2_polar; exact Hnz.
  - destruct Hr as [Hr Hnz]; split; [exact Hr |].
    rewrite degrees_radians; apply atan2_polar; exact Hnz.
Qed.
End AngleFacts.

(** X1: composing two transforms with non-zero determinants flips the
    orientation exactly when one of them, and only one, does. *)
Theorem is_transform_flipped_compose (A B : Transform.t) :
  Transform.det A ≠ 0%R → Transform.det B ≠ 0%R →
  is_transform_flipped (Transform.matmul A B)
  = xorb (is_transform_flipped A) (is_transform_flipped B).
Proof.
  intros HA HB.
  pose proof (AngleFacts.det_matmul A B) as Hdet.
  destruct (is_transform_flipped A) eqn:EA, (is_transform_flipped B) eqn:EB; simpl.
  - apply AngleFacts.flipped_iff_det in EA, EB.
    apply AngleFacts.flipped_false_iff_det; nra.
  - apply AngleFacts.flipped_iff_det in EA.
    apply AngleFacts.flipped_false_iff_det in EB.
    apply AngleFacts.flipped_iff_det; nra.
  - apply AngleFacts.flipped_false_iff_det in EA.
    apply AngleFacts.flipped_iff_det in EB.
    apply AngleFacts.flipped_iff_det; nra.
  - apply AngleFacts.flipped_false_iff_det in EA, EB.
    apply AngleFacts.flipped_false_iff_det; nra.
Qed.

Lemma is_transform_flipped_compose_witness :
  Transform.det (Transform.scale (-1) 1) ≠ 0%R
  ∧ Transform.det (Transform.rotate 30) ≠ 0%R
  ∧ is_transform_flipped (Transform.matmul (Transform.scale (-1) 1) (Transform.rotate 30))
    = xorb (is_transform_flipped (Transform.scale (-1) 1))
           (is_transform_flipped (Transform.rotate 30)).
Proof.
  assert (H1 : Transform.det (Transform.scale (-1) 1) ≠ 0%R)
    by (unfold Transform.det; simpl; lra).
  assert (H2 : Transform.det (Transform.rotate 30) ≠ 0%R).
  { unfold Transform.det; simpl.
    generalize (sin2_cos2 (Transform.radians 30)); unfold Rsqr; lra. }
  split; [exact H1 |]; split; [exact H2 |].
  exact (is_transform_flipped_compose _ _ H1 H2).
Defined.

Lemma angle_vector (t : Transform.t) :
  let t' := Transform.strip_translation t in
  let t'' := if is_transform_flipped t' then Transform.add_scale t' (-1) 1 else t' in
  (fst (Transform.apply_to_point t'' (1, 0))
   = (if is_transform_flipped t' then - Transform.a t else Transform.a t))%R
  ∧ (snd (Transform.apply_to_point t'' (1, 0))
     = (if is_transform_flipped t' then - Transform.b t else Transform.b t))%R.
Proof.
  destruct t as [a0 b0 c0 d0 e0 f0]; cbv zeta.
  destruct (is_transform_flipped _); simpl; split; ring.
Qed.

(** X2: [angle_for_transform] returns the polar angle, in degrees
    within [-180, 180], of the first column of the matrix, the column
    being negated first when the transform is flipped (it is then the
    image of (1, 0) under the transform composed with the mirror
    [scale(-1, 1)]); it raises, a [TypeError], exactly when that column
    is null. *)
Theorem angle_for_transform_range (t : Transform.t) :
  let column :=
    if is_transform_flipped (Transform.strip_translation t)
    then ((- Transform.a t)%R, (- Transform.b t)%R)
    else (Transform.a t, Transform.b t) in
  match angle_for_transform t with
  | Ok x =>
      (-180 <= x <= 180)%R
      ∧ ¬ (Transform.a t = 0%R ∧ Transform.b t = 0%R)
      ∧ ∃ ρ, (0 < ρ)%R
             ∧ (fst column = ρ * cos (Transform.radians x))%R
             ∧ (snd column = ρ * sin (Transform.radians x))%R
  | Raise e => e = TypeError ∧ Transform.a t = 0%R ∧ Transform.b t = 0%R
  end.
Proof.
  cbv zeta; unfold angle_for_transform.
  destruct (angle_vector t) as [Hx Hy]; cbv zeta in Hx, Hy.
  match goal with
  | |- context [Transform.degrees_of_angle ?v] =>
      pose proof (AngleFacts.degrees_of_angle_polar_form v) as Hr;
      destruct (Transform.degrees_of_angle v) as [x | e]
  end; rewrite Hx, Hy in Hr.
  - destruct Hr as [Hrange (ρ & Hρ & Hfst & Hsnd)].
    split; [lra |]; split.
    + intros [Ha Hb]; rewrite Ha, Hb in *.
      destruct (is_transform_flipped (Transform.strip_translation t));
        generalize (sin2_cos2 (Transform.radians x)); unfold Rsqr; nra.
    + exists ρ.
      destruct (is_transform_flipped (Transform.strip_translation t)); cbn [fst snd]; auto.
  - destruct Hr as (He & Ha & Hb); split; [exact He |].
    destruct (is_transform_flipped (Transform.strip_translation t)); split; lra.
Qed.

(** X3: neither a translation applied after a transform nor a uniform
    positive scaling applied before it changes the angle that
    [angle_for_transform] reports. *)
Theorem angle_for_transform_scale_translate (A : Transform.t) (s tx ty : R) :
  (0 < s)%R →
  angle_for_transform
    (Transform.matmul (Transform.translate tx ty)
                      (Transform.matmul A (Transform.scale s s)))
  = angle_for_transform A.
Proof.
  intros Hs; unfold angle_for_transform.
  set (B := Transform.matmul _ _).
  destruct (angle_vector B) as [HBx HBy], (angle_vector A) as [HAx HAy].
  cbv zeta in HBx, HBy, HAx, HAy.
  assert (Hflip : is_transform_flipped (Transform.strip_translation B)
                  = is_transform_flipped (Transform.strip_translation A)).
  { assert (Hd : Transform.det (Transform.strip_translation B)
                 = (s * s * Transform.det (Transform.strip_translation A))%R).
    { destruct A; unfold B, Transform.det; simpl; ring. }
    assert (0 < s * s)%R by nra.
    destruct (is_transform_flipped (Transform.strip_translation A)) eqn:EA.
    - apply AngleFacts.flipped_iff_det in EA; apply AngleFacts.flipped_iff_det; nra.
    - apply AngleFacts.flipped_false_iff_det in EA.
      apply AngleFacts.flipped_false_iff_det; nra. }
  apply (AngleFacts.degrees_of_angle_scale s); [exact Hs | |].
  - rewrite HBx, HAx, Hflip; clear.
    destruct (is_transform_flipped (Transform.strip_translation A));
      destruct A; unfold B; simpl; ring.
  - rewrite HBy, HAy, Hflip; clear.
    destruct (is_transform_flipped (Transform.strip_translation A));
      destruct A; unfold B; simpl; ring.
Qed.

Lemma angle_for_transform_scale_translate_witness :
  (0 < 3)%R
  ∧ angle_for_transform
      (Transform.matmul (Transform.translate 5 7)
                        (Transform.matmul quarter_turn (Transform.scale 3 3)))
    = angle_for_transform quarter_turn.
Proof.
  split; [lra |].
  apply (angle_for_transform_scale_translate quarter_turn 3 5 7); lra.
Defined.

Lemma mirrored_rotation_flipped (θ sx sy : R) :
  (sx * sy < 0)%R →
  is_transform_flipped
    (Transform.strip_translation (Transform.matmul (Transform.rotate θ) (Transform.scale sx sy)))
  = true.
Proof.
  intros Hm; apply AngleFacts.flipped_iff_det.
  unfold Transform.det; simpl.
  generalize (sin2_cos2 (Transform.radians θ)); unfold Rsqr; intros Hu.
  replace ((cos (Transform.radians θ) * sx + - sin (Transform.radians θ) * 0) *
           (sin (Transform.radians θ) * 0 + cos (Transform.radians θ) * sy) -
           (cos (Transform.radians θ) * 0 + - sin (Transform.radians θ) * sy) *
           (sin (Transform.radians θ) * sx + cos (Transform.radians θ) * 0))%R
    with (sx * sy * (sin (Transform.radians θ) * sin (Transform.radians θ)
                     + cos (Transform.radians θ) * cos (Transform.radians θ)))%R by ring.
  rewrite Hu; lra.
Qed.

(** X4: for a rotation by θ composed with a horizontal mirror,
    [angle_for_transform] undoes the mirror and reports θ; composed
    with a vertical mirror it reports θ + 180 (both brought into
    (-180, 180]). *)
Theorem angle_for_transform_mirrored (θ : R) :
  (∃ k : Z, (-180 < θ + 360 * IZR k <= 180)%R ∧
     angle_for_transform (Transform.matmul (Transform.rotate θ) (Transform.scale (-1) 1))
     = Ok (θ + 360 * IZR k)%R)
  ∧ (∃ k : Z, (-180 < θ + 180 + 360 * IZR k <= 180)%R ∧
       angle_for_transform (Transform.matmul (Transform.rotate θ) (Transform.scale 1 (-1)))
       = Ok (θ + 180 + 360 * IZR k)%R).
Proof.
  split.
  - destruct (TransformFacts.normalise_exists θ) as [k Hk]; exists k; split; [exact Hk |].
    unfold angle_for_transform; rewrite mirrored_rotation_flipped by lra.
    apply AngleFacts.degrees_of_angle_unit; [| | exact Hk]; simpl; ring.
  - destruct (TransformFacts.normalise_exists (θ + 180)) as [k Hk]; exists k;
      split; [exact Hk |].
    unfold angle_for_transform; rewrite mirrored_rotation_flipped by lra.
    assert (Hr : Transform.radians (θ + 180) = (Transform.radians θ + PI)%R)
      by (unfold Transform.radians; field).
    apply AngleFacts.degrees_of_angle_unit; [| | exact Hk];
      rewrite Hr, ?neg_cos, ?neg_sin; simpl; ring.
Qed.

(** ** Further properties of the derived angle *)

Lemma derived_vector (A : Transform.t) (a0 : R) :
  let r := Transform.radians (- a0) in
  let v := Transform.apply_to_point
             (Transform.matmul A (Transform.rotate (- a0))) (1%R, 0%R) in
  (fst v = Transform.a A * cos r + Transform.c A * sin r + Transform.e A)%R
  ∧ (snd v = Transform.b A * cos r + Transform.d A * sin r + Transform.f A)%R.
Proof. destruct A; cbv zeta; simpl; split; ring. Qed.

Lemma derived_rotation (φ a0 : R) (k : Z) :
  (-180 < φ - a0 + 360 * IZR k <= 180)%R →
  derived_angle (Transform.rotate φ) a0 = Ok (a0 - φ - 360 * IZR k)%R.
Proof.
  intros Hk; unfold derived_angle.
  rewrite AngleFacts.rotate_compose.
  rewrite (AngleFacts.degrees_of_angle_unit _ (φ + - a0) k).
  - f_equal; ring.
  - simpl; ring.
  - simpl; ring.
  - replace (φ + - a0)%R with (φ - a0)%R by ring; exact Hk.
Qed.

Lemma rotate_0 : Transform.rotate 0 = Transform.identity.
Proof.
  unfold Transform.rotate, Transform.identity, Transform.radians.
  replace (0 * PI / 180)%R with 0%R by field.
  rewrite sin_0, cos_0; apply TransformFacts.eq_mk; ring.
Qed.

(** X5: when the angle transform is the rotation by φ, the derived
    angle of an element that declares the angle [a0] is [a0 - φ],
    brought into [-180, 180) by a whole number of turns. *)
Theorem derived_angle_rotation (φ a0 : R) :
  ∃ k : Z, (-180 < φ - a0 + 360 * IZR k <= 180)%R ∧
    derived_angle (Transform.rotate φ) a0 = Ok (a0 - φ - 360 * IZR k)%R.
Proof.
  destruct (TransformFacts.normalise_exists (φ - a0)) as [k Hk]; exists k.
  split; [exact Hk | apply derived_rotation; exact Hk].
Qed.

(** X6: for an angle transform without translation, the derived angle
    lies within [-180, 180] and, negated, is the polar angle of the
    image of the unit vector under the angle transform composed with
    the rotation by the negated declared angle; the computation fails,
    with a [TypeError], only when the angle transform is singular. *)
Theorem derived_angle_range (A : Transform.t) (a0 : R) :
  let fill_vector :=
    Transform.apply_to_point
      (Transform.matmul (Transform.strip_translation A) (Transform.rotate (- a0)))
      (1%R, 0%R) in
  match derived_angle (Transform.strip_translation A) a0 with
  | Ok x =>
      (-180 <= x <= 180)%R
      ∧ ∃ ρ, (0 < ρ)%R
             ∧ (fst fill_vector = ρ * cos (Transform.radians (- x)))%R
             ∧ (snd fill_vector = ρ * sin (Transform.radians (- x)))%R
  | Raise e => e = TypeError ∧ Transform.det A = 0%R
  end.
Proof.
  cbv zeta; unfold derived_angle.
  destruct (derived_vector (Transform.strip_translation A) a0) as [Hx Hy].
  cbv zeta in Hx, Hy.
  match goal with
  | |- context [Transform.degrees_of_angle ?v] =>
      pose proof (AngleFacts.degrees_of_angle_polar_form v) as Hr;
      destruct (Transform.degrees_of_angle v) as [x | e]
  end.
  - destruct Hr as [Hr (ρ & Hρ & Hfst & Hsnd)]; split; [lra |].
    exists ρ; rewrite Ropp_involutive; auto.
  - destruct Hr as (He & Hvx & Hvy); split; [exact He |].
    rewrite Hx in Hvx; rewrite Hy in Hvy; clear Hx Hy.
    destruct A as [a1 b1 c1 d1 e1 f1]; unfold Transform.det; simpl in *.
    generalize (sin2_cos2 (Transform.radians (- a0))); unfold Rsqr.
    set (cs := cos _) in *; set (sn := sin _) in *; intros Hu.
    assert (H1 : ((a1 * d1 - c1 * b1) * cs = 0)%R).
    { replace ((a1 * d1 - c1 * b1) * cs)%R
        with (d1 * (a1 * cs + c1 * sn + 0) - c1 * (b1 * cs + d1 * sn + 0))%R by ring.
      rewrite Hvx, Hvy; ring. }
    assert (H2 : ((a1 * d1 - c1 * b1) * sn = 0)%R).
    { replace ((a1 * d1 - c1 * b1) * sn)%R
        with (a1 * (b1 * cs + d1 * sn + 0) - b1 * (a1 * cs + c1 * sn + 0))%R by ring.
      rewrite Hvx, Hvy; ring. }
    replace (a1 * d1 - c1 * b1)%R
      with ((a1 * d1 - c1 * b1) * (sn * sn + cs * cs))%R by (rewrite Hu; ring).
    replace ((a1 * d1 - c1 * b1) * (sn * sn + cs * cs))%R
      with (sn * ((a1 * d1 - c1 * b1) * sn) + cs * ((a1 * d1 - c1 * b1) * cs))%R by ring.
    rewrite H1, H2; ring.
Qed.

(** X7: scaling the angle transform uniformly by a positive factor
    does not change the derived angle. *)
Theorem derived_angle_scale (A : Transform.t) (s a0 : R) :
  (0 < s)%R →
  derived_angle (Transform.matmul (Transform.scale s s) A) a0 = derived_angle A a0.
Proof.
  intros Hs; unfold derived_angle.
  destruct (derived_vector (Transform.matmul (Transform.scale s s) A) a0) as [Hx Hy].
  destruct (derived_vector A a0) as [Hx' Hy'].
  cbv zeta in Hx, Hy, Hx', Hy'.
  rewrite (AngleFacts.degrees_of_angle_scale s _
             (Transform.apply_to_point
                (Transform.matmul A (Transform.rotate (- a0))) (1%R, 0%R)));
    [reflexivity | exact Hs | |].
  - rewrite Hx, Hx'; destruct A; simpl; ring.
  - rewrite Hy, Hy'; destruct A; simpl; ring.
Qed.

Lemma derived_angle_scale_witness :
  (0 < 2)%R
  ∧ derived_angle (Transform.matmul (Transform.scale 2 2) quarter_turn) 0
    = derived_angle quarter_turn 0.
Proof.
  split; [lra |].
  apply (derived_angle_scale quarter_turn 2 0); lra.
Defined.

(** ** Further properties of the materialization *)

Lemma getparent_snoc (self pp : path) :
  getparent self = Some pp → ∃ i, self = pp ++ [i].
Proof.
  revert pp; induction self as [| i self IH]; intros pp; simpl; [discriminate |].
  destruct self as [| j self'].
  - intros [= <-]; exists i; reflexivity.
  - destruct (getparent (j :: self')) as [pp' |] eqn:Hp; [| discriminate].
    intros [= <-]; destruct (IH pp' eq_refl) as [i' Hi']; exists i'.
    simpl; rewrite Hi'; reflexivity.
Qed.

Lemma getparent_of_snoc (pp : path) (i : nat) : getparent (pp ++ [i]) = Some pp.
Proof.
  induction pp as [| j pp IH]; simpl; [reflexivity |].
  rewrite IH; destruct (pp ++ [i]) eqn:Hp; [destruct pp; discriminate | reflexivity].
Qed.

Lemma composed_below_snoc (acc : Transform.t) (n x ci : Node) (p : path) (i : nat) :
  get_node p n = Some x → children x !! i = Some ci →
  composed_below acc n (p ++ [i])
  = Transform.matmul (composed_below acc n p) (node_transform ci).
Proof.
  revert acc n; induction p as [| j p IH]; intros acc n; simpl.
  - intros [= ->] ->; reflexivity.
  - destruct (children n !! j) as [cj |]; [| discriminate].
    intros Hx Hci; apply IH; assumption.
Qed.

Lemma composed_transform_snoc (root x ci : Node) (p : path) (i : nat) :
  get_node p root = Some x → children x !! i = Some ci →
  composed_transform root (p ++ [i])
  = Transform.matmul (composed_transform root p) (node_transform ci).
Proof. intros Hx Hci; unfold composed_transform; eapply composed_below_snoc; eauto. Qed.

Lemma composed_below_scope (c : Node) (p pp : path) (acc : Transform.t) (n x : Node) :
  get_node p n = Some x →
  composed_below acc (alter_node (append_child c) pp n) p = composed_below acc n p.
Proof.
  revert pp acc n; induction p as [| i p IH]; intros pp acc n; [reflexivity |]; simpl.
  destruct (children n !! i) as [ci |] eqn:Hci; [| discriminate].
  assert (Hnt : ∀ pp m, node_transform (alter_node (append_child c) pp m) = node_transform m).
  { intros [| j pp'] m; reflexivity. }
  intros Hx; destruct pp as [| j pp]; simpl.
  - rewrite (lookup_app_l_Some _ _ _ _ Hci); reflexivity.
  - destruct (decide (j = i)) as [-> | Hne].
    + rewrite list_lookup_alter_eq, Hci; simpl; rewrite Hnt; apply IH; exact Hx.
    + rewrite list_lookup_alter_ne, Hci by exact Hne; reflexivity.
Qed.

Lemma composed_transform_scope (c : Node) (p pp : path) (root x : Node) :
  get_node p root = Some x →
  composed_transform (alter_node (append_child c) pp root) p = composed_transform root p.
Proof.
  intros Hx; unfold composed_transform.
  rewrite (composed_below_scope c p pp _ root x Hx); f_equal.
  destruct pp; reflexivity.
Qed.

Lemma lineage_from_snoc (done rest : path) (k : nat) :
  lineage_from done (rest ++ [k]) = lineage_from done rest ++ [done ++ rest ++ [k]].
Proof.
  revert done; induction rest as [| i rest IH]; intros done; simpl; [reflexivity |].
  rewrite IH, <- app_assoc; reflexivity.
Qed.

Lemma lineage_snoc (p : path) (k : nat) : lineage (p ++ [k]) = lineage p ++ [p ++ [k]].
Proof. unfold lineage; rewrite lineage_from_snoc; reflexivity. Qed.

Lemma lineage_from_valid (rest done : path) (d n x : Node) :
  get_node done d = Some n → get_node rest n = Some x →
  Forall (fun q => is_Some (get_node q d)) (lineage_from done rest).
Proof.
  revert done n; induction rest as [| i rest IH]; intros done n Hn Hx; simpl;
    [constructor |].
  simpl in Hx; destruct (children n !! i) as [ci |] eqn:Hci; [| discriminate].
  assert (Hci' : get_node (done ++ [i]) d = Some ci)
    by (rewrite get_node_app, Hn; simpl; rewrite Hci; reflexivity).
  constructor; [rewrite Hci'; eexists; reflexivity |].
  apply (IH (done ++ [i]) ci Hci' Hx).
Qed.

Lemma lineage_valid (p : path) (d x : Node) :
  get_node p d = Some x → Forall (fun q => is_Some (get_node q d)) (lineage p).
Proof.
  intros Hx; constructor; [eexists; reflexivity |].
  apply (lineage_from_valid p [] d d x eq_refl Hx).
Qed.

Section Placed.
Context `{Collaborators}.

(** Reads of nodes the document had go past the appended child. *)
Lemma reserialize_at_append (qs : list path) (c : Node) (pp : path) (r : Node) :
  Forall (fun q => is_Some (get_node q r)) qs →
  reserialize_at qs (alter_node (append_child c) pp r)
  = alter_node (append_child c) pp (reserialize_at qs r).
Proof.
  induction qs as [| q qs IH] using rev_ind; intros Hqs; [reflexivity |].
  apply Forall_app in Hqs; destruct Hqs as [Hqs Hq].
  inversion Hq as [| ? ? [z Hz] _]; subst.
  rewrite !reserialize_at_snoc, IH by exact Hqs.
  destruct (reserialize_at_node qs q r z Hz) as (z' & Hz' & _).
  apply alter_attrib_append with z'; exact Hz'.
Qed.

(** Lines 122-125 run while the duplicate [c2] stands under [pp]: the
    source's lineage is read in the document as it is, the duplicate's
    lineage after that; the duplicate itself is read last. *)
Lemma angle_transform_placed (r1 : Node) (sp pp : path) (pn1 y1 c2 : Node)
    (t : list Mutation) :
  get_node pp r1 = Some pn1 →
  get_node sp r1 = Some y1 →
  let cp := pp ++ [length (children pn1)] in
  let r2 := reserialize_at (lineage sp) r1 in
  let r3 := reserialize_at (lineage pp) r2 in
  angle_transform sp cp (mkState (alter_node (append_child c2) pp r1) t)
  = (angle_transform_of
       (composed_transform r1 sp)
       (Transform.matmul (composed_transform r2 pp) (node_transform c2)),
     mkState (alter_node (append_child (with_attrib reserialize c2)) pp r3)
             (t ++ map MRewrite (lineage sp) ++ map MRewrite (lineage cp))).
Proof.
  intros Hpn1 Hy1 cp r2 r3.
  pose proof (scope_lookup r1 pp pn1 Hpn1 c2) as Hcp; fold cp in Hcp.
  destruct (scope_attrib c2 sp pp r1 y1 Hy1) as (y' & Hy' & _).
  rewrite angle_transform_run.
  cbv zeta; cbn [document trace].
  rewrite (composed_transform_scope c2 sp pp r1 y1 Hy1).
  rewrite (reserialize_at_append (lineage sp)) by (apply lineage_valid with y1; exact Hy1).
  fold r2.
  destruct (reserialize_at_node (lineage sp) pp r1 pn1 Hpn1) as (pn2 & Hpn2 & _ & Hl2 & _).
  fold r2 in Hpn2.
  assert (Hdup : children (append_child c2 pn2) !! length (children pn1) = Some c2)
    by (rewrite <- Hl2; simpl; apply list_lookup_middle; reflexivity).
  assert (Hpp2 : get_node pp (alter_node (append_child c2) pp r2)
                 = Some (append_child c2 pn2))
    by (rewrite get_node_alter_same, Hpn2; reflexivity).
  unfold cp at 1; rewrite (composed_transform_snoc _ _ _ pp _ Hpp2 Hdup).
  rewrite (composed_transform_scope c2 pp pp r2 pn2 Hpn2).
  unfold cp at 1; rewrite lineage_snoc, reserialize_at_app; fold cp.
  rewrite (reserialize_at_append (lineage pp)) by (apply lineage_valid with pn2; exact Hpn2).
  fold r3.
  destruct (reserialize_at_node (lineage pp) pp r2 pn2 Hpn2) as (pn3 & Hpn3 & _ & Hl3 & _).
  fold r3 in Hpn3.
  pose proof (scope_set r3 pp pn3 Hpn3 (with_attrib reserialize) [] c2) as Hset.
  rewrite Hl3, Hl2, app_nil_r in Hset; fold cp in Hset.
  unfold reserialize_at at 1; cbn [foldl]; rewrite Hset.
  reflexivity.
Qed.
End Placed.

(** Writes that keep the [transform] attribute keep every composed
    transform. *)
Lemma composed_below_alter_keep (g : Attrib → Attrib) (p q : path)
    (acc : Transform.t) (d : Node) :
  (∀ a, a_transform (g a) = a_transform a) →
  composed_below acc (alter_node (with_attrib g) p d) q = composed_below acc d q.
Proof.
  intros Hg; revert p acc d; induction q as [| i q IH]; intros p acc d; [reflexivity |].
  assert (Hnt : ∀ p n, node_transform (alter_node (with_attrib g) p n) = node_transform n).
  { intros [| j p'] n; unfold node_transform; simpl; [rewrite Hg |]; reflexivity. }
  destruct p as [| j p]; simpl; [destruct (children d !! i); reflexivity |].
  destruct (decide (j = i)) as [-> | Hne].
  - rewrite list_lookup_alter_eq; destruct (children d !! i) as [ci |]; simpl;
      [| reflexivity].
    rewrite Hnt; apply IH.
  - rewrite list_lookup_alter_ne by exact Hne; reflexivity.
Qed.

Lemma composed_transform_alter_keep (g : Attrib → Attrib) (p q : path) (d : Node) :
  (∀ a, a_transform (g a) = a_transform a) →
  composed_transform (alter_node (with_attrib g) p d) q = composed_transform d q.
Proof.
  intros Hg; unfold composed_transform.
  rewrite composed_below_alter_keep by exact Hg; f_equal.
  destruct p; unfold node_transform; simpl; [rewrite Hg |]; reflexivity.
Qed.

Section Derived.
Context `{Collaborators}.

Lemma assign_angle_composed (cfa : option pyfloat) (flip : bool) (at_ : Transform.t)
    (element : Element) (s : State) (q : path) :
  composed_transform (document (snd (assign_angle cfa flip at_ element s))) q
  = composed_transform (document s) q.
Proof.
  unfold assign_angle, bind, reads.
  destruct (element_angle_of _ _ _ _); simpl; [| reflexivity].
  apply composed_transform_alter_keep; reflexivity.
Qed.

Lemma loop_composed (cfa : option pyfloat) (flip : bool) (at_ : Transform.t)
    (l : list Element) (s : State) (q : path) :
  composed_transform (document (snd (for_each (assign_angle cfa flip at_) l s))) q
  = composed_transform (document s) q.
Proof.
  revert s; induction l as [| element l IH]; intros s; simpl; [reflexivity |].
  pose proof (assign_angle_composed cfa flip at_ element s q) as Hstep.
  unfold bind; destruct (assign_angle cfa flip at_ element s) as [[[] | e] s1];
    simpl in *; [rewrite IH |]; exact Hstep.
Qed.

Lemma yield_from_composed (self cp : path) (cfa : option pyfloat) (at_ : Transform.t)
    (s : State) (q : path) :
  composed_transform (document (snd (yield_from self cp cfa at_ s))) q
  = composed_transform (document s) q.
Proof.
  unfold yield_from, bind, reads, gets, ret.
  destruct (clone_to_elements _ _) as [els |]; [| reflexivity].
  pose proof (loop_composed cfa (flip_angle (document s) self) at_ els s q) as Hl.
  destruct (for_each _ els s) as [[[] | e] s']; exact Hl.
Qed.

Variables (root : Node) (self sp pp : path) (x y pn : Node) (t0 : list Mutation).
Hypothesis Hx : get_node self root = Some x.
Hypothesis Hy : get_node sp root = Some y.
Hypothesis Hpn : get_node pp root = Some pn.

Let cp : path := pp ++ [length (children pn)].
Let T : Transform.t :=
  Transform.matmul (default Transform.identity (shown (node_transform x)))
                   (default Transform.identity (shown (node_transform y))).
Let c2 : Node := with_attrib (put_transform (shown T)) y.
Let c3 : Node := with_attrib reserialize c2.
Let r1 : Node := reserialize_at [self] root.
Let r2 : Node := reserialize_at (lineage sp) r1.
Let r3 : Node := reserialize_at (lineage pp) r2.
Let s2 : State :=
  mkState (alter_node (append_child c2) pp r1)
          ((t0 ++ [MAdd cp]) ++ [MRewrite self; MRewrite cp; MSet cp "transform"]).
Let s3 : State :=
  mkState (alter_node (append_child c3) pp r3)
          ((t0 ++ [MAdd cp])
             ++ [MRewrite self; MRewrite cp; MSet cp "transform"]
             ++ map MRewrite (lineage sp) ++ map MRewrite (lineage cp)).

(** The setup in the override mode. *)
Lemma setup_override (v : pyfloat) :
  clone_fill_angle root self = Some v →
  clone_elements_setup self sp cp (entered root pp cp y t0)
  = yield_from self cp (Some v) Transform.identity s2.
Proof.
  intros Hcfa.
  rewrite (setup_unfold root self sp pp x y pn t0 Hx Hpn), Hcfa; reflexivity.
Qed.

(** The setup in the derived mode: the angle transform is computed
    from the source's composed transform, read after line 118 has
    written the clone's transform back, and from the duplicate's,
    which ends with the transform line 118 stored. *)
Lemma setup_derived :
  clone_fill_angle root self = None →
  clone_elements_setup self sp cp (entered root pp cp y t0)
  = match angle_transform_of
            (composed_transform r1 sp)
            (Transform.matmul (composed_transform r2 pp) (node_transform c2)) with
    | Ok at_ => yield_from self cp None at_ s3
    | Raise e => (Raise e, s3)
    end.
Proof.
  intros Hcfa.
  rewrite (setup_unfold root self sp pp x y pn t0 Hx Hpn), Hcfa.
  destruct (reserialize_at_node [self] pp root pn Hpn) as (pn1 & Hpn1 & _ & Hl1 & _).
  destruct (reserialize_at_node [self] sp root y Hy) as (y1 & Hy1 & _).
  pose proof (angle_transform_placed r1 sp pp pn1 y1 c2
                ((t0 ++ [MAdd cp]) ++ [MRewrite self; MRewrite cp; MSet cp "transform"])
                Hpn1 Hy1) as Hat.
  cbv zeta in Hat; rewrite Hl1 in Hat; fold cp r2 r3 c3 in Hat.
  unfold bind at 1; fold cp T c2 r1; rewrite Hat.
  unfold s3; rewrite <- !app_assoc.
  destruct (angle_transform_of _ _); reflexivity.
Qed.

Lemma derived_duplicate : get_node cp (document s3) = Some c3.
Proof.
  destruct (reserialize_at_node ([self] ++ lineage sp ++ lineage pp) pp root pn Hpn)
    as (pn3 & Hpn3 & _ & Hl3 & _).
  rewrite !reserialize_at_app in Hpn3; fold r1 r2 r3 in Hpn3.
  unfold cp; rewrite <- Hl3; apply (scope_lookup r3 pp pn3 Hpn3).
Qed.

Lemma derived_in_scope : in_scope root pp cp (t0 ++ [MAdd cp]) s3.
Proof.
  exists c3, ([MRewrite self; MRewrite cp; MSet cp "transform"]
              ++ map MRewrite (lineage sp) ++ map MRewrite (lineage cp)).
  split; [reflexivity |]; split.
  - constructor; [right; eexists; reflexivity |].
    constructor; [right; eexists; reflexivity |].
    constructor; [left; exists [], "transform"; rewrite app_nil_r; reflexivity |].
    apply Forall_app; split; apply Forall_map, Forall_true;
      intros q; right; eexists; reflexivity.
  - cbn [document s3].
    rewrite !rewritten_app, !rewritten_map.
    change (rewritten [MRewrite self; MRewrite cp; MSet cp "transform"])
      with ([self] ++ [cp]).
    f_equal.
    assert (Hfresh : ∀ qs, reserialize_at [cp] (reserialize_at qs root)
                           = reserialize_at qs root).
    { intros qs.
      destruct (reserialize_at_node qs pp root pn Hpn) as (pn' & Hpn' & _ & Hl' & _).
      unfold reserialize_at at 1; cbn [foldl].
      apply alter_node_absent; unfold cp; rewrite <- Hl'.
      apply (scope_fresh _ pp pn' Hpn'). }
    assert (Hr3 : ∃ qs, r3 = reserialize_at qs root).
    { exists (([self] ++ lineage sp) ++ lineage pp).
      unfold r3, r2, r1; rewrite !reserialize_at_app; reflexivity. }
    destruct Hr3 as [qs Hqs].
    replace (lineage cp) with (lineage pp ++ [cp])
      by (unfold cp; rewrite lineage_snoc; reflexivity).
    rewrite !reserialize_at_app, (Hfresh [self]); fold r1 r2 r3.
    rewrite Hqs; symmetry; apply Hfresh.
Qed.
End Derived.

(** ** Failures of the materialization *)

Section Failures.
Context `{Collaborators}.

(** When the setup fails, the failure reaches the caller, the duplicate
    is removed and the transforms read so far stay written back. *)
Lemma clone_elements_failure {B} (root : Node) (self sp pp : path) (tg : string)
    (body : list Element → Node → result B) (t0 : list Mutation)
    (y pn : Node) (e : exn) (s_fail : State) (sets : list Mutation) :
  get_clone_source root self = Ok (Some sp) →
  node_tag root (Some sp) = Ok tg →
  eligible tg = true →
  getparent self = Some pp →
  get_node sp root = Some y →
  get_node pp root = Some pn →
  let cp := pp ++ [length (children pn)] in
  clone_elements_setup self sp cp (entered root pp cp y t0) = (Raise e, s_fail) →
  trace s_fail = (t0 ++ [MAdd cp]) ++ sets →
  clone_elements self body (mkState root t0)
  = (Raise e,
     mkState (reserialize_at (rewritten sets) root) (t0 ++ MAdd cp :: sets ++ [MRemove cp])).
Proof.
  intros Hsrc Htag Hel Hpar Hy Hpn cp Hfail Hsets.
  destruct (clone_elements_scope root self sp pp tg body t0 Hsrc Htag Hel Hpar)
    as (pn' & sets' & Hpn' & _ & Htr & _ & Hrun).
  rewrite Hpn in Hpn'; injection Hpn' as <-.
  cbv zeta in Htr, Hrun; rewrite Hy in Htr, Hrun.
  change (default empty_node (Some y)) with y in Htr, Hrun.
  fold cp in Htr, Hrun; rewrite Hfail in Htr, Hrun; cbn [fst snd] in Htr, Hrun.
  rewrite Hsets in Htr; apply app_inv_head in Htr; subst sets'.
  exact Hrun.
Qed.

Lemma rewritten_derived (self cp sp : path) :
  rewritten ([MRewrite self; MRewrite cp; MSet cp "transform"]
             ++ map MRewrite (lineage sp) ++ map MRewrite (lineage cp))
  = self :: cp :: lineage sp ++ lineage cp.
Proof. rewrite !rewritten_app, !rewritten_map; reflexivity. Qed.
End Failures.

(** X11: when the clone's reference names no node of the document,
    [to_stitch_groups] (and any block under [clone_elements]) and
    [get_cache_key_data] raise an [AttributeError] and leave the state
    as it was. *)
Theorem broken_reference_raises `{Collaborators} {B}
    (s : State) (self : path) (body : list Element → Node → result B)
    (last_patch : option StitchGroup) (previous_stitch : option Stitch) :
  get_clone_source (document s) self = Ok None →
  clone_elements self body s = (Raise AttributeError, s)
  ∧ to_stitch_groups self last_patch s = (Raise AttributeError, s)
  ∧ get_cache_key_data self previous_stitch s = (Raise AttributeError, s).
Proof.
  intros Hsrc.
  assert (Hrun : ∀ C (b : list Element → Node → result C),
             clone_elements self b s = (Raise AttributeError, s)).
  { intros C b; unfold clone_elements, bind, gets, reads; rewrite Hsrc; reflexivity. }
  split; [apply Hrun |]; split; [apply Hrun |].
  unfold get_cache_key_data, bind, gets, reads; rewrite Hsrc; reflexivity.
Qed.

Lemma broken_reference_raises_witness :
  get_clone_source doc_broken [0] = Ok None
  ∧ clone_elements (H := example_collaborators) [0] report_angles (mkState doc_broken [])
    = (Raise AttributeError, mkState doc_broken [])
  ∧ to_stitch_groups (H := example_collaborators) [0] None (mkState doc_broken [])
    = (Raise AttributeError, mkState doc_broken [])
  ∧ get_cache_key_data (H := example_collaborators) [0] None (mkState doc_broken [])
    = (Raise AttributeError, mkState doc_broken []).
Proof.
  split; [reflexivity |].
  apply (broken_reference_raises (H := example_collaborators)
           (mkState doc_broken []) [0] report_angles None None); reflexivity.
Defined.

(** X12: in the derived mode, a source whose composed transform is
    singular makes the materialization fail with a
    [ZeroDivisionError], after both composed transforms have been
    read; the duplicate, inserted and given its transform, is removed,
    and the document left behind is the original one with the
    transforms that were read written back. *)
Theorem singular_source_raises `{Collaborators} {B}
    (root : Node) (self sp pp : path) (tg : string)
    (body : list Element → Node → result B) (t0 : list Mutation) :
  get_clone_source root self = Ok (Some sp) →
  node_tag root (Some sp) = Ok tg →
  eligible tg = true →
  getparent self = Some pp →
  clone_fill_angle root self = None →
  Transform.det (composed_transform (reserialize_at [self] root) sp) = 0%R →
  ∃ pn, get_node pp root = Some pn ∧
    let cp := pp ++ [length (children pn)] in
    let root' := reserialize_at (self :: cp :: lineage sp ++ lineage cp) root in
    clone_elements self body (mkState root t0)
    = (Raise ZeroDivisionError,
       mkState root'
         (t0 ++ MAdd cp
             :: ([MRewrite self; MRewrite cp; MSet cp "transform"]
                 ++ map MRewrite (lineage sp) ++ map MRewrite (lineage cp))
             ++ [MRemove cp]))
    ∧ without_transforms root' = without_transforms root
    ∧ (stable root → root' = root).
Proof.
  intros Hsrc Htag Hel Hpar Hcfa Hdet.
  destruct (get_clone_source_valid _ _ _ Hsrc) as ((x & Hx & _) & (y & Hy) & _).
  destruct (getparent_valid _ _ _ _ Hx Hpar) as [pn Hpn].
  exists pn; split; [exact Hpn |]; cbv zeta.
  split; [| split; [apply without_transforms_reserialize_at | apply reserialize_at_stable]].
  rewrite <- (rewritten_derived self (pp ++ [length (children pn)]) sp) at 1.
  eapply (clone_elements_failure root self sp pp tg body t0 y pn);
    [exact Hsrc | exact Htag | exact Hel | exact Hpar | exact Hy | exact Hpn | |].
  - rewrite (setup_derived root self sp pp x y pn t0 Hx Hy Hpn Hcfa).
    rewrite angle_transform_of_singular by exact Hdet.
    reflexivity.
  - cbn [trace]; rewrite <- !app_assoc; reflexivity.
Qed.

Lemma doc_singular_det :
  Transform.det
    (composed_transform (reserialize_at (H := example_collaborators) [[1]] doc_singular) [0])
  = 0%R.
Proof.
  unfold composed_transform, node_transform, Transform.det, reserialize_at; simpl.
  ring.
Qed.

Lemma singular_source_raises_witness :
  ∃ pn, get_node [] doc_singular = Some pn ∧
    let cp := [] ++ [length (children pn)] in
    let root' :=
      reserialize_at (H := example_collaborators)
        ([1] :: cp :: lineage [0] ++ lineage cp) doc_singular in
    to_stitch_groups (H := example_collaborators) [1] None (mkState doc_singular [])
    = (Raise ZeroDivisionError,
       mkState root'
         ([] ++ MAdd cp
             :: ([MRewrite [1]; MRewrite cp; MSet cp "transform"]
                 ++ map MRewrite (lineage [0]) ++ map MRewrite (lineage cp))
             ++ [MRemove cp]))
    ∧ without_transforms root' = without_transforms doc_singular
    ∧ (stable (H := example_collaborators) doc_singular → root' = doc_singular).
Proof.
  apply (singular_source_raises (H := example_collaborators)
           doc_singular [1] [0] [] SVG_PATH_TAG);
    [reflexivity | reflexivity | reflexivity | reflexivity | reflexivity
    | exact doc_singular_det].
Defined.

(** The first turn of the loop on an angle that is not the text of a
    finite number. *)
Lemma angle_text_failure `{Collaborators} {B}
    (root : Node) (self sp pp : path) (x y : Node) (v : attr_text)
    (kd : Kind) (kds : list Kind)
    (body : list Element → Node → result B) (t0 : list Mutation) :
  let product :=
    Transform.matmul (default Transform.identity (shown (node_transform x)))
                     (default Transform.identity (shown (node_transform y))) in
  let duplicate := with_attrib reserialize (with_attrib (put_transform (shown product)) y) in
  get_clone_source root self = Ok (Some sp) →
  get_node self root = Some x →
  get_node sp root = Some y →
  tag_in (tag y) EMBROIDERABLE_TAGS = true →
  getparent self = Some pp →
  clone_fill_angle root self = None →
  Transform.det (composed_transform (reserialize_at [self] root) sp) ≠ 0%R →
  a_angle (attrib y) = Some v →
  (∀ r, v ≠ NumText r) →
  node_to_elements duplicate = kd :: kds →
  ∃ pn, get_node pp root = Some pn ∧
    let cp := pp ++ [length (children pn)] in
    let root' := reserialize_at (self :: cp :: lineage sp ++ lineage cp) root in
    clone_elements self body (mkState root t0)
    = (Raise (match v with NonFiniteText _ => TypeError | _ => ValueError end),
       mkState root'
         (t0 ++ MAdd cp
             :: ([MRewrite self; MRewrite cp; MSet cp "transform"]
                 ++ map MRewrite (lineage sp) ++ map MRewrite (lineage cp))
             ++ [MRemove cp])).
Proof.
  intros product duplicate Hsrc Hx Hy Htag Hpar Hcfa Hdet Hangle Hnum Hkinds.
  destruct (getparent_valid _ _ _ _ Hx Hpar) as [pn Hpn].
  exists pn; split; [exact Hpn |]; cbv zeta.
  assert (Hnt : node_tag root (Some sp) = Ok (tag y))
    by (unfold node_tag; rewrite Hy; reflexivity).
  assert (Hel : eligible (tag y) = true) by (unfold eligible; rewrite Htag; reflexivity).
  rewrite <- (rewritten_derived self (pp ++ [length (children pn)]) sp) at 1.
  eapply (clone_elements_failure root self sp pp (tag y) body t0 y pn);
    [exact Hsrc | exact Hnt | exact Hel | exact Hpar | exact Hy | exact Hpn | |].
  - rewrite (setup_derived root self sp pp x y pn t0 Hx Hy Hpn Hcfa).
    rewrite angle_transform_of_ok by exact Hdet.
    pose proof (derived_duplicate root self sp pp x y pn t0 Hpn) as Hdup.
    cbv zeta in Hdup; fold product duplicate in Hdup; fold product duplicate.
    set (s3 := mkState _ _) in *.
    unfold yield_from, bind at 1, reads at 1, clone_to_elements; rewrite Hdup.
    change (tag duplicate) with (tag y); rewrite Htag.
    unfold elements_of; rewrite Hkinds; cbn [map].
    unfold bind at 1, gets at 1; cbn [for_each].
    unfold bind at 1 2; unfold assign_angle at 1.
    unfold bind at 1, reads at 1, element_angle_of, element_node; cbn [el_node].
    rewrite Hdup; change (default empty_node (Some duplicate)) with duplicate.
    change (a_angle (attrib duplicate)) with (a_angle (attrib y)).
    rewrite Hangle; destruct v as [r | nf | txt]; [destruct (Hnum r eq_refl) | |];
      reflexivity.
  - cbn [trace]; rewrite <- !app_assoc; reflexivity.
Qed.

(** X13: in the derived mode, when the source is an embroiderable node
    of which [node_to_elements] makes at least one element and whose
    angle attribute is not the text of a finite number, the
    materialization fails at the first element: with a [ValueError] at
    line 133 when [float] rejects the text, with a [TypeError] at line
    135 when the text is [nan] or an infinity.  The duplicate is
    removed and the document left behind is the original one with the
    transforms that were read written back. *)
Theorem non_numeric_angle_raises `{Collaborators} {B}
    (root : Node) (self sp pp : path) (x y : Node) (v : attr_text)
    (kd : Kind) (kds : list Kind)
    (body : list Element → Node → result B) (t0 : list Mutation) :
  let product :=
    Transform.matmul (default Transform.identity (shown (node_transform x)))
                     (default Transform.identity (shown (node_transform y))) in
  let duplicate := with_attrib reserialize (with_attrib (put_transform (shown product)) y) in
  get_clone_source root self = Ok (Some sp) →
  get_node self root = Some x →
  get_node sp root = Some y →
  tag_in (tag y) EMBROIDERABLE_TAGS = true →
  getparent self = Some pp →
  clone_fill_angle root self = None →
  Transform.det (composed_transform (reserialize_at [self] root) sp) ≠ 0%R →
  a_angle (attrib y) = Some v →
  (∀ r, v ≠ NumText r) →
  node_to_elements duplicate = kd :: kds →
  ∃ pn, get_node pp root = Some pn ∧
    let cp := pp ++ [length (children pn)] in
    let root' := reserialize_at (self :: cp :: lineage sp ++ lineage cp) root in
    clone_elements self body (mkState root t0)
    = (Raise (match v with NonFiniteText _ => TypeError | _ => ValueError end),
       mkState root'
         (t0 ++ MAdd cp
             :: ([MRewrite self; MRewrite cp; MSet cp "transform"]
                 ++ map MRewrite (lineage sp) ++ map MRewrite (lineage cp))
             ++ [MRemove cp])).
Proof.
  intros product duplicate; subst product duplicate.
  exact (angle_text_failure root self sp pp x y v kd kds body t0).
Qed.

Lemma doc_junk_det :
  Transform.det
    (composed_transform (reserialize_at (H := example_collaborators) [[1]] doc_junk) [0])
  ≠ 0%R.
Proof.
  unfold composed_transform, node_transform, Transform.det, reserialize_at; simpl.
  lra.
Qed.

Lemma non_numeric_angle_raises_witness :
  ∃ pn, get_node [] doc_junk = Some pn ∧
    let cp := [] ++ [length (children pn)] in
    let root' :=
      reserialize_at (H := example_collaborators)
        ([1] :: cp :: lineage [0] ++ lineage cp) doc_junk in
    to_stitch_groups (H := example_collaborators) [1] None (mkState doc_junk [])
    = (Raise ValueError,
       mkState root'
         ([] ++ MAdd cp
             :: ([MRewrite [1]; MRewrite cp; MSet cp "transform"]
                 ++ map MRewrite (lineage [0]) ++ map MRewrite (lineage cp))
             ++ [MRemove cp])).
Proof.
  apply (non_numeric_angle_raises (H := example_collaborators)
           doc_junk [1] [0] [] (use None [0])
           (mkNode SVG_PATH_TAG (mkAttrib None (Some (OtherText "auto")) None None) [])
           (OtherText "auto") FillStitch [Stroke]);
    [reflexivity | reflexivity | reflexivity | reflexivity | reflexivity | reflexivity
    | exact doc_junk_det | reflexivity | intros r; discriminate | reflexivity].
Defined.

(** The same with the text [nan]: [float] accepts it and line 135
    raises. *)
Lemma nan_angle_raises_type_error :
  fst (to_stitch_groups (H := example_collaborators) [1] None (mkState doc_nan []))
  = Raise TypeError.
Proof.
  destruct (angle_text_failure (H := example_collaborators)
              doc_nan [1] [0] [] (use None [0])
              (mkNode SVG_PATH_TAG (mkAttrib None (Some (NonFiniteText Nan)) None None) [])
              (NonFiniteText Nan) FillStitch [Stroke]
              (fun elements root =>
                 stitch_loop (H := example_collaborators) root elements None []) [])
    as (pn & _ & Hrun);
    [reflexivity | reflexivity | reflexivity | reflexivity | reflexivity | reflexivity
    | exact doc_junk_det | reflexivity | intros r; discriminate | reflexivity |].
  unfold to_stitch_groups; cbv zeta in Hrun; rewrite Hrun; reflexivity.
Qed.

Lemma getparent_None (self : path) : getparent self = None → self = [].
Proof.
  induction self as [| i self IH]; [reflexivity |]; simpl.
  destruct self as [| j self']; [discriminate |].
  intros Hp; destruct (getparent (j :: self')) eqn:Hg; [discriminate |].
  specialize (IH eq_refl); discriminate.
Qed.

(** X14: a clone with a reference whose topmost ancestor is not the
    document element, as is a clone without a parent, fails with a
    [FragmentError] when its reference is resolved at line 103, before
    anything is inserted: the state is unchanged, also for
    [get_cache_key_data].  The insertion under a missing parent at line
    113 is never reached. *)
Theorem parentless_clone_raises `{Collaborators} {B}
    (s : State) (self sp : path) (x : Node)
    (body : list Element → Node → result B)
    (last_patch : option StitchGroup) (previous_stitch : option Stitch) :
  get_node self (document s) = Some x →
  a_href (attrib x) = Some sp →
  String.eqb (tag (document s)) SVG_DOCUMENT_TAG = false
  ∨ (getparent self = None ∧ tag x = SVG_USE_TAG) →
  clone_elements self body s = (Raise FragmentError, s)
  ∧ to_stitch_groups self last_patch s = (Raise FragmentError, s)
  ∧ get_cache_key_data self previous_stitch s = (Raise FragmentError, s).
Proof.
  intros Hx Hhref Htop.
  assert (Hroot : String.eqb (tag (document s)) SVG_DOCUMENT_TAG = false).
  { destruct Htop as [Hroot | [Hpar Htag]]; [exact Hroot |].
    apply getparent_None in Hpar; subst self; simpl in Hx; injection Hx as ->.
    rewrite Htag; reflexivity. }
  assert (Hsrc : get_clone_source (document s) self = Raise FragmentError)
    by (unfold get_clone_source; rewrite Hx, Hhref, Hroot; reflexivity).
  assert (Hrun : ∀ C (b : list Element → Node → result C),
             clone_elements self b s = (Raise FragmentError, s)).
  { intros C b; unfold clone_elements, bind, gets, reads; rewrite Hsrc; reflexivity. }
  split; [apply Hrun |]; split; [apply Hrun |].
  unfold get_cache_key_data, bind, gets, reads; rewrite Hsrc; reflexivity.
Qed.

Lemma parentless_clone_raises_witness :
  clone_elements (H := example_collaborators) [] report_angles (mkState doc_root_clone [])
  = (Raise FragmentError, mkState doc_root_clone [])
  ∧ to_stitch_groups (H := example_collaborators) [] None (mkState doc_root_clone [])
    = (Raise FragmentError, mkState doc_root_clone [])
  ∧ get_cache_key_data (H := example_collaborators) [] None (mkState doc_root_clone [])
    = (Raise FragmentError, mkState doc_root_clone []).
Proof.
  apply (parentless_clone_raises (H := example_collaborators)
           (mkState doc_root_clone []) [] [0] doc_root_clone report_angles None None);
    [reflexivity | reflexivity | right; split; reflexivity].
Defined.

(** ** Composed transforms during the materialization

    For a document whose transform attributes are in the form in which
    they are printed, and a product at line 118 that is read back as it
    was set, the reads change nothing and the transforms compose as
    the matrices do. *)

Section Exact.
Context `{Collaborators}.
Variables (root : Node) (self sp pp : path) (x y pn : Node) (t0 : list Mutation).
Hypothesis Hstable : stable root.
Hypothesis Hx : get_node self root = Some x.
Hypothesis Hy : get_node sp root = Some y.
Hypothesis Hpn : get_node pp root = Some pn.
Hypothesis Hpar : getparent self = Some pp.
Hypothesis Hexact : round_trips (Transform.matmul (node_transform x) (node_transform y)).

Let cp : path := pp ++ [length (children pn)].
Let duplicate : Node :=
  with_attrib
    (put_transform (shown (Transform.matmul (node_transform x) (node_transform y)))) y.
Let placed : Node := alter_node (append_child duplicate) pp root.

Lemma stable_got (p : path) (z : Node) :
  get_node p root = Some z →
  default Transform.identity (shown (node_transform z)) = node_transform z.
Proof. intros Hz; apply prints_exactly_got, (Hstable p z Hz). Qed.

Lemma duplicate_transform :
  node_transform duplicate
  = Transform.matmul (node_transform x) (node_transform y).
Proof. destruct y as [t a cs]; exact Hexact. Qed.

Lemma duplicate_reread : with_attrib reserialize duplicate = duplicate.
Proof.
  unfold duplicate; destruct y as [t [tr an cf fl] cs].
  unfold with_attrib, reserialize, put_transform; simpl.
  unfold round_trips in Hexact; rewrite Hexact; reflexivity.
Qed.

Lemma composed_self :
  composed_transform root self
  = Transform.matmul (composed_transform root pp) (node_transform x).
Proof.
  destruct (getparent_snoc _ _ Hpar) as [i Hi].
  assert (Hxi : children pn !! i = Some x).
  { rewrite Hi, get_node_app, Hpn in Hx; simpl in Hx.
    destruct (children pn !! i); [congruence | discriminate]. }
  rewrite Hi; apply (composed_transform_snoc root pn x pp i Hpn Hxi).
Qed.

Lemma composed_placed :
  composed_transform placed cp
  = Transform.matmul (composed_transform root self) (node_transform y).
Proof.
  unfold placed, cp.
  assert (Hpp : get_node pp (alter_node (append_child duplicate) pp root)
                = Some (append_child duplicate pn))
    by (rewrite get_node_alter_same, Hpn; reflexivity).
  assert (Hk : children (append_child duplicate pn) !! length (children pn)
               = Some duplicate)
    by (simpl; apply list_lookup_middle; reflexivity).
  rewrite (composed_transform_snoc _ _ _ pp _ Hpp Hk).
  rewrite (composed_transform_scope _ pp pp root pn Hpn), composed_self.
  rewrite duplicate_transform, TransformFacts.matmul_assoc; reflexivity.
Qed.

(** The setup on such a document. *)
Lemma setup_exact :
  clone_elements_setup self sp cp (entered root pp cp y t0)
  = match clone_fill_angle root self with
    | Some v =>
        yield_from self cp (Some v) Transform.identity
          (mkState placed
             ((t0 ++ [MAdd cp]) ++ [MRewrite self; MRewrite cp; MSet cp "transform"]))
    | None =>
        let s3 :=
          mkState placed
            ((t0 ++ [MAdd cp])
               ++ [MRewrite self; MRewrite cp; MSet cp "transform"]
               ++ map MRewrite (lineage sp) ++ map MRewrite (lineage cp)) in
        match angle_transform_of
                (composed_transform root sp)
                (Transform.matmul (composed_transform root self) (node_transform y)) with
        | Ok at_ => yield_from self cp None at_ s3
        | Raise e => (Raise e, s3)
        end
    end.
Proof.
  destruct (clone_fill_angle root self) as [v |] eqn:Hcfa.
  - rewrite (setup_override root self sp pp x y pn t0 Hx Hpn v Hcfa).
    rewrite (stable_got self x Hx), (stable_got sp y Hy).
    rewrite reserialize_at_stable by exact Hstable; reflexivity.
  - rewrite (setup_derived root self sp pp x y pn t0 Hx Hy Hpn Hcfa).
    rewrite (stable_got self x Hx), (stable_got sp y Hy).
    rewrite !reserialize_at_stable by exact Hstable.
    fold duplicate; rewrite duplicate_reread, duplicate_transform.
    rewrite <- TransformFacts.matmul_assoc, <- composed_self; reflexivity.
Qed.

(** The composed transforms of the document handed over at the yield
    are those of the document in which the duplicate was placed. *)
Lemma setup_composed (q : path) :
  composed_transform
    (document (snd (clone_elements_setup self sp cp (entered root pp cp y t0)))) q
  = composed_transform placed q.
Proof.
  rewrite setup_exact; destruct (clone_fill_angle root self) as [v |].
  - rewrite yield_from_composed; reflexivity.
  - cbv zeta; destruct (angle_transform_of _ _); [| reflexivity].
    rewrite yield_from_composed; reflexivity.
Qed.
End Exact.

(** X8: for a document whose transform attributes are in their printed
    form, and a product at line 118 that is read back as it was set,
    the duplicate's composed transform, while the clone is
    materialized, is the clone's composed transform followed by the
    source's own transform (the clone's composed transform being its
    parent's followed by its own), and every node the document had
    composes as before. *)
Theorem duplicate_composed_transform `{Collaborators}
    (root : Node) (self sp pp : path) (x y : Node) (t0 : list Mutation) :
  get_clone_source root self = Ok (Some sp) →
  get_node self root = Some x →
  get_node sp root = Some y →
  getparent self = Some pp →
  stable root →
  round_trips (Transform.matmul (node_transform x) (node_transform y)) →
  ∃ pn, get_node pp root = Some pn ∧
    let cp := pp ++ [length (children pn)] in
    let at_yield := clone_elements_setup self sp cp (entered root pp cp y t0) in
    composed_transform (document (snd at_yield)) cp
    = Transform.matmul (composed_transform root self) (node_transform y)
    ∧ composed_transform root self
      = Transform.matmul (composed_transform root pp) (node_transform x)
    ∧ (∀ p z, get_node p root = Some z →
         composed_transform (document (snd at_yield)) p = composed_transform root p).
Proof.
  intros Hsrc Hx Hy Hpar Hstable Hexact.
  destruct (getparent_valid _ _ _ _ Hx Hpar) as [pn Hpn].
  exists pn; split; [exact Hpn |]; cbv zeta.
  split; [| split].
  - rewrite (setup_composed root self sp pp x y pn t0 Hstable Hx Hy Hpn Hpar Hexact).
    exact (composed_placed root self sp pp x y pn Hx Hy Hpn Hpar Hexact).
  - exact (composed_self root self pp x pn Hx Hpn Hpar).
  - intros p z Hz.
    rewrite (setup_composed root self sp pp x y pn t0 Hstable Hx Hy Hpn Hpar Hexact).
    apply (composed_transform_scope _ p pp root z Hz).
Qed.

Ltac solve_stable_with tac :=
  let p := fresh "p" in
  let x := fresh "x" in
  let Hp := fresh "Hp" in
  intros p x Hp;
  repeat (destruct p as [| [| [| [| ?]]] p]; simpl in Hp; try discriminate Hp);
  injection Hp as <-;
  first [ exact shown_identity | tac ].

Lemma stable_doc_scaled : stable (H := example_collaborators) doc_scaled.
Proof.
  solve_stable_with
    ltac:(first [ exact (shown_exact _ truthy_scale_2)
                | exact (shown_exact _ truthy_translate_5) ]).
Qed.

Lemma round_trips_moved_scale :
  round_trips (H := example_collaborators)
    (Transform.matmul (Transform.translate 5 0) (Transform.scale 2 2)).
Proof. unfold round_trips; rewrite (shown_exact _ truthy_moved_scale); reflexivity. Qed.

Lemma duplicate_composed_transform_witness :
  ∃ pn, get_node [] doc_scaled = Some pn ∧
    let cp := [] ++ [length (children pn)] in
    let at_yield :=
      clone_elements_setup (H := example_collaborators) [1] [0] cp
        (entered doc_scaled [] cp (shape SVG_PATH_TAG (Some (Transform.scale 2 2))) []) in
    composed_transform (document (snd at_yield)) cp
    = Transform.matmul (composed_transform doc_scaled [1])
                       (node_transform (shape SVG_PATH_TAG (Some (Transform.scale 2 2))))
    ∧ composed_transform doc_scaled [1]
      = Transform.matmul (composed_transform doc_scaled [])
          (node_transform (use (Some (Transform.translate 5 0)) [0]))
    ∧ (∀ p z, get_node p doc_scaled = Some z →
         composed_transform (document (snd at_yield)) p = composed_transform doc_scaled p).
Proof.
  apply (duplicate_composed_transform (H := example_collaborators) doc_scaled [1] [0] []
           (use (Some (Transform.translate 5 0)) [0])
           (shape SVG_PATH_TAG (Some (Transform.scale 2 2))) []);
    [reflexivity | reflexivity | reflexivity | reflexivity
    | exact stable_doc_scaled | exact round_trips_moved_scale].
Defined.

(** The product of line 118 followed by the inverse of the source's
    composed transform: the source's own transform cancels. *)
Lemma source_cancels (root : Node) (sp spp : path) (y : Node) (P : Transform.t) :
  get_node sp root = Some y →
  getparent sp = Some spp →
  Transform.det (composed_transform root sp) ≠ 0%R →
  Transform.matmul (Transform.matmul P (node_transform y))
                   (Transform.inverse (composed_transform root sp))
  = Transform.matmul P (Transform.inverse (composed_transform root spp)).
Proof.
  intros Hy Hspar Hdet.
  destruct (getparent_snoc _ _ Hspar) as [j Hj].
  destruct (getparent_valid _ _ _ _ Hy Hspar) as [spn Hspn].
  assert (Hyj : children spn !! j = Some y).
  { rewrite Hj, get_node_app, Hspn in Hy; simpl in Hy.
    destruct (children spn !! j); [congruence | discriminate]. }
  assert (HS : composed_transform root sp
               = Transform.matmul (composed_transform root spp) (node_transform y)).
  { rewrite Hj; apply (composed_transform_snoc root spn y spp j Hspn Hyj). }
  assert (Hdets : Transform.det (composed_transform root spp) ≠ 0%R
                  ∧ Transform.det (node_transform y) ≠ 0%R).
  { rewrite HS, AngleFacts.det_matmul in Hdet.
    split; intros Hz; apply Hdet; rewrite Hz; ring. }
  destruct Hdets as [HdP HdT].
  rewrite HS, AngleFacts.inverse_matmul by assumption.
  rewrite TransformFacts.matmul_assoc.
  rewrite <- (TransformFacts.matmul_assoc (node_transform y)).
  rewrite TransformFacts.matmul_inverse_r by exact HdT.
  rewrite TransformFacts.matmul_identity_l; reflexivity.
Qed.

(** X9: in the derived mode, for a document whose transform attributes
    are in their printed form, a product at line 118 that is read back
    as it was set and a source with an invertible composed transform,
    the setup runs the angle loop with, as angle transform, the clone's
    composed transform followed by the inverse of the composed
    transform of the source's parent, translation zeroed: the source's
    own transform cancels out. *)
Theorem angle_transform_cancels_source `{Collaborators}
    (root : Node) (self sp pp spp : path) (x y : Node) (t0 : list Mutation) :
  get_clone_source root self = Ok (Some sp) →
  get_node self root = Some x →
  get_node sp root = Some y →
  getparent self = Some pp →
  getparent sp = Some spp →
  clone_fill_angle root self = None →
  Transform.det (composed_transform root sp) ≠ 0%R →
  stable root →
  round_trips (Transform.matmul (node_transform x) (node_transform y)) →
  ∃ pn, get_node pp root = Some pn ∧
    let cp := pp ++ [length (children pn)] in
    let duplicate :=
      with_attrib
        (put_transform
           (shown (Transform.matmul (node_transform x) (node_transform y)))) y in
    clone_elements_setup self sp cp (entered root pp cp y t0)
    = yield_from self cp None
        (Transform.strip_translation
           (Transform.matmul (composed_transform root self)
                             (Transform.inverse (composed_transform root spp))))
        (mkState (alter_node (append_child duplicate) pp root)
           ((t0 ++ [MAdd cp])
              ++ [MRewrite self; MRewrite cp; MSet cp "transform"]
              ++ map MRewrite (lineage sp) ++ map MRewrite (lineage cp))).
Proof.
  intros Hsrc Hx Hy Hpar Hspar Hcfa Hdet Hstable Hexact.
  destruct (getparent_valid _ _ _ _ Hx Hpar) as [pn Hpn].
  exists pn; split; [exact Hpn |]; cbv zeta.
  rewrite (setup_exact root self sp pp x y pn t0 Hstable Hx Hy Hpn Hpar Hexact), Hcfa.
  cbv zeta; rewrite angle_transform_of_ok by exact Hdet.
  rewrite (source_cancels root sp spp y _ Hy Hspar Hdet); reflexivity.
Qed.

Lemma doc_scaled_det : Transform.det (composed_transform doc_scaled [0]) ≠ 0%R.
Proof. unfold composed_transform, node_transform, Transform.det; simpl; lra. Qed.

Lemma angle_transform_cancels_source_witness :
  ∃ pn, get_node [] doc_scaled = Some pn ∧
    let cp := [] ++ [length (children pn)] in
    let duplicate :=
      with_attrib
        (put_transform
           (shown (H := example_collaborators)
              (Transform.matmul
                 (node_transform (use (Some (Transform.translate 5 0)) [0]))
                 (node_transform (shape SVG_PATH_TAG (Some (Transform.scale 2 2)))))))
        (shape SVG_PATH_TAG (Some (Transform.scale 2 2))) in
    clone_elements_setup (H := example_collaborators) [1] [0] cp
      (entered doc_scaled [] cp (shape SVG_PATH_TAG (Some (Transform.scale 2 2))) [])
    = yield_from (H := example_collaborators) [1] cp None
        (Transform.strip_translation
           (Transform.matmul (composed_transform doc_scaled [1])
                             (Transform.inverse (composed_transform doc_scaled []))))
        (mkState (alter_node (append_child duplicate) [] doc_scaled)
           (([] ++ [MAdd cp])
              ++ [MRewrite [1]; MRewrite cp; MSet cp "transform"]
              ++ map MRewrite (lineage [0]) ++ map MRewrite (lineage cp))).
Proof.
  apply (angle_transform_cancels_source (H := example_collaborators)
           doc_scaled [1] [0] [] []
           (use (Some (Transform.translate 5 0)) [0])
           (shape SVG_PATH_TAG (Some (Transform.scale 2 2))) []);
    [reflexivity | reflexivity | reflexivity | reflexivity | reflexivity | reflexivity
    | exact doc_scaled_det | exact stable_doc_scaled | exact round_trips_moved_scale].
Defined.

(** X10: in the derived mode, for a document whose transform
    attributes are in their printed form, a clone without a transform
    of its own whose source is one of its siblings (with an invertible
    composed transform) gets a duplicate that is the copy of the source
    as it is, and the identity as angle transform; with the identity an
    element declaring the angle [a0] gets [a0] back, brought within
    [-180, 180] by whole turns. *)
Theorem untransformed_clone_keeps_angles `{Collaborators}
    (root : Node) (self sp pp : path) (x y : Node) (t0 : list Mutation) :
  get_clone_source root self = Ok (Some sp) →
  get_node self root = Some x →
  get_node sp root = Some y →
  getparent self = Some pp →
  getparent sp = Some pp →
  node_transform x = Transform.identity →
  clone_fill_angle root self = None →
  Transform.det (composed_transform root sp) ≠ 0%R →
  stable root →
  ∃ pn, get_node pp root = Some pn ∧
    let cp := pp ++ [length (children pn)] in
    clone_elements_setup self sp cp (entered root pp cp y t0)
    = yield_from self cp None Transform.identity
        (mkState (alter_node (append_child y) pp root)
           ((t0 ++ [MAdd cp])
              ++ [MRewrite self; MRewrite cp; MSet cp "transform"]
              ++ map MRewrite (lineage sp) ++ map MRewrite (lineage cp)))
    ∧ ∀ a0 : R, ∃ k : Z, (-180 <= a0 - 360 * IZR k <= 180)%R ∧
        derived_angle Transform.identity a0 = Ok (a0 - 360 * IZR k)%R.
Proof.
  intros Hsrc Hx Hy Hpar Hspar Hid Hcfa Hdet Hstable.
  destruct (getparent_valid _ _ _ _ Hx Hpar) as [pn Hpn].
  exists pn; split; [exact Hpn |]; cbv zeta; split.
  - assert (Hexact : round_trips (Transform.matmul (node_transform x) (node_transform y))).
    { rewrite Hid, TransformFacts.matmul_identity_l.
      exact (stable_got root Hstable sp y Hy). }
    rewrite (setup_exact root self sp pp x y pn t0 Hstable Hx Hy Hpn Hpar Hexact), Hcfa.
    cbv zeta; rewrite angle_transform_of_ok by exact Hdet.
    rewrite (composed_self root self pp x pn Hx Hpn Hpar).
    rewrite (source_cancels root sp pp y _ Hy Hspar Hdet).
    assert (HdP : Transform.det (composed_transform root pp) ≠ 0%R).
    { destruct (getparent_snoc _ _ Hspar) as [j Hj].
      assert (Hyj : children pn !! j = Some y).
      { rewrite Hj, get_node_app, Hpn in Hy; simpl in Hy.
        destruct (children pn !! j); [congruence | discriminate]. }
      rewrite Hj, (composed_transform_snoc root pn y pp j Hpn Hyj),
        AngleFacts.det_matmul in Hdet.
      intros Hz; apply Hdet; rewrite Hz; ring. }
    rewrite Hid, TransformFacts.matmul_identity_r.
    rewrite TransformFacts.matmul_inverse_r by exact HdP.
    rewrite TransformFacts.matmul_identity_l.
    replace (with_attrib (put_transform (shown (node_transform y))) y) with y;
      [reflexivity |].
    destruct y as [t [tr an cf fl] cs]; unfold with_attrib, put_transform; simpl.
    pose proof (Hstable sp _ Hy) as Hp; unfold prints_exactly in Hp; simpl in Hp.
    unfold node_transform; simpl; rewrite Hp; reflexivity.
  - intros a0; destruct (TransformFacts.normalise_exists (- a0)) as [k Hk].
    exists k; split; [lra |].
    rewrite <- rotate_0, (derived_rotation 0 a0 k);
      [f_equal; ring | replace (0 - a0)%R with (- a0)%R by ring; exact Hk].
Qed.

Lemma doc_plain_det :
  Transform.det (composed_transform doc_plain [0]) ≠ 0%R.
Proof. unfold composed_transform, node_transform, Transform.det; simpl; lra. Qed.

Lemma stable_doc_plain : stable (H := example_collaborators) doc_plain.
Proof. solve_stable_with fail. Qed.

Lemma untransformed_clone_keeps_angles_witness :
  ∃ pn, get_node [] doc_plain = Some pn ∧
    let cp := [] ++ [length (children pn)] in
    clone_elements_setup (H := example_collaborators) [1] [0] cp
      (entered doc_plain [] cp (shape SVG_RECT_TAG None) [])
    = yield_from (H := example_collaborators) [1] cp None Transform.identity
        (mkState (alter_node (append_child (shape SVG_RECT_TAG None)) [] doc_plain)
           (([] ++ [MAdd cp])
              ++ [MRewrite [1]; MRewrite cp; MSet cp "transform"]
              ++ map MRewrite (lineage [0]) ++ map MRewrite (lineage cp)))
    ∧ ∀ a0 : R, ∃ k : Z, (-180 <= a0 - 360 * IZR k <= 180)%R ∧
        derived_angle Transform.identity a0 = Ok (a0 - 360 * IZR k)%R.
Proof.
  apply (untransformed_clone_keeps_angles (H := example_collaborators)
           doc_plain [1] [0] [] (use None [0]) (shape SVG_RECT_TAG None) []);
    [reflexivity | reflexivity | reflexivity | reflexivity | reflexivity | reflexivity
    | reflexivity | exact doc_plain_det | exact stable_doc_plain].
Defined.

(** ** The angle transform in general *)

(** X18: in the derived mode, whatever text forms the transforms take,
    the setup runs the angle loop with the angle transform computed
    from two values: the source's composed transform, read after line
    118 has read the clone's own transform, and the composed transform
    of the duplicate's parent, read after the source's lineage has
    been, followed by the duplicate's transform as it is read back from
    the text line 118 stored.  When the inversion fails, the setup
    fails in the state reached after both reads. *)
Theorem derived_setup_read_back `{Collaborators}
    (root : Node) (self sp pp : path) (x y : Node) (t0 : list Mutation) :
  get_node self root = Some x →
  get_node sp root = Some y →
  getparent self = Some pp →
  clone_fill_angle root self = None →
  ∃ pn, get_node pp root = Some pn ∧
    let cp := pp ++ [length (children pn)] in
    let product :=
      Transform.matmul (default Transform.identity (shown (node_transform x)))
                       (default Transform.identity (shown (node_transform y))) in
    let duplicate := with_attrib (put_transform (shown product)) y in
    let r1 := reserialize_at [self] root in
    let r2 := reserialize_at (lineage sp) r1 in
    let r3 := reserialize_at (lineage pp) r2 in
    let s3 :=
      mkState (alter_node (append_child (with_attrib reserialize duplicate)) pp r3)
              ((t0 ++ [MAdd cp])
                 ++ [MRewrite self; MRewrite cp; MSet cp "transform"]
                 ++ map MRewrite (lineage sp) ++ map MRewrite (lineage cp)) in
    clone_elements_setup self sp cp (entered root pp cp y t0)
    = match angle_transform_of
              (composed_transform r1 sp)
              (Transform.matmul (composed_transform r2 pp) (node_transform duplicate)) with
      | Ok at_ => yield_from self cp None at_ s3
      | Raise e => (Raise e, s3)
      end.
Proof.
  intros Hx Hy Hpar Hcfa.
  destruct (getparent_valid _ _ _ _ Hx Hpar) as [pn Hpn].
  exists pn; split; [exact Hpn |].
  exact (setup_derived root self sp pp x y pn t0 Hx Hy Hpn Hcfa).
Qed.

Lemma derived_setup_read_back_witness :
  ∃ pn, get_node [] doc_scaled = Some pn ∧
    let cp := [] ++ [length (children pn)] in
    let product :=
      Transform.matmul
        (default Transform.identity
           (shown (H := example_collaborators)
              (node_transform (use (Some (Transform.translate 5 0)) [0]))))
        (default Transform.identity
           (shown (H := example_collaborators)
              (node_transform (shape SVG_PATH_TAG (Some (Transform.scale 2 2)))))) in
    let duplicate :=
      with_attrib (put_transform (shown (H := example_collaborators) product))
        (shape SVG_PATH_TAG (Some (Transform.scale 2 2))) in
    let r1 := reserialize_at (H := example_collaborators) [[1]] doc_scaled in
    let r2 := reserialize_at (H := example_collaborators) (lineage [0]) r1 in
    let r3 := reserialize_at (H := example_collaborators) (lineage []) r2 in
    let s3 :=
      mkState
        (alter_node
           (append_child (with_attrib (reserialize (H := example_collaborators)) duplicate))
           [] r3)
        (([] ++ [MAdd cp])
           ++ [MRewrite [1]; MRewrite cp; MSet cp "transform"]
           ++ map MRewrite (lineage [0]) ++ map MRewrite (lineage cp)) in
    clone_elements_setup (H := example_collaborators) [1] [0] cp
      (entered doc_scaled [] cp (shape SVG_PATH_TAG (Some (Transform.scale 2 2))) [])
    = match angle_transform_of
              (composed_transform r1 [0])
              (Transform.matmul (composed_transform r2 []) (node_transform duplicate)) with
      | Ok at_ => yield_from (H := example_collaborators) [1] cp None at_ s3
      | Raise e => (Raise e, s3)
      end.
Proof.
  apply (derived_setup_read_back (H := example_collaborators) doc_scaled [1] [0] []
           (use (Some (Transform.translate 5 0)) [0])
           (shape SVG_PATH_TAG (Some (Transform.scale 2 2))) []);
    reflexivity.
Defined.

(** ** The angle loop on an element of its own node *)

(** X17: in the derived mode, when the loop of lines 128-144 completes,
    an element whose node no other element wraps carries the derived
    angle of the angle its node declared (negated when [flip_angle]). *)
Theorem derived_angle_unshared `{Collaborators} (flip : bool) (at_ : Transform.t)
    (l1 l2 : list Element) (element : Element) (s s' : State) (y : Node) :
  for_each (assign_angle None flip at_) (l1 ++ element :: l2) s = (Ok tt, s') →
  el_node element ∉ map el_node l1 →
  el_node element ∉ map el_node l2 →
  get_node (el_node element) (document s) = Some y →
  ∃ a_local x,
    float_of_angle (a_angle (attrib y)) = Ok (Finite a_local)
    ∧ derived_angle at_ a_local = Ok x
    ∧ has_angle (if flip then (- x)%R else x) (document s') (el_node element).
Proof.
  intros Hrun H1 H2 Hy.
  destruct (loop_unshared None flip at_ l1 l2 element s s' y Hrun H1 H2 Hy)
    as (w & Hw & Hcarries).
  revert Hw; unfold element_angle_of, element_node; rewrite Hy.
  change (default empty_node (Some y)) with y.
  destruct (float_of_angle (a_angle (attrib y))) as [[a_local | nf] | e];
    [| discriminate | discriminate].
  unfold derived_angle_float.
  destruct (derived_angle at_ a_local) as [x | e] eqn:Hx; [| discriminate].
  intros [= <-]; exists a_local, x; split; [reflexivity |]; split; [exact Hx |].
  unfold has_angle; destruct flip; exact Hcarries.
Qed.

Lemma derived_angle_unshared_witness :
  ∃ a_local x,
    float_of_angle (a_angle (attrib (shape SVG_RECT_TAG (Some quarter_turn))))
    = Ok (Finite a_local)
    ∧ derived_angle quarter_turn a_local = Ok x
    ∧ has_angle (if false then (- x)%R else x)
        (alter_node (with_attrib (set_angle (NumText (-90)))) [2] doc_turned_rect_during)
        [2].
Proof.
  apply (derived_angle_unshared (H := example_collaborators) false quarter_turn
           [] [] (mkElement example_collaborators FillStitch [2])
           (mkState doc_turned_rect_during [])
           (mkState
              (alter_node (with_attrib (set_angle (NumText (-90)))) [2]
                 doc_turned_rect_during)
              [MSet [2] ANGLE])).
  - unfold for_each, app, bind, assign_angle, reads, element_angle_of, node_set,
      derived_angle_float.
    cbn -[derived_angle Transform.matmul].
    rewrite derived_quarter_turn_0; reflexivity.
  - simpl; intros Hin; inversion Hin.
  - simpl; intros Hin; inversion Hin.
  - reflexivity.
Defined.

(** ** Flattening a group and chaining the stitch groups *)





Lemma stitch_loop_acc `{Collaborators} (root : Node) (elements : list Element)
    (last_patch : option StitchGroup) (patches : list StitchGroup) :
  stitch_loop root elements last_patch patches
  = match stitch_loop root elements last_patch [] with
    | Ok out => Ok (patches ++ out)
    | Raise e => Raise e
    end.
Proof.
  rewrite (stitch_loop_spec root elements last_patch patches).
  rewrite (stitch_loop_spec root elements last_patch []).
  destruct (pipeline_spec _ _ _); reflexivity.
Qed.

(** X16: stitching a list of elements in two runs, the second run
    receiving as [last_patch] the last group of the first (or the
    first run's own [last_patch] when it produced nothing), gives what
    one run over the whole list gives; a failure of the first run is
    the failure of the whole. *)
Theorem stitch_loop_app `{Collaborators} (root : Node) (l1 l2 : list Element)
    (last_patch : option StitchGroup) (patches : list StitchGroup) :
  stitch_loop root (l1 ++ l2) last_patch patches
  = match stitch_loop root l1 last_patch [] with
    | Ok out1 =>
        stitch_loop root l2
          (match last out1 with Some g => Some g | None => last_patch end)
          (patches ++ out1)
    | Raise e => Raise e
    end.
Proof.
  revert last_patch patches; induction l1 as [| element l1 IH];
    intros last_patch patches; simpl.
  - rewrite app_nil_r; reflexivity.
  - destruct (call_to_stitch_groups root element last_patch) as [groups | e];
      [| reflexivity].
    destruct (last groups) as [g |] eqn:Hlast.
    + rewrite IH, (stitch_loop_acc root l1 (Some g) groups).
      destruct (stitch_loop root l1 (Some g) []) as [out1 | e]; [| reflexivity].
      rewrite last_app, Hlast, app_assoc.
      destruct (last out1); reflexivity.
    + apply IH.
Qed.
